(** * RockPaperScissorsGame: a shallow embedding of the wagering contract

    The development follows [hardhat/contracts/RockPaperScissorsGame.sol].
    Storage is an explicit [State] record threaded through every external
    function; a transaction either returns the new storage ([Ok]) or reverts
    ([Revert]), in which case the storage of the caller is the one it had
    before the call.  [uint256], [address] and [bytes32] values are binary
    naturals; Solidity 0.8 checked arithmetic is written out with
    [checked_add] and [checked_mul].

    The owner-only functions ([emergencyWithdraw], [updatePythContract]) and
    [receive] write none of the storage modelled here and are left out. *)

From Stdlib Require Import NArith Lia Bool List.
From stdpp Require Import base option gmap.
Import ListNotations.

Local Open Scope N_scope.

(** ** Machine types *)

Abbreviation address := N (only parsing).
Abbreviation bytes32 := N (only parsing).
Abbreviation uint256 := N (only parsing).

Definition MAX_UINT256 : N := 2 ^ 256 - 1.

(** [1 ether] is [10^18] wei, [1 minutes] is 60 seconds, [1 hours] is 3600. *)
Definition ether : N := 10 ^ 18.
Definition COMMIT_DURATION : N := 5 * 60.
Definition REVEAL_DURATION : N := 5 * 60.
Definition MIN_BET_AMOUNT : N := ether / 1000.
Definition MAX_BET_AMOUNT : N := 10 * ether.
Definition ONE_HOUR : N := 3600.

Inductive Choice := CNone | Rock | Paper | Scissors.
Inductive GameResult := Pending | Player1Wins | Player2Wins | Draw | Expired.

#[global] Instance Choice_eq_dec : EqDecision Choice.
Proof. solve_decision. Defined.
#[global] Instance GameResult_eq_dec : EqDecision GameResult.
Proof. solve_decision. Defined.

(** ** Reverts

    One constructor per [require]/[revert] message of the contract, plus the
    custom error of OpenZeppelin's [ReentrancyGuard] and the arithmetic panic
    of checked [uint256] operations. *)
Inductive Error :=
| BetAmountTooLow
| BetAmountTooHigh
| GameDoesNotExist
| GameAlreadyHasTwoPlayers
| CannotPlayAgainstYourself
| MustMatchTheBetAmount
| GameNotReady
| CommitPhaseExpired
| InvalidCommitHash
| AlreadyCommitted
| NotAPlayerInThisGame
| RevealPhaseNotStarted
| RevealPhaseExpired
| InvalidChoice
| InvalidReveal
| AlreadyRevealed
| FundsAlreadyDistributed
| GameNotExpired
| GameAlreadyCompleted
| NoBalanceToWithdraw
| WithdrawalFailed
| OnlyGameCreatorCanCancel
| CannotCancelGameWithTwoPlayers
| MustWaitBeforeCanceling
| ReentrancyGuardReentrantCall
| PanicOverflow.

Inductive Result (A : Type) : Type :=
| Ok (a : A)
| Revert (e : Error).
Arguments Ok {A} a.
Arguments Revert {A} e.

Definition bind {A B : Type} (m : Result A) (f : A -> Result B) : Result B :=
  match m with
  | Ok a => f a
  | Revert e => Revert e
  end.

Notation "'do' x <- m ; k" := (bind m (fun x => k))
  (at level 10, x name, m at level 100, k at level 200).
Notation "'check' m ; k" := (bind m (fun _ : unit => k))
  (at level 10, m at level 100, k at level 200).

Definition require (b : bool) (e : Error) : Result unit :=
  if b then Ok tt else Revert e.

Definition checked_add (a b : uint256) : Result uint256 :=
  if a + b <=? MAX_UINT256 then Ok (a + b) else Revert PanicOverflow.

Definition checked_mul (a b : uint256) : Result uint256 :=
  if a * b <=? MAX_UINT256 then Ok (a * b) else Revert PanicOverflow.

(** ** Storage *)

Record Game := mkGame {
  player1 : address;
  player2 : address;
  player1CommitHash : bytes32;
  player2CommitHash : bytes32;
  player1Choice : Choice;
  player2Choice : Choice;
  betAmount : uint256;
  commitDeadline : uint256;
  revealDeadline : uint256;
  result : GameResult;
  player1Revealed : bool;
  player2Revealed : bool;
  isCompleted : bool;
  fundsDistributed : bool;
  randomSeed : uint256
}.

(** The value a [mapping(uint256 => Game)] holds at a key never written. *)
Definition zero_game : Game :=
  mkGame 0 0 0 0 CNone CNone 0 0 0 Pending false false false false 0.

Definition set_player2 (v : address) (g : Game) : Game :=
  mkGame (player1 g) v (player1CommitHash g) (player2CommitHash g)
    (player1Choice g) (player2Choice g) (betAmount g) (commitDeadline g)
    (revealDeadline g) (result g) (player1Revealed g) (player2Revealed g)
    (isCompleted g) (fundsDistributed g) (randomSeed g).
Definition set_player1CommitHash (v : bytes32) (g : Game) : Game :=
  mkGame (player1 g) (player2 g) v (player2CommitHash g)
    (player1Choice g) (player2Choice g) (betAmount g) (commitDeadline g)
    (revealDeadline g) (result g) (player1Revealed g) (player2Revealed g)
    (isCompleted g) (fundsDistributed g) (randomSeed g).
Definition set_player2CommitHash (v : bytes32) (g : Game) : Game :=
  mkGame (player1 g) (player2 g) (player1CommitHash g) v
    (player1Choice g) (player2Choice g) (betAmount g) (commitDeadline g)
    (revealDeadline g) (result g) (player1Revealed g) (player2Revealed g)
    (isCompleted g) (fundsDistributed g) (randomSeed g).
Definition set_player1Choice (v : Choice) (g : Game) : Game :=
  mkGame (player1 g) (player2 g) (player1CommitHash g) (player2CommitHash g)
    v (player2Choice g) (betAmount g) (commitDeadline g)
    (revealDeadline g) (result g) (player1Revealed g) (player2Revealed g)
    (isCompleted g) (fundsDistributed g) (randomSeed g).
Definition set_player2Choice (v : Choice) (g : Game) : Game :=
  mkGame (player1 g) (player2 g) (player1CommitHash g) (player2CommitHash g)
    (player1Choice g) v (betAmount g) (commitDeadline g)
    (revealDeadline g) (result g) (player1Revealed g) (player2Revealed g)
    (isCompleted g) (fundsDistributed g) (randomSeed g).
Definition set_commitDeadline (v : uint256) (g : Game) : Game :=
  mkGame (player1 g) (player2 g) (player1CommitHash g) (player2CommitHash g)
    (player1Choice g) (player2Choice g) (betAmount g) v
    (revealDeadline g) (result g) (player1Revealed g) (player2Revealed g)
    (isCompleted g) (fundsDistributed g) (randomSeed g).
Definition set_revealDeadline (v : uint256) (g : Game) : Game :=
  mkGame (player1 g) (player2 g) (player1CommitHash g) (player2CommitHash g)
    (player1Choice g) (player2Choice g) (betAmount g) (commitDeadline g)
    v (result g) (player1Revealed g) (player2Revealed g)
    (isCompleted g) (fundsDistributed g) (randomSeed g).
Definition set_result (v : GameResult) (g : Game) : Game :=
  mkGame (player1 g) (player2 g) (player1CommitHash g) (player2CommitHash g)
    (player1Choice g) (player2Choice g) (betAmount g) (commitDeadline g)
    (revealDeadline g) v (player1Revealed g) (player2Revealed g)
    (isCompleted g) (fundsDistributed g) (randomSeed g).
Definition set_player1Revealed (v : bool) (g : Game) : Game :=
  mkGame (player1 g) (player2 g) (player1CommitHash g) (player2CommitHash g)
    (player1Choice g) (player2Choice g) (betAmount g) (commitDeadline g)
    (revealDeadline g) (result g) v (player2Revealed g)
    (isCompleted g) (fundsDistributed g) (randomSeed g).
Definition set_player2Revealed (v : bool) (g : Game) : Game :=
  mkGame (player1 g) (player2 g) (player1CommitHash g) (player2CommitHash g)
    (player1Choice g) (player2Choice g) (betAmount g) (commitDeadline g)
    (revealDeadline g) (result g) (player1Revealed g) v
    (isCompleted g) (fundsDistributed g) (randomSeed g).
Definition set_isCompleted (v : bool) (g : Game) : Game :=
  mkGame (player1 g) (player2 g) (player1CommitHash g) (player2CommitHash g)
    (player1Choice g) (player2Choice g) (betAmount g) (commitDeadline g)
    (revealDeadline g) (result g) (player1Revealed g) (player2Revealed g)
    v (fundsDistributed g) (randomSeed g).
Definition set_fundsDistributed (v : bool) (g : Game) : Game :=
  mkGame (player1 g) (player2 g) (player1CommitHash g) (player2CommitHash g)
    (player1Choice g) (player2Choice g) (betAmount g) (commitDeadline g)
    (revealDeadline g) (result g) (player1Revealed g) (player2Revealed g)
    (isCompleted g) v (randomSeed g).
Definition set_randomSeed (v : uint256) (g : Game) : Game :=
  mkGame (player1 g) (player2 g) (player1CommitHash g) (player2CommitHash g)
    (player1Choice g) (player2Choice g) (betAmount g) (commitDeadline g)
    (revealDeadline g) (result g) (player1Revealed g) (player2Revealed g)
    (isCompleted g) (fundsDistributed g) v.

Inductive Event :=
| GameCreated (gameId : uint256) (p1 : address) (bet : uint256)
| PlayerJoined (gameId : uint256) (p2 : address)
| CommitSubmitted (gameId : uint256) (player : address)
| ChoiceRevealed (gameId : uint256) (player : address) (choice : Choice)
| GameCompleted (gameId : uint256) (res : GameResult) (winner : address)
| FundsWithdrawn (player : address) (amount : uint256)
| RandomSeedGenerated (gameId : uint256) (seed : uint256).

(** The contract's storage: the three mappings, [nextGameId], and the
    [_status] slot of the inherited [ReentrancyGuard] ([entered = true] is
    [ENTERED]).  [events] is the log of emitted events and [sent] the record
    of value that left the contract through a successful external call, both
    most recent first. *)
Record State := mkState {
  games : gmap N Game;
  playerGames : gmap N (list N);
  playerBalances : gmap N N;
  nextGameId : uint256;
  entered : bool;
  events : list Event;
  sent : list (address * uint256)
}.

Definition initial_state : State :=
  mkState ∅ ∅ ∅ 1 false [] [].

Definition set_games (v : gmap N Game) (s : State) : State :=
  mkState v (playerGames s) (playerBalances s) (nextGameId s) (entered s)
    (events s) (sent s).
Definition set_playerGames (v : gmap N (list N)) (s : State) : State :=
  mkState (games s) v (playerBalances s) (nextGameId s) (entered s)
    (events s) (sent s).
Definition set_playerBalances (v : gmap N N) (s : State) : State :=
  mkState (games s) (playerGames s) v (nextGameId s) (entered s)
    (events s) (sent s).
Definition set_nextGameId (v : uint256) (s : State) : State :=
  mkState (games s) (playerGames s) (playerBalances s) v (entered s)
    (events s) (sent s).
Definition set_entered (v : bool) (s : State) : State :=
  mkState (games s) (playerGames s) (playerBalances s) (nextGameId s) v
    (events s) (sent s).
Definition emit (e : Event) (s : State) : State :=
  mkState (games s) (playerGames s) (playerBalances s) (nextGameId s)
    (entered s) (e :: events s) (sent s).
Definition record_sent (to : address) (amount : uint256) (s : State) : State :=
  mkState (games s) (playerGames s) (playerBalances s) (nextGameId s)
    (entered s) (events s) ((to, amount) :: sent s).

(** [games[gameId]] and [playerBalances[a]]: a mapping reads as zero where it
    was never written. *)
Definition game (s : State) (gameId : uint256) : Game :=
  default zero_game (games s !! gameId).
Definition balance (s : State) (a : address) : uint256 :=
  default 0 (playerBalances s !! a).

(** A write through the storage pointer [Game storage game = games[gameId]]. *)
Definition update_game (gameId : uint256) (f : Game -> Game) (s : State) : State :=
  set_games (<[gameId := f (game s gameId)]> (games s)) s.

(** [playerGames[a].push(gameId)] *)
Definition push_playerGame (a : address) (gameId : uint256) (s : State) : State :=
  set_playerGames
    (<[a := default [] (playerGames s !! a) ++ [gameId]]> (playerGames s)) s.

(** [playerBalances[a] += amount] *)
Definition credit (a : address) (amount : uint256) (s : State) : Result State :=
  do b <- checked_add (balance s a) amount;
  Ok (set_playerBalances (<[a := b]> (playerBalances s)) s).

(** The block a transaction executes in. *)
Record Block := mkBlock {
  timestamp : uint256;
  prevrandao : uint256
}.

(** Modelled from the spec: the [nonReentrant] modifier comes from the
    imported OpenZeppelin [ReentrancyGuard], whose source is not part of the
    repository.  A guarded function called while another guarded function is
    running reverts; otherwise the guard is set, the body runs, and the guard
    is cleared. *)
Definition nonReentrant (body : State -> Result State) (s : State) : Result State :=
  if entered s then Revert ReentrancyGuardReentrantCall
  else do s' <- body (set_entered true s); Ok (set_entered false s').

(** ** Calls and the code behind an external call

    [Call] lists the state-changing entry points.  [withdrawBalance] hands
    control to the recipient of the transfer; [Callee] is what that code may
    do before it returns: read the contract's storage through the view
    functions ([Observe]), call back into the contract under any caller
    address ([Reenter], seeing whether the call reverted), and finally
    return or revert ([Finish]). *)
Inductive Call :=
| CreateGame (value : uint256)
| JoinGame (gameId : uint256) (value : uint256)
| CommitChoice (gameId : uint256) (commitHash : bytes32)
| RevealChoice (gameId : uint256) (choice : Choice) (nonce : uint256)
| HandleExpiredGame (gameId : uint256)
| WithdrawBalance (recipient : Callee)
| CancelGame (gameId : uint256)
with Callee :=
| Finish (success : bool)
| Observe (k : State -> Callee)
| Reenter (caller : address) (c : Call) (k : Result State -> Callee).

Scheme Call_Callee_ind := Induction for Call Sort Prop
  with Callee_Call_ind := Induction for Callee Sort Prop.

(** The storage after a nested call: a reverted call leaves it as it was. *)
Definition after (r : Result State) (s : State) : State :=
  match r with Ok s' => s' | Revert _ => s end.

(** A low-level call with value: when the recipient's code fails, everything
    it did is rolled back and [success] is false; otherwise the value has
    left the contract. *)
Definition external_call (code : State -> bool * State)
    (to : address) (amount : uint256) (s : State) : bool * State :=
  let '(ok, s') := code s in
  if ok then (true, record_sent to amount s') else (false, s).

(** ** The contract's functions *)

Section Contract.

(** [commit_hash choice nonce player] is
    [keccak256(abi.encodePacked(choice, nonce, player))], and [seed_hash] the
    [keccak256] of the seven packed words of [_generateRandomSeed]. *)
Variable commit_hash : Choice -> uint256 -> address -> bytes32.
Variable seed_hash :
  uint256 -> uint256 -> address -> address -> bytes32 -> bytes32 -> uint256 -> uint256.

Definition createGame (sender : address) (value : uint256) (s : State) : Result State :=
  nonReentrant (fun s =>
    check require (MIN_BET_AMOUNT <=? value) BetAmountTooLow;
    check require (value <=? MAX_BET_AMOUNT) BetAmountTooHigh;
    let gameId := nextGameId s in
    do next <- checked_add (nextGameId s) 1;
    let s := set_nextGameId next s in
    let s := set_games (<[gameId :=
               mkGame sender 0 0 0 CNone CNone value 0 0 Pending
                      false false false false 0]> (games s)) s in
    let s := push_playerGame sender gameId s in
    Ok (emit (GameCreated gameId sender value) s)) s.

Definition joinGame (sender : address) (value : uint256) (blk : Block)
    (gameId : uint256) (s : State) : Result State :=
  nonReentrant (fun s =>
    check require (negb (player1 (game s gameId) =? 0)) GameDoesNotExist;
    check require (player2 (game s gameId) =? 0) GameAlreadyHasTwoPlayers;
    check require (negb (sender =? player1 (game s gameId))) CannotPlayAgainstYourself;
    check require (value =? betAmount (game s gameId)) MustMatchTheBetAmount;
    let s := update_game gameId (set_player2 sender) s in
    do deadline <- checked_add (timestamp blk) COMMIT_DURATION;
    let s := update_game gameId (set_commitDeadline deadline) s in
    let s := push_playerGame sender gameId s in
    Ok (emit (PlayerJoined gameId sender) s)) s.

Definition _generateRandomSeed (blk : Block) (gameId : uint256) (s : State) : State :=
  let g := game s gameId in
  let seed := seed_hash (timestamp blk) (prevrandao blk) (player1 g) (player2 g)
                (player1CommitHash g) (player2CommitHash g) gameId in
  let s := update_game gameId (set_randomSeed seed) s in
  emit (RandomSeedGenerated gameId seed) s.

Definition commitChoice (sender : address) (blk : Block)
    (gameId : uint256) (commitHash : bytes32) (s : State) : Result State :=
  check require (negb (player1 (game s gameId) =? 0) &&
                 negb (player2 (game s gameId) =? 0)) GameNotReady;
  check require (timestamp blk <=? commitDeadline (game s gameId)) CommitPhaseExpired;
  check require (negb (commitHash =? 0)) InvalidCommitHash;
  do s <-
    (if sender =? player1 (game s gameId) then
       check require (player1CommitHash (game s gameId) =? 0) AlreadyCommitted;
       Ok (update_game gameId (set_player1CommitHash commitHash) s)
     else if sender =? player2 (game s gameId) then
       check require (player2CommitHash (game s gameId) =? 0) AlreadyCommitted;
       Ok (update_game gameId (set_player2CommitHash commitHash) s)
     else Revert NotAPlayerInThisGame);
  let s := emit (CommitSubmitted gameId sender) s in
  if negb (player1CommitHash (game s gameId) =? 0) &&
     negb (player2CommitHash (game s gameId) =? 0)
  then
    do deadline <- checked_add (timestamp blk) REVEAL_DURATION;
    let s := update_game gameId (set_revealDeadline deadline) s in
    Ok (_generateRandomSeed blk gameId s)
  else Ok s.

Definition _distributeFunds (gameId : uint256) (s : State) : Result State :=
  check require (negb (fundsDistributed (game s gameId))) FundsAlreadyDistributed;
  do totalPot <- checked_mul (betAmount (game s gameId)) 2;
  do s <-
    (match result (game s gameId) with
     | Draw =>
         do s <- credit (player1 (game s gameId)) (betAmount (game s gameId)) s;
         credit (player2 (game s gameId)) (betAmount (game s gameId)) s
     | Player1Wins => credit (player1 (game s gameId)) totalPot s
     | Player2Wins => credit (player2 (game s gameId)) totalPot s
     | _ => Ok s
     end);
  Ok (update_game gameId (set_fundsDistributed true) s).

Definition _determineWinner (gameId : uint256) (s : State) : Result State :=
  let choice1 := player1Choice (game s gameId) in
  let choice2 := player2Choice (game s gameId) in
  let s :=
    if bool_decide (choice1 = choice2) then
      update_game gameId (set_result Draw) s
    else if (bool_decide (choice1 = Rock) && bool_decide (choice2 = Scissors)) ||
            (bool_decide (choice1 = Paper) && bool_decide (choice2 = Rock)) ||
            (bool_decide (choice1 = Scissors) && bool_decide (choice2 = Paper))
    then update_game gameId (set_result Player1Wins) s
    else update_game gameId (set_result Player2Wins) s in
  let s := update_game gameId (set_isCompleted true) s in
  do s <- _distributeFunds gameId s;
  let winner :=
    match result (game s gameId) with
    | Player1Wins => player1 (game s gameId)
    | Player2Wins => player2 (game s gameId)
    | _ => 0
    end in
  Ok (emit (GameCompleted gameId (result (game s gameId)) winner) s).

Definition revealChoice (sender : address) (blk : Block)
    (gameId : uint256) (choice : Choice) (nonce : uint256) (s : State) : Result State :=
  check require (0 <? revealDeadline (game s gameId)) RevealPhaseNotStarted;
  check require (timestamp blk <=? revealDeadline (game s gameId)) RevealPhaseExpired;
  check require (negb (bool_decide (choice = CNone))) InvalidChoice;
  let expectedHash := commit_hash choice nonce sender in
  do s <-
    (if sender =? player1 (game s gameId) then
       check require (player1CommitHash (game s gameId) =? expectedHash) InvalidReveal;
       check require (negb (player1Revealed (game s gameId))) AlreadyRevealed;
       let s := update_game gameId (set_player1Choice choice) s in
       Ok (update_game gameId (set_player1Revealed true) s)
     else if sender =? player2 (game s gameId) then
       check require (player2CommitHash (game s gameId) =? expectedHash) InvalidReveal;
       check require (negb (player2Revealed (game s gameId))) AlreadyRevealed;
       let s := update_game gameId (set_player2Choice choice) s in
       Ok (update_game gameId (set_player2Revealed true) s)
     else Revert NotAPlayerInThisGame);
  let s := emit (ChoiceRevealed gameId sender choice) s in
  if player1Revealed (game s gameId) && player2Revealed (game s gameId)
  then _determineWinner gameId s
  else Ok s.

Definition handleExpiredGame (blk : Block) (gameId : uint256) (s : State) : Result State :=
  check require ((0 <? revealDeadline (game s gameId)) &&
                 (revealDeadline (game s gameId) <? timestamp blk)) GameNotExpired;
  check require (negb (isCompleted (game s gameId))) GameAlreadyCompleted;
  do s <-
    (if player1Revealed (game s gameId) && negb (player2Revealed (game s gameId)) then
       let s := update_game gameId (set_result Player1Wins) s in
       do pot <- checked_mul (betAmount (game s gameId)) 2;
       credit (player1 (game s gameId)) pot s
     else if negb (player1Revealed (game s gameId)) && player2Revealed (game s gameId) then
       let s := update_game gameId (set_result Player2Wins) s in
       do pot <- checked_mul (betAmount (game s gameId)) 2;
       credit (player2 (game s gameId)) pot s
     else
       let s := update_game gameId (set_result Expired) s in
       do s <- credit (player1 (game s gameId)) (betAmount (game s gameId)) s;
       credit (player2 (game s gameId)) (betAmount (game s gameId)) s);
  let s := update_game gameId (set_isCompleted true) s in
  let s := update_game gameId (set_fundsDistributed true) s in
  Ok (emit (GameCompleted gameId (result (game s gameId)) 0) s).

(** [withdrawBalance].  [call] is the low-level
    [payable(msg.sender).call{value: balance}("")]: given the recipient, the
    value and the storage at the moment of the call, it returns the success
    flag and the storage the recipient's code left behind. *)
Definition withdrawBalance (sender : address)
    (call : address -> uint256 -> State -> bool * State) (s : State) : Result State :=
  nonReentrant (fun s =>
    let bal := balance s sender in
    check require (0 <? bal) NoBalanceToWithdraw;
    let s := set_playerBalances (<[sender := 0]> (playerBalances s)) s in
    let '(success, s) := call sender bal s in
    check require success WithdrawalFailed;
    Ok (emit (FundsWithdrawn sender bal) s)) s.

Definition cancelGame (sender : address) (blk : Block)
    (gameId : uint256) (s : State) : Result State :=
  check require (player1 (game s gameId) =? sender) OnlyGameCreatorCanCancel;
  check require (player2 (game s gameId) =? 0) CannotCancelGameWithTwoPlayers;
  do earliest <- checked_add (commitDeadline (game s gameId)) ONE_HOUR;
  check require (earliest <? timestamp blk) MustWaitBeforeCanceling;
  do s <- credit (player1 (game s gameId)) (betAmount (game s gameId)) s;
  let s := update_game gameId (set_isCompleted true) s in
  Ok (update_game gameId (set_result Expired) s).

(** View functions. *)
Definition getGame (s : State) (gameId : uint256) : Game := game s gameId.
Definition getPlayerBalance (s : State) (player : address) : uint256 := balance s player.
Definition generateCommitHash (choice : Choice) (nonce : uint256) (player : address) : bytes32 :=
  commit_hash choice nonce player.

(** Dispatch of a transaction to the function it names, and the execution
    of a recipient's code against the contract. *)
Fixpoint exec (c : Call) (sender : address) (blk : Block) (s : State)
    {struct c} : Result State :=
  match c with
  | CreateGame value => createGame sender value s
  | JoinGame gameId value => joinGame sender value blk gameId s
  | CommitChoice gameId commitHash => commitChoice sender blk gameId commitHash s
  | RevealChoice gameId choice nonce => revealChoice sender blk gameId choice nonce s
  | HandleExpiredGame gameId => handleExpiredGame blk gameId s
  | WithdrawBalance recipient =>
      withdrawBalance sender (external_call (run recipient blk)) s
  | CancelGame gameId => cancelGame sender blk gameId s
  end
with run (r : Callee) (blk : Block) (s : State) {struct r} : bool * State :=
  match r with
  | Finish success => (success, s)
  | Observe k => run (k s) blk s
  | Reenter caller c k =>
      let res := exec c caller blk s in
      run (k res) blk (after res s)
  end.

(** The nested calls a recipient makes, with their outcomes, oldest first. *)
Fixpoint nested_calls (r : Callee) (blk : Block) (s : State)
    : list (address * Call * Result State) :=
  match r with
  | Finish _ => []
  | Observe k => nested_calls (k s) blk s
  | Reenter caller c k =>
      let res := exec c caller blk s in
      (caller, c, res) :: nested_calls (k res) blk (after res s)
  end.

(** ** Executions

    A world is the contract's storage together with the current block.
    Between transactions the chain may move to any later block; a
    transaction that reverts leaves the world as it is. *)
Record World := mkWorld {
  storage : State;
  block : Block
}.

Inductive step : World -> World -> Prop :=
| step_call (w : World) (sender : address) (c : Call) (s' : State) :
    exec c sender (block w) (storage w) = Ok s' ->
    step w (mkWorld s' (block w))
| step_block (w : World) (blk : Block) :
    timestamp (block w) <= timestamp blk ->
    step w (mkWorld (storage w) blk).

Inductive reachable : World -> Prop :=
| reachable_deployed (blk : Block) : reachable (mkWorld initial_state blk)
| reachable_step (w w' : World) : reachable w -> step w w' -> reachable w'.

Inductive steps : World -> World -> Prop :=
| steps_refl (w : World) : steps w w
| steps_cons (w w' w'' : World) : steps w w' -> step w' w'' -> steps w w''.

(** One move of the chain: a transaction, which leaves the world as it is
    when it reverts, or the arrival of a later block. *)
Inductive Action :=
| Tx (sender : address) (c : Call)
| NextBlock (blk : Block).

Definition act (a : Action) (w : World) : World :=
  match a with
  | Tx sender c => mkWorld (after (exec c sender (block w) (storage w)) (storage w)) (block w)
  | NextBlock blk =>
      if timestamp (block w) <=? timestamp blk then mkWorld (storage w) blk else w
  end.

End Contract.

(** ** A concrete instance for examples

    An injective packing of [(choice, nonce, player)] stands in for
    [keccak256] wherever an example has to run. *)
Definition choice_code (c : Choice) : N :=
  match c with CNone => 0 | Rock => 1 | Paper => 2 | Scissors => 3 end.

Definition pack_commit (c : Choice) (nonce : uint256) (player : address) : bytes32 :=
  4 * (2 ^ nonce * (2 * player + 1)) + choice_code c.

(** The same packing cut to 32 bytes, as a [bytes32] value is: no longer
    injective, like any hash. *)
Definition pack_commit32 (c : Choice) (nonce : uint256) (player : address) : bytes32 :=
  pack_commit c nonce player mod 2 ^ 256.

Definition pack_seed (t r : uint256) (p1 p2 : address) (h1 h2 : bytes32)
    (gameId : uint256) : uint256 :=
  t + r + p1 + p2 + h1 + h2 + gameId.

Definition alice : address := 10.
Definition bob : address := 11.
Definition carol : address := 12.
Definition block_at (t : uint256) : Block := mkBlock t 0.
Definition stake : uint256 := 100 * MIN_BET_AMOUNT.

(** The chain at deployment, and the worlds a game between [alice] and [bob]
    passes through. *)
Definition genesis : World := mkWorld initial_state (block_at 5000).
Definition next (a : Action) (w : World) : World := act pack_commit pack_seed a w.

Definition alice_commits : Action := Tx alice (CommitChoice 1 (pack_commit Rock 7 alice)).
Definition bob_commits : Action := Tx bob (CommitChoice 1 (pack_commit Scissors 9 bob)).
Definition alice_reveals : Action := Tx alice (RevealChoice 1 Rock 7).
Definition bob_reveals : Action := Tx bob (RevealChoice 1 Scissors 9).
Definition deadline_passes : Action := NextBlock (block_at 5301).

Definition world_created : World := next (Tx alice (CreateGame stake)) genesis.
Definition world_cancelled : World := next (Tx alice (CancelGame 1)) world_created.
Definition world_cancelled_twice : World := next (Tx alice (CancelGame 1)) world_cancelled.
Definition world_cancelled_joined : World := next (Tx bob (JoinGame 1 stake)) world_cancelled.
Definition world_joined : World := next (Tx bob (JoinGame 1 stake)) world_created.
Definition world_alice_committed : World := next alice_commits world_joined.
Definition world_commit_stalled : World := next deadline_passes world_alice_committed.
Definition world_commit_stalled_later : World :=
  next (NextBlock (block_at 9000)) world_commit_stalled.
Definition world_committed : World := next bob_commits world_alice_committed.
Definition world_silent : World := next deadline_passes world_committed.
Definition world_replayed : World :=
  next (Tx bob (CommitChoice 1 (pack_commit Rock 7 alice))) world_alice_committed.
Definition world_alice_revealed : World := next alice_reveals world_committed.
Definition world_alice_committed_none : World :=
  next (Tx alice (CommitChoice 1 (pack_commit CNone 7 alice))) world_joined.
Definition world_committed_none : World := next bob_commits world_alice_committed_none.
Definition world_alice_committed_low : World :=
  next (Tx alice (CommitChoice 1 (pack_commit32 Rock 254 alice))) world_joined.
Definition world_committed_low : World := next bob_commits world_alice_committed_low.
Definition world_forfeit : World := next deadline_passes world_alice_revealed.
Definition world_resolved : World := next bob_reveals world_alice_revealed.
Definition world_resolved_later : World := next deadline_passes world_resolved.
Definition world_swept_silent : World := next (Tx carol (HandleExpiredGame 1)) world_silent.
Definition world_withdrawn : World :=
  next (Tx alice (WithdrawBalance (Finish true))) world_resolved.

(** A recipient that accepts the transfer, one that rejects it, and one
    that calls [withdrawBalance] again from inside the transfer. *)
Definition accepting : Callee := Finish true.
Definition rejecting : Callee := Finish false.
Definition reentering (who : address) : Callee :=
  Reenter who (WithdrawBalance (Finish true)) (fun _ => Finish true).

(** * Vocabulary of the specification *)

(** What account [a] receives when [amount] is credited to account [to]. *)
Definition credited (a to : address) (amount : uint256) : uint256 :=
  if decide (a = to) then amount else 0.

(** A call that only writes the game [gameId]. *)
Definition only_game_changed (gameId : uint256) (s s' : State) : Prop :=
  (forall gameId', gameId' <> gameId -> game s' gameId' = game s gameId') /\
  nextGameId s' = nextGameId s /\ entered s' = entered s.

(** No balance moved. *)
Definition same_balances (s s' : State) : Prop :=
  forall a, balance s' a = balance s a.

(** The branch [_determineWinner] takes on the two stored choices. *)
Definition decided (choice1 choice2 : Choice) : GameResult :=
  if bool_decide (choice1 = choice2) then Draw
  else if (bool_decide (choice1 = Rock) && bool_decide (choice2 = Scissors)) ||
          (bool_decide (choice1 = Paper) && bool_decide (choice2 = Rock)) ||
          (bool_decide (choice1 = Scissors) && bool_decide (choice2 = Paper))
  then Player1Wins else Player2Wins.

(** What [_distributeFunds] adds to the balance of [a] for a game [g] whose
    result is [r]. *)
Definition payout (r : GameResult) (g : Game) (a : address) : uint256 :=
  match r with
  | Draw => credited a (player1 g) (betAmount g) + credited a (player2 g) (betAmount g)
  | Player1Wins => credited a (player1 g) (betAmount g * 2)
  | Player2Wins => credited a (player2 g) (betAmount g * 2)
  | _ => 0
  end.

(** The branch [handleExpiredGame] takes on the two reveal flags, and what it
    adds to the balance of [a]. *)
Definition swept (g : Game) : GameResult :=
  if player1Revealed g && negb (player2Revealed g) then Player1Wins
  else if negb (player1Revealed g) && player2Revealed g then Player2Wins
  else Expired.

Definition sweep_payout (g : Game) (a : address) : uint256 :=
  match swept g with
  | Player1Wins => credited a (player1 g) (betAmount g * 2)
  | Player2Wins => credited a (player2 g) (betAmount g * 2)
  | _ => credited a (player1 g) (betAmount g) + credited a (player2 g) (betAmount g)
  end.

(** The storage [withdrawBalance] hands to the recipient of the transfer:
    the guard is set and the caller's balance already written to zero. *)
Definition at_transfer (sender : address) (s : State) : State :=
  set_playerBalances (<[sender := 0]> (playerBalances s)) (set_entered true s).

(** * Invariants of the stored games

    [game_inv now g] collects what holds of every stored game in every
    reachable world whose block has timestamp [now]. *)
Record game_inv (now : uint256) (g : Game) : Prop := mk_game_inv {
  inv_bet : betAmount g <= MAX_BET_AMOUNT;
  inv_players : player2 g <> 0 -> player1 g <> 0 /\ player1 g <> player2 g;
  inv_unjoined :
    player2 g = 0 -> player1CommitHash g = 0 /\ player2CommitHash g = 0;
  inv_reveal_phase :
    revealDeadline g <> 0 <->
    (player1CommitHash g <> 0 /\ player2CommitHash g <> 0);
  inv_revealed1 :
    player1Revealed g = true -> revealDeadline g <> 0 /\ player1Choice g <> CNone;
  inv_revealed2 :
    player2Revealed g = true -> revealDeadline g <> 0 /\ player2Choice g <> CNone;
  inv_distributed :
    fundsDistributed g = true ->
    isCompleted g = true /\ revealDeadline g <> 0 /\
    ((player1Revealed g = true /\ player2Revealed g = true) \/
     revealDeadline g < now);
  inv_both :
    player1Revealed g = true -> player2Revealed g = true ->
    fundsDistributed g = true
}.

(** Game identifiers are handed out in order, starting from 1: no game at or
    above [nextGameId] has a creator yet. *)
Definition fresh_above (s : State) : Prop :=
  1 <= nextGameId s /\
  forall gameId, nextGameId s <= gameId -> player1 (game s gameId) = 0.

Definition state_inv (now : uint256) (s : State) : Prop :=
  fresh_above s /\ forall gameId, game_inv now (game s gameId).

(** [game_le g g'] : what is settled in [g] is still so in [g']. Players,
    commitments, deadlines, revealed choices and the completion flags are
    written once. *)
Record game_le (g g' : Game) : Prop := mk_game_le {
  le_player1 : player1 g' = player1 g;
  le_betAmount : betAmount g' = betAmount g;
  le_player2 :
    player2 g <> 0 -> player2 g' = player2 g /\ commitDeadline g' = commitDeadline g;
  le_commit1 : player1CommitHash g <> 0 -> player1CommitHash g' = player1CommitHash g;
  le_commit2 : player2CommitHash g <> 0 -> player2CommitHash g' = player2CommitHash g;
  le_revealDeadline : revealDeadline g <> 0 -> revealDeadline g' = revealDeadline g;
  le_revealed1 :
    player1Revealed g = true ->
    player1Revealed g' = true /\ player1Choice g' = player1Choice g;
  le_revealed2 :
    player2Revealed g = true ->
    player2Revealed g' = true /\ player2Choice g' = player2Choice g;
  le_completed : isCompleted g = true -> isCompleted g' = true;
  le_distributed :
    fundsDistributed g = true -> fundsDistributed g' = true /\ result g' = result g
}.

(** Room in both players' balances for the whole pot. *)
Definition headroom (s : State) (g : Game) : Prop :=
  balance s (player1 g) + betAmount g * 2 <= MAX_UINT256 /\
  balance s (player2 g) + betAmount g * 2 <= MAX_UINT256.

(** The commitment and the reveal flag [revealChoice] and [commitChoice]
    select for a caller: player 1's when the caller is [player1], player 2's
    otherwise. *)
Definition commitment_of (g : Game) (a : address) : bytes32 :=
  if a =? player1 g then player1CommitHash g else player2CommitHash g.

Definition revealed (g : Game) (a : address) : bool :=
  if a =? player1 g then player1Revealed g else player2Revealed g.

(** The two participants of a game, in either order. *)
Definition participants (g : Game) (p q : address) : Prop :=
  (p = player1 g /\ q = player2 g) \/ (p = player2 g /\ q = player1 g).

(** Resolution has run for a game. *)
Definition resolved (s : State) (gameId : uint256) : Prop :=
  isCompleted (game s gameId) = true /\ fundsDistributed (game s gameId) = true.

(** Cyclic dominance as the specification states it: Rock beats Scissors,
    Paper beats Rock, Scissors beats Paper; identical choices are a draw. *)
Definition beats (a b : Choice) : bool :=
  match a, b with
  | Rock, Scissors => true
  | Paper, Rock => true
  | Scissors, Paper => true
  | _, _ => false
  end.

Definition spec_outcome (choice1 choice2 : Choice) : option GameResult :=
  if bool_decide (choice1 = choice2) then Some Draw
  else if beats choice1 choice2 then Some Player1Wins
  else if beats choice2 choice1 then Some Player2Wins
  else None.

(** The calls guarded by [nonReentrant]. *)
Definition guarded (c : Call) : bool :=
  match c with
  | CreateGame _ | JoinGame _ _ | WithdrawBalance _ => true
  | _ => false
  end.

(** The credits a resolution step from [s] to [s'] issued for game [g]:
    [c1] to player 1 and [c2] to player 2, nothing to anybody else, and the
    two adding up to the pot. *)
Definition pot_conserved (s s' : State) (g : Game) : Prop :=
  exists c1 c2 : uint256,
    balance s' (player1 g) = balance s (player1 g) + c1 /\
    balance s' (player2 g) = balance s (player2 g) + c2 /\
    c1 + c2 = 2 * betAmount g /\
    forall a, a <> player1 g -> a <> player2 g -> balance s' a = balance s a.

(** A joined game whose commit phase ran out before the reveal phase was
    opened. *)
Definition stalled (now : uint256) (g : Game) : Prop :=
  player2 g <> 0 /\ commitDeadline g < now /\ revealDeadline g = 0.

(** ** The remaining view functions *)

(** [getPlayerGames]: the identifiers pushed for a player, oldest first. *)
Definition getPlayerGames (s : State) (player : address) : list uint256 :=
  default [] (playerGames s !! player).

(** [isGameReadyToPlay]: both players present and the commit deadline still
    ahead of the block. *)
Definition isGameReadyToPlay (blk : Block) (s : State) (gameId : uint256) : bool :=
  negb (player1 (game s gameId) =? 0) &&
  negb (player2 (game s gameId) =? 0) &&
  (timestamp blk <? commitDeadline (game s gameId)).

(** * Further invariants *)

(** The shape every stored game keeps: a created game has a stake the
    contract accepts, a choice is stored only together with its reveal flag,
    and the result leaves [Pending] exactly when the game is completed. *)
Record game_shape (g : Game) : Prop := mk_game_shape {
  shape_stake : player1 g <> 0 -> MIN_BET_AMOUNT <= betAmount g;
  shape_hidden1 : player1Revealed g = false -> player1Choice g = CNone;
  shape_hidden2 : player2Revealed g = false -> player2Choice g = CNone;
  shape_result : isCompleted g = true <-> result g <> Pending
}.

Definition state_shape (s : State) : Prop :=
  player1 (game s 0) = 0 /\ forall gameId, game_shape (game s gameId).

(** [playerGames] is an index of the games: a nonzero address finds there,
    once each, exactly the games it created or joined, and every identifier
    in any list has been handed out. *)
Definition index_inv (s : State) : Prop :=
  (forall a gameId, In gameId (getPlayerGames s a) -> 1 <= gameId < nextGameId s) /\
  (forall a, a <> 0 ->
     NoDup (getPlayerGames s a) /\
     forall gameId,
       In gameId (getPlayerGames s a) <->
       (player1 (game s gameId) = a \/ player2 (game s gameId) = a)).

(** The calls that leave every balance alone or add to it: all but
    [withdrawBalance]. *)
Definition is_withdraw (c : Call) : bool :=
  match c with WithdrawBalance _ => true | _ => false end.

(** Everything that holds of the storage between transactions. *)
Definition contract_inv (now : uint256) (s : State) : Prop :=
  state_inv now s /\ state_shape s /\ index_inv s.

(** The choice stored for a caller, selected as [commitment_of] selects the
    commitment. *)
Definition choice_of (g : Game) (a : address) : Choice :=
  if a =? player1 g then player1Choice g else player2Choice g.

(** The clock of a game: deadlines are set from the block's timestamp, so a
    deadline is never further ahead than its phase lasts, and the reveal
    deadline falls between the commit deadline and five minutes after it. *)
Record game_clock (now : uint256) (g : Game) : Prop := mk_game_clock {
  clock_commit : player2 g <> 0 -> commitDeadline g <= now + COMMIT_DURATION;
  clock_reveal :
    revealDeadline g <> 0 ->
    commitDeadline g <= revealDeadline g /\
    revealDeadline g <= commitDeadline g + REVEAL_DURATION /\
    revealDeadline g <= now + REVEAL_DURATION
}.

(** The part of a game the reveal phase works with: who plays, what was
    committed, until when reveals count, and the seed drawn. *)
Definition reveal_terms (g : Game) : address * address * bytes32 * bytes32 * uint256 * uint256 :=
  (player1 g, player2 g, player1CommitHash g, player2CommitHash g,
   revealDeadline g, randomSeed g).

(** Two storages that differ at most in the stored seeds (and in the logs). *)
Definition same_but_seed (s t : State) : Prop :=
  (forall gameId, set_randomSeed 0 (game s gameId) = set_randomSeed 0 (game t gameId)) /\
  (forall a, balance s a = balance t a) /\
  (forall a, getPlayerGames s a = getPlayerGames t a) /\
  nextGameId s = nextGameId t /\
  entered s = entered t.

(** Two outcomes that agree: the same error, or storages that differ at
    most in the stored seeds. *)
Definition agree (r r' : Result State) : Prop :=
  match r, r' with
  | Ok s, Ok t => same_but_seed s t
  | Revert e, Revert e' => e = e'
  | _, _ => False
  end.

(** A write to a game that does not read its seed. *)
Definition seedless (f : Game -> Game) : Prop :=
  forall g g', set_randomSeed 0 g = set_randomSeed 0 g' ->
               set_randomSeed 0 (f g) = set_randomSeed 0 (f g').

(** The winner [_determineWinner] names in its [GameCompleted] event. *)
Definition named_winner (r : GameResult) (g : Game) : address :=
  match r with
  | Player1Wins => player1 g
  | Player2Wins => player2 g
  | _ => 0
  end.

(** * Storage lemmas *)

Lemma checked_add_ok a b c :
  checked_add a b = Ok c <-> c = a + b /\ a + b <= MAX_UINT256.
Proof.
  unfold checked_add. destruct (N.leb_spec (a + b) MAX_UINT256); split.
  - intros [= <-]. split; [reflexivity | assumption].
  - intros [-> _]. reflexivity.
  - discriminate.
  - intros [_ ?]. lia.
Qed.

Lemma checked_mul_ok a b c :
  checked_mul a b = Ok c <-> c = a * b /\ a * b <= MAX_UINT256.
Proof.
  unfold checked_mul. destruct (N.leb_spec (a * b) MAX_UINT256); split.
  - intros [= <-]. split; [reflexivity | assumption].
  - intros [-> _]. reflexivity.
  - discriminate.
  - intros [_ ?]. lia.
Qed.

Lemma game_update_game gameId f s gameId' :
  game (update_game gameId f s) gameId' =
  if decide (gameId = gameId') then f (game s gameId) else game s gameId'.
Proof.
  unfold game, update_game; simpl. unfold game.
  rewrite lookup_insert. destruct (decide (gameId = gameId')); reflexivity.
Qed.

Lemma game_update_game_eq gameId f s :
  game (update_game gameId f s) gameId = f (game s gameId).
Proof. rewrite game_update_game. destruct (decide (gameId = gameId)); congruence. Qed.

Lemma game_update_game_ne gameId f s gameId' :
  gameId <> gameId' -> game (update_game gameId f s) gameId' = game s gameId'.
Proof. intros. rewrite game_update_game. destruct (decide (gameId = gameId')); congruence. Qed.

Lemma game_set_playerBalances v s gameId : game (set_playerBalances v s) gameId = game s gameId.
Proof. reflexivity. Qed.
Lemma game_set_playerGames v s gameId : game (set_playerGames v s) gameId = game s gameId.
Proof. reflexivity. Qed.
Lemma game_push_playerGame a i s gameId : game (push_playerGame a i s) gameId = game s gameId.
Proof. reflexivity. Qed.
Lemma game_set_nextGameId v s gameId : game (set_nextGameId v s) gameId = game s gameId.
Proof. reflexivity. Qed.
Lemma game_set_entered v s gameId : game (set_entered v s) gameId = game s gameId.
Proof. reflexivity. Qed.
Lemma game_emit e s gameId : game (emit e s) gameId = game s gameId.
Proof. reflexivity. Qed.
Lemma game_record_sent a v s gameId : game (record_sent a v s) gameId = game s gameId.
Proof. reflexivity. Qed.

Lemma balance_set_playerBalances_insert a v s b :
  balance (set_playerBalances (<[a := v]> (playerBalances s)) s) b =
  if decide (a = b) then v else balance s b.
Proof.
  unfold balance; simpl. rewrite lookup_insert.
  destruct (decide (a = b)); reflexivity.
Qed.

Lemma balance_update_game gameId f s a : balance (update_game gameId f s) a = balance s a.
Proof. reflexivity. Qed.
Lemma balance_set_games v s a : balance (set_games v s) a = balance s a.
Proof. reflexivity. Qed.
Lemma balance_set_playerGames v s a : balance (set_playerGames v s) a = balance s a.
Proof. reflexivity. Qed.
Lemma balance_push_playerGame x i s a : balance (push_playerGame x i s) a = balance s a.
Proof. reflexivity. Qed.
Lemma balance_set_nextGameId v s a : balance (set_nextGameId v s) a = balance s a.
Proof. reflexivity. Qed.
Lemma balance_set_entered v s a : balance (set_entered v s) a = balance s a.
Proof. reflexivity. Qed.
Lemma balance_emit e s a : balance (emit e s) a = balance s a.
Proof. reflexivity. Qed.
Lemma balance_record_sent x v s a : balance (record_sent x v s) a = balance s a.
Proof. reflexivity. Qed.

Create Rewrite HintDb storage.
#[global] Hint Rewrite game_update_game_eq game_set_playerBalances game_set_playerGames
  game_push_playerGame game_set_nextGameId game_set_entered game_emit game_record_sent
  balance_update_game balance_set_games balance_set_playerGames balance_push_playerGame
  balance_set_nextGameId balance_set_entered balance_emit balance_record_sent : storage.

Lemma credit_ok a amount s s' :
  credit a amount s = Ok s' <->
  balance s a + amount <= MAX_UINT256 /\
  s' = set_playerBalances (<[a := balance s a + amount]> (playerBalances s)) s.
Proof.
  unfold credit. destruct (checked_add (balance s a) amount) as [b|e] eqn:E; simpl.
  - apply checked_add_ok in E as [-> ?]. split.
    + intros [= <-]. auto.
    + intros [_ ->]. reflexivity.
  - split; [discriminate|]. intros [Hle _].
    unfold checked_add in E. apply N.leb_le in Hle. rewrite Hle in E. discriminate.
Qed.

Lemma balance_credit a amount s s' b :
  credit a amount s = Ok s' ->
  balance s' b = if decide (a = b) then balance s a + amount else balance s b.
Proof.
  intros H. apply credit_ok in H as [_ ->].
  apply balance_set_playerBalances_insert.
Qed.

(** * Inverting successful calls *)

Ltac bool_prop :=
  repeat match goal with
  | H : _ && _ = true |- _ => apply andb_true_iff in H; destruct H
  | H : _ && _ = false |- _ => apply andb_false_iff in H
  | H : _ || _ = true |- _ => apply orb_true_iff in H
  | H : _ || _ = false |- _ => apply orb_false_iff in H; destruct H
  | H : negb _ = true |- _ => apply negb_true_iff in H
  | H : negb _ = false |- _ => apply negb_false_iff in H
  | H : (_ =? _) = true |- _ => apply N.eqb_eq in H
  | H : (_ =? _) = false |- _ => apply N.eqb_neq in H
  | H : (_ <=? _) = true |- _ => apply N.leb_le in H
  | H : (_ <=? _) = false |- _ => apply N.leb_gt in H
  | H : (_ <? _) = true |- _ => apply N.ltb_lt in H
  | H : (_ <? _) = false |- _ => apply N.ltb_ge in H
  | H : bool_decide _ = true |- _ => apply bool_decide_eq_true in H
  | H : bool_decide _ = false |- _ => apply bool_decide_eq_false in H
  end.

Ltac ok_step :=
  match goal with
  | H : Ok _ = Ok _ |- _ => injection H as H
  | H : Revert _ = Ok _ |- _ => discriminate H
  | H : bind (require ?b ?e) _ = Ok _ |- _ =>
      let Hb := fresh "Hreq" in
      destruct b eqn:Hb; cbn [bind require] in H; [|discriminate H]
  | H : bind (checked_add ?a ?b) _ = Ok _ |- _ =>
      let E := fresh "Hadd" in
      destruct (checked_add a b) eqn:E; cbn [bind] in H;
      [apply checked_add_ok in E; destruct E as [-> E] | discriminate H]
  | H : bind (checked_mul ?a ?b) _ = Ok _ |- _ =>
      let E := fresh "Hmul" in
      destruct (checked_mul a b) eqn:E; cbn [bind] in H;
      [apply checked_mul_ok in E; destruct E as [-> E] | discriminate H]
  | H : bind (credit ?a ?b ?s) _ = Ok _ |- _ =>
      let E := fresh "Hcredit" in
      destruct (credit a b s) eqn:E; cbn [bind] in H; [| discriminate H]
  | H : bind (if ?b then _ else _) _ = Ok _ |- _ =>
      let Hb := fresh "Hif" in destruct b eqn:Hb
  | H : bind (match ?r with Pending => _ | _ => _ end) _ = Ok _ |- _ =>
      let Hr := fresh "Hres" in destruct r eqn:Hr
  | H : bind (bind _ _) _ = Ok _ |- _ => unfold bind at 1 in H
  | H : bind (Ok _) _ = Ok _ |- _ => cbn [bind] in H
  | H : bind (Revert _) _ = Ok _ |- _ => discriminate H
  | H : match ?m with Ok _ => _ | Revert _ => _ end = Ok _ |- _ =>
      let E := fresh "Hm" in destruct m eqn:E; [| discriminate H]
  | H : (if ?b then _ else _) = Ok _ |- _ =>
      let Hb := fresh "Hif" in destruct b eqn:Hb
  | H : bind ?m _ = Ok _ |- _ =>
      let E := fresh "Hm" in destruct m eqn:E; cbn [bind] in H; [| discriminate H]
  end.

Ltac ok_inv := repeat ok_step.

Ltac storage_simpl :=
  repeat progress
    (autorewrite with storage; rewrite ?game_update_game_ne by congruence).

Ltac frame_solve :=
  repeat split; intros; storage_simpl; try reflexivity.

Lemma balance_credit_credited a amount s s' b :
  credit a amount s = Ok s' -> balance s' b = balance s b + credited b a amount.
Proof.
  intros H. rewrite (balance_credit _ _ _ _ b H). unfold credited.
  destruct (decide (a = b)), (decide (b = a)); subst; try congruence; lia.
Qed.

Ltac credit_inv :=
  repeat match goal with
  | E : credit _ _ _ = Ok _ |- _ => apply credit_ok in E; destruct E as [? ->]
  end.

Ltac proj_simpl :=
  cbn [player1 player2 player1CommitHash player2CommitHash player1Choice
       player2Choice betAmount commitDeadline revealDeadline result
       player1Revealed player2Revealed isCompleted fundsDistributed randomSeed
       set_player2 set_player1CommitHash set_player2CommitHash
       set_player1Choice set_player2Choice set_commitDeadline
       set_revealDeadline set_result set_player1Revealed set_player2Revealed
       set_isCompleted set_fundsDistributed set_randomSeed] in *.

Ltac balance_solve :=
  proj_simpl; storage_simpl; rewrite ?balance_set_playerBalances_insert; storage_simpl;
  unfold credited; repeat case_decide; subst; try congruence; try lia;
  try solve [ match goal with
              | H : _ = _ |- _ => first [rewrite H | rewrite <- H]; lia
              end ].

(** * What a successful call has done

    One lemma per function: the guards it passed, the game it wrote, and the
    balances it moved. *)

Section Effects.
Variable commit_hash : Choice -> uint256 -> address -> bytes32.
Variable seed_hash :
  uint256 -> uint256 -> address -> address -> bytes32 -> bytes32 -> uint256 -> uint256.

Lemma commitChoice_effect sender blk gameId commitHash s s' :
  commitChoice seed_hash sender blk gameId commitHash s = Ok s' ->
  let g := game s gameId in
  player1 g <> 0 /\ player2 g <> 0 /\ timestamp blk <= commitDeadline g /\
  commitHash <> 0 /\
  only_game_changed gameId s s' /\ same_balances s s' /\
  exists g1 : Game,
    ((sender = player1 g /\ player1CommitHash g = 0 /\
      g1 = set_player1CommitHash commitHash g) \/
     (sender <> player1 g /\ sender = player2 g /\ player2CommitHash g = 0 /\
      g1 = set_player2CommitHash commitHash g)) /\
    ((player1CommitHash g1 <> 0 /\ player2CommitHash g1 <> 0 /\
      timestamp blk + REVEAL_DURATION <= MAX_UINT256 /\
      exists seed, game s' gameId =
        set_randomSeed seed (set_revealDeadline (timestamp blk + REVEAL_DURATION) g1)) \/
     ((player1CommitHash g1 = 0 \/ player2CommitHash g1 = 0) /\
      game s' gameId = g1)).
Proof.
  intros H g. unfold commitChoice, _generateRandomSeed in H.
  ok_inv; subst; autorewrite with storage in *; bool_prop; subst g;
    (split; [assumption|]); (split; [assumption|]); (split; [assumption|]);
    (split; [assumption|]); (split; [frame_solve|]);
    (split; [intros a; autorewrite with storage; reflexivity|]);
    eexists; (split; [first [solve [left; auto] | solve [right; auto]]|]);
    first [ solve [left; repeat split; auto; eexists; reflexivity]
          | right; split; [|reflexivity] ];
    match goal with H : _ \/ _ |- _ => destruct H; bool_prop; auto end.
Qed.

Lemma createGame_effect sender value s s' :
  createGame sender value s = Ok s' ->
  entered s = false /\ MIN_BET_AMOUNT <= value /\ value <= MAX_BET_AMOUNT /\
  nextGameId s' = nextGameId s + 1 /\ entered s' = false /\
  game s' (nextGameId s) =
    mkGame sender 0 0 0 CNone CNone value 0 0 Pending false false false false 0 /\
  (forall gameId, gameId <> nextGameId s -> game s' gameId = game s gameId) /\
  same_balances s s'.
Proof.
  intros H. unfold createGame, nonReentrant in H.
  ok_inv; subst; bool_prop. cbn [nextGameId set_entered] in *.
  repeat split; try assumption.
  - unfold game; cbn. rewrite lookup_insert_eq. reflexivity.
  - intros gameId Hne. unfold game; cbn. rewrite lookup_insert_ne by congruence. reflexivity.
Qed.

Lemma joinGame_effect sender value blk gameId s s' :
  joinGame sender value blk gameId s = Ok s' ->
  entered s = false /\ player1 (game s gameId) <> 0 /\ player2 (game s gameId) = 0 /\
  sender <> player1 (game s gameId) /\ value = betAmount (game s gameId) /\
  timestamp blk + COMMIT_DURATION <= MAX_UINT256 /\
  only_game_changed gameId s s' /\ same_balances s s' /\
  game s' gameId =
    set_commitDeadline (timestamp blk + COMMIT_DURATION) (set_player2 sender (game s gameId)).
Proof.
  intros H. unfold joinGame, nonReentrant in H.
  ok_inv; subst; autorewrite with storage in *; bool_prop.
  repeat split; try assumption; intros; storage_simpl; try reflexivity.
  cbn. congruence.
Qed.

Lemma _distributeFunds_effect gameId s s' :
  _distributeFunds gameId s = Ok s' ->
  fundsDistributed (game s gameId) = false /\
  betAmount (game s gameId) * 2 <= MAX_UINT256 /\
  only_game_changed gameId s s' /\
  game s' gameId = set_fundsDistributed true (game s gameId) /\
  forall a, balance s' a =
            balance s a + payout (result (game s gameId)) (game s gameId) a.
Proof.
  intros H. unfold _distributeFunds in H.
  ok_inv; subst; bool_prop; credit_inv;
    (split; [assumption|]); (split; [assumption|]);
    (split; [frame_solve|]); (split; [storage_simpl; reflexivity|]);
    intros x; storage_simpl; cbn [payout]; balance_solve.
Qed.

Lemma _determineWinner_effect gameId s s' :
  _determineWinner gameId s = Ok s' ->
  fundsDistributed (game s gameId) = false /\
  betAmount (game s gameId) * 2 <= MAX_UINT256 /\
  only_game_changed gameId s s' /\
  game s' gameId =
    set_fundsDistributed true (set_isCompleted true
      (set_result (decided (player1Choice (game s gameId)) (player2Choice (game s gameId)))
         (game s gameId))) /\
  forall a, balance s' a =
    balance s a +
    payout (decided (player1Choice (game s gameId)) (player2Choice (game s gameId)))
      (game s gameId) a.
Proof.
  intros H. unfold _determineWinner in H. unfold decided.
  destruct (bool_decide (player1Choice (game s gameId) = player2Choice (game s gameId)));
    [| destruct ((bool_decide (player1Choice (game s gameId) = Rock) &&
                  bool_decide (player2Choice (game s gameId) = Scissors))
                 || (bool_decide (player1Choice (game s gameId) = Paper) &&
                     bool_decide (player2Choice (game s gameId) = Rock))
                 || (bool_decide (player1Choice (game s gameId) = Scissors) &&
                     bool_decide (player2Choice (game s gameId) = Paper)))];
    ok_inv; subst;
    match goal with E : _distributeFunds _ _ = Ok _ |- _ =>
      apply _distributeFunds_effect in E;
      destruct E as (Hfd & Hmul & (Hfr & Hn & He) & Hg & Hb) end;
    autorewrite with storage in *;
    (split; [exact Hfd|]); (split; [exact Hmul|]);
    (split; [repeat split; intros;
             [storage_simpl; rewrite Hfr by assumption; storage_simpl; reflexivity
             | cbn; rewrite Hn; reflexivity | cbn; rewrite He; reflexivity]|]);
    (split; [storage_simpl; rewrite Hg; reflexivity|]);
    intros x; storage_simpl; rewrite Hb; reflexivity.
Qed.

Lemma cancelGame_effect sender blk gameId s s' :
  cancelGame sender blk gameId s = Ok s' ->
  player1 (game s gameId) = sender /\ player2 (game s gameId) = 0 /\
  commitDeadline (game s gameId) + ONE_HOUR < timestamp blk /\
  only_game_changed gameId s s' /\
  game s' gameId = set_result Expired (set_isCompleted true (game s gameId)) /\
  (forall a, balance s' a =
     balance s a + credited a (player1 (game s gameId)) (betAmount (game s gameId))) /\
  commitDeadline (game s gameId) + ONE_HOUR <= MAX_UINT256.
Proof.
  intros H. unfold cancelGame in H.
  ok_inv; subst; bool_prop; credit_inv.
  repeat split; try assumption; intros; storage_simpl; try reflexivity.
  balance_solve.
Qed.

Lemma handleExpiredGame_effect blk gameId s s' :
  handleExpiredGame blk gameId s = Ok s' ->
  0 < revealDeadline (game s gameId) /\
  revealDeadline (game s gameId) < timestamp blk /\
  isCompleted (game s gameId) = false /\
  only_game_changed gameId s s' /\
  game s' gameId =
    set_fundsDistributed true (set_isCompleted true
      (set_result (swept (game s gameId)) (game s gameId))) /\
  forall a, balance s' a = balance s a + sweep_payout (game s gameId) a.
Proof.
  intros H. unfold handleExpiredGame in H. unfold sweep_payout, swept.
  ok_inv; subst; autorewrite with storage in *; credit_inv;
    autorewrite with storage in *;
    repeat match goal with
    | Hc : (_ && _) = _ |- _ => rewrite Hc
    end;
    bool_prop;
    (repeat split; try assumption; intros; storage_simpl; try reflexivity);
    balance_solve.
Qed.

Lemma revealChoice_effect sender blk gameId choice nonce s s' :
  revealChoice commit_hash sender blk gameId choice nonce s = Ok s' ->
  0 < revealDeadline (game s gameId) /\
  timestamp blk <= revealDeadline (game s gameId) /\
  choice <> CNone /\
  only_game_changed gameId s s' /\
  exists g1 : Game,
    ((sender = player1 (game s gameId) /\
      player1CommitHash (game s gameId) = commit_hash choice nonce sender /\
      player1Revealed (game s gameId) = false /\
      g1 = set_player1Revealed true (set_player1Choice choice (game s gameId))) \/
     (sender <> player1 (game s gameId) /\ sender = player2 (game s gameId) /\
      player2CommitHash (game s gameId) = commit_hash choice nonce sender /\
      player2Revealed (game s gameId) = false /\
      g1 = set_player2Revealed true (set_player2Choice choice (game s gameId)))) /\
    ((player1Revealed g1 = true /\ player2Revealed g1 = true /\
      fundsDistributed g1 = false /\ betAmount g1 * 2 <= MAX_UINT256 /\
      game s' gameId =
        set_fundsDistributed true (set_isCompleted true
          (set_result (decided (player1Choice g1) (player2Choice g1)) g1)) /\
      forall a, balance s' a =
        balance s a + payout (decided (player1Choice g1) (player2Choice g1)) g1 a) \/
     ((player1Revealed g1 = false \/ player2Revealed g1 = false) /\
      game s' gameId = g1 /\ same_balances s s')).
Proof.
  intros H. unfold revealChoice in H.
  ok_inv; subst;
    try match goal with E : _determineWinner _ _ = Ok _ |- _ =>
      apply _determineWinner_effect in E;
      destruct E as (Hfd & Hmul & (Hfr & Hn & He) & Hg & Hb) end;
    autorewrite with storage in *; bool_prop;
    (split; [assumption|]); (split; [assumption|]); (split; [assumption|]);
    (split;
     [ first
         [ solve [ repeat split; intros;
                   [ rewrite Hfr by assumption; storage_simpl; reflexivity
                   | rewrite Hn; reflexivity | rewrite He; reflexivity ] ]
         | solve [ frame_solve ] ] |]);
    eexists; (split; [first [solve [left; auto] | solve [right; auto]]|]);
    first
      [ left; (repeat split; try assumption);
        intros x; rewrite Hb; storage_simpl; reflexivity
      | right; split;
        [ match goal with Hc : _ \/ _ |- _ => exact Hc end
        | split; [reflexivity | intros x; storage_simpl; reflexivity] ] ].
Qed.
End Effects.

(** * Executions preserve what every function preserves *)

Lemma withdrawBalance_effect sender call s s' :
  withdrawBalance sender call s = Ok s' ->
  entered s = false /\ 0 < balance s sender /\
  exists s2,
    call sender (balance s sender) (at_transfer sender s) = (true, s2) /\
    s' = set_entered false (emit (FundsWithdrawn sender (balance s sender)) s2).
Proof.
  intros H. unfold withdrawBalance, nonReentrant in H.
  destruct (entered s) eqn:He; [discriminate|].
  change (balance (set_entered true s) sender) with (balance s sender) in H.
  destruct (0 <? balance s sender) eqn:Hb; cbn [bind require] in H; [|discriminate].
  change (set_playerBalances (<[sender:=0]> (playerBalances (set_entered true s)))
            (set_entered true s)) with (at_transfer sender s) in H.
  destruct (call sender (balance s sender) (at_transfer sender s)) as [ok s2] eqn:Hc.
  destruct ok; cbn [bind require] in H; [|discriminate].
  injection H as <-. bool_prop. eauto.
Qed.

Lemma external_call_true code to amount s s2 :
  external_call code to amount s = (true, s2) ->
  exists s1, code s = (true, s1) /\ s2 = record_sent to amount s1.
Proof.
  unfold external_call. destruct (code s) as [[] s1]; intros [= <-]; eauto.
Qed.

Section Preservation.

Variable commit_hash : Choice -> uint256 -> address -> bytes32.
Variable seed_hash :
  uint256 -> uint256 -> address -> address -> bytes32 -> bytes32 -> uint256 -> uint256.
Variable blk : Block.
Variable I : State -> Prop.

Hypothesis I_storage : forall s s',
  (forall gameId, game s' gameId = game s gameId) ->
  nextGameId s' = nextGameId s -> I s -> I s'.
Hypothesis I_createGame : forall sender value s s',
  createGame sender value s = Ok s' -> I s -> I s'.
Hypothesis I_joinGame : forall sender value gameId s s',
  joinGame sender value blk gameId s = Ok s' -> I s -> I s'.
Hypothesis I_commitChoice : forall sender gameId commitHash s s',
  commitChoice seed_hash sender blk gameId commitHash s = Ok s' -> I s -> I s'.
Hypothesis I_revealChoice : forall sender gameId choice nonce s s',
  revealChoice commit_hash sender blk gameId choice nonce s = Ok s' -> I s -> I s'.
Hypothesis I_handleExpiredGame : forall gameId s s',
  handleExpiredGame blk gameId s = Ok s' -> I s -> I s'.
Hypothesis I_cancelGame : forall sender gameId s s',
  cancelGame sender blk gameId s = Ok s' -> I s -> I s'.

Lemma run_Finish success s :
  run commit_hash seed_hash (Finish success) blk s = (success, s).
Proof. reflexivity. Qed.

Lemma run_Observe k s :
  run commit_hash seed_hash (Observe k) blk s = run commit_hash seed_hash (k s) blk s.
Proof. reflexivity. Qed.

Lemma run_Reenter caller c k s :
  run commit_hash seed_hash (Reenter caller c k) blk s =
  run commit_hash seed_hash (k (exec commit_hash seed_hash c caller blk s)) blk
    (after (exec commit_hash seed_hash c caller blk s) s).
Proof. reflexivity. Qed.

Lemma exec_WithdrawBalance recipient sender s :
  exec commit_hash seed_hash (WithdrawBalance recipient) sender blk s =
  withdrawBalance sender (external_call (run commit_hash seed_hash recipient blk)) s.
Proof. reflexivity. Qed.

Lemma exec_run_preserve :
  (forall c sender s s',
     exec commit_hash seed_hash c sender blk s = Ok s' -> I s -> I s') /\
  (forall r s ok s',
     run commit_hash seed_hash r blk s = (ok, s') -> I s -> I s').
Proof.
  assert (Hmut : forall c,
    forall sender s s', exec commit_hash seed_hash c sender blk s = Ok s' -> I s -> I s').
  { induction c using Call_Callee_ind with
      (P0 := fun r => forall s ok s',
               run commit_hash seed_hash r blk s = (ok, s') -> I s -> I s').
    - intros ? ? ? H; cbn in H; eauto.
    - intros ? ? ? H; cbn in H; eauto.
    - intros ? ? ? H; cbn in H; eauto.
    - intros ? ? ? H; cbn in H; eauto.
    - intros ? ? ? H; cbn in H; eauto.
    - intros sender s s' H Hs. rewrite exec_WithdrawBalance in H.
      apply withdrawBalance_effect in H as (_ & _ & s2 & Hc & ->).
      apply external_call_true in Hc as (s1 & Hc & ->).
      eapply I_storage with (s := s1); [reflexivity | reflexivity |].
      eapply IHc; [exact Hc|].
      eapply I_storage; [| | exact Hs]; reflexivity.
    - intros ? ? ? H; cbn in H; eauto.
    - intros s ok s' H Hs. rewrite run_Finish in H. injection H as _ <-. exact Hs.
    - intros s ok s' H0 Hs. rewrite run_Observe in H0. eauto.
    - intros s ok s' H0 Hs. rewrite run_Reenter in H0.
      eapply H; [exact H0|].
      destruct (exec commit_hash seed_hash c caller blk s) eqn:E; cbn [after]; eauto. }
  split; [exact Hmut|].
  induction r; intros s ok s' Hr Hs.
  - rewrite run_Finish in Hr. injection Hr as _ <-. exact Hs.
  - rewrite run_Observe in Hr. eauto.
  - rewrite run_Reenter in Hr. eapply H; [exact Hr|].
    destruct (exec commit_hash seed_hash c caller blk s) eqn:E; cbn [after]; eauto.
Qed.

End Preservation.

(** * The invariant holds in every reachable world *)

Ltac game_inv_tac Hinv :=
  destruct Hinv as [Hbet Hpl Hun Hrp Hr1 Hr2 Hd Hb];
  constructor; proj_simpl;
  try solve [intuition (try lia; try congruence; try discriminate)].

Lemma game_inv_zero now : game_inv now zero_game.
Proof. constructor; cbn; intuition (try lia; try congruence; try discriminate). Qed.

Section StateInv.

Variable commit_hash : Choice -> uint256 -> address -> bytes32.
Variable seed_hash :
  uint256 -> uint256 -> address -> address -> bytes32 -> bytes32 -> uint256 -> uint256.
Variable blk : Block.

Lemma createGame_state_inv sender value s s' :
  createGame sender value s = Ok s' ->
  state_inv (timestamp blk) s -> state_inv (timestamp blk) s'.
Proof.
  intros H [[Hone Hfresh] Hinv].
  apply createGame_effect in H as (_ & _ & Hmax & Hn & _ & Hg & Hfr & _).
  split; [split|].
  - lia.
  - intros gameId Hge. rewrite Hfr by lia. apply Hfresh. lia.
  - intros gameId. destruct (decide (gameId = nextGameId s)) as [->|Hne].
    + rewrite Hg. constructor; cbn; intuition (try lia; try congruence; try discriminate).
    + rewrite Hfr by assumption. apply Hinv.
Qed.

Lemma joinGame_state_inv sender value gameId s s' :
  joinGame sender value blk gameId s = Ok s' ->
  state_inv (timestamp blk) s -> state_inv (timestamp blk) s'.
Proof.
  intros H [[Hone Hfresh] Hinv].
  apply joinGame_effect in H
    as (_ & Hp1 & Hp2 & Hs & Hv & Hadd & (Hfr & Hn & _) & _ & Hg).
  split; [split|].
  - lia.
  - intros gameId' Hge. destruct (decide (gameId' = gameId)) as [->|Hne].
    + rewrite Hg. proj_simpl. apply Hfresh. lia.
    + rewrite Hfr by assumption. apply Hfresh. lia.
  - intros gameId'. destruct (decide (gameId' = gameId)) as [->|Hne].
    + rewrite Hg. specialize (Hinv gameId). game_inv_tac Hinv.
    + rewrite Hfr by assumption. apply Hinv.
Qed.


Lemma state_inv_update now gameId s s' :
  state_inv now s ->
  only_game_changed gameId s s' ->
  player1 (game s' gameId) = player1 (game s gameId) ->
  game_inv now (game s' gameId) ->
  state_inv now s'.
Proof.
  intros [[Hone Hfresh] Hinv] (Hfr & Hn & _) Hp1 Hg.
  split; [split|].
  - lia.
  - intros gameId' Hge. destruct (decide (gameId' = gameId)) as [->|Hne].
    + rewrite Hp1. apply Hfresh. lia.
    + rewrite Hfr by assumption. apply Hfresh. lia.
  - intros gameId'. destruct (decide (gameId' = gameId)) as [->|Hne].
    + exact Hg.
    + rewrite Hfr by assumption. apply Hinv.
Qed.

Lemma commitChoice_state_inv sender gameId commitHash s s' :
  commitChoice seed_hash sender blk gameId commitHash s = Ok s' ->
  state_inv (timestamp blk) s -> state_inv (timestamp blk) s'.
Proof.
  intros H Hs. pose proof Hs as [_ Hinv]. specialize (Hinv gameId).
  apply commitChoice_effect in H
    as (Hp1 & Hp2 & Hdl & Hh & Hfr & _ & g1 & Hg1 & Hg').
  assert (REVEAL_DURATION = 300) by reflexivity.
  eapply state_inv_update; [exact Hs | exact Hfr | |];
    destruct Hg1 as [(? & ? & ->) | (? & ? & ? & ->)];
    destruct Hg' as [(? & ? & ? & seed & ->) | (? & ->)];
    proj_simpl; try reflexivity; game_inv_tac Hinv.
Qed.

Lemma revealChoice_state_inv sender gameId choice nonce s s' :
  revealChoice commit_hash sender blk gameId choice nonce s = Ok s' ->
  state_inv (timestamp blk) s -> state_inv (timestamp blk) s'.
Proof.
  intros H Hs. pose proof Hs as [_ Hinv]. specialize (Hinv gameId).
  apply revealChoice_effect in H
    as (Hrd & Hdl & Hc & Hfr & g1 & Hg1 & Hg').
  eapply state_inv_update; [exact Hs | exact Hfr | |];
    destruct Hg1 as [(? & ? & ? & ->) | (? & ? & ? & ? & ->)];
    destruct Hg' as [(? & ? & ? & ? & -> & _) | (? & -> & _)];
    proj_simpl; try reflexivity; game_inv_tac Hinv.
Qed.

Lemma handleExpiredGame_state_inv gameId s s' :
  handleExpiredGame blk gameId s = Ok s' ->
  state_inv (timestamp blk) s -> state_inv (timestamp blk) s'.
Proof.
  intros H Hs. pose proof Hs as [_ Hinv]. specialize (Hinv gameId).
  apply handleExpiredGame_effect in H as (Hrd & Hdl & Hc & Hfr & Hg & _).
  eapply state_inv_update; [exact Hs | exact Hfr | |];
    rewrite Hg; proj_simpl; try reflexivity; game_inv_tac Hinv.
Qed.

Lemma cancelGame_state_inv sender gameId s s' :
  cancelGame sender blk gameId s = Ok s' ->
  state_inv (timestamp blk) s -> state_inv (timestamp blk) s'.
Proof.
  intros H Hs. pose proof Hs as [_ Hinv]. specialize (Hinv gameId).
  apply cancelGame_effect in H as (Hp1 & Hp2 & Hdl & Hfr & Hg & _).
  eapply state_inv_update; [exact Hs | exact Hfr | |];
    rewrite Hg; proj_simpl; try reflexivity; game_inv_tac Hinv.
Qed.

End StateInv.

(** * Games only move forward *)

Lemma game_le_refl g : game_le g g.
Proof. constructor; auto. Qed.

Lemma game_le_trans g1 g2 g3 : game_le g1 g2 -> game_le g2 g3 -> game_le g1 g3.
Proof.
  intros [A1 A2 A3 A4 A5 A6 A7 A8 A9 A10] [B1 B2 B3 B4 B5 B6 B7 B8 B9 B10].
  constructor; try congruence.
  - intros H. destruct (A3 H) as [E1 E2]. rewrite <- E1 in H.
    destruct (B3 H). split; congruence.
  - intros H. specialize (A4 H). rewrite <- A4 in H. specialize (B4 H). congruence.
  - intros H. specialize (A5 H). rewrite <- A5 in H. specialize (B5 H). congruence.
  - intros H. specialize (A6 H). rewrite <- A6 in H. specialize (B6 H). congruence.
  - intros H. destruct (A7 H) as [E1 E2]. destruct (B7 E1). split; congruence.
  - intros H. destruct (A8 H) as [E1 E2]. destruct (B8 E1). split; congruence.
  - auto.
  - intros H. destruct (A10 H) as [E1 E2]. destruct (B10 E1). split; congruence.
Qed.

Lemma game_inv_mono now now' g : now <= now' -> game_inv now g -> game_inv now' g.
Proof.
  intros Hle Hinv. destruct Hinv as [Hbet Hpl Hun Hrp Hr1 Hr2 Hd Hb].
  constructor; try assumption.
  intros H. destruct (Hd H) as (? & ? & [?|?]); repeat split; auto. right. lia.
Qed.

Lemma state_inv_mono now now' s : now <= now' -> state_inv now s -> state_inv now' s.
Proof. intros Hle [Hf Hinv]. split; [exact Hf|]. eauto using game_inv_mono. Qed.

Lemma state_inv_storage now s s' :
  (forall gameId, game s' gameId = game s gameId) ->
  nextGameId s' = nextGameId s -> state_inv now s -> state_inv now s'.
Proof.
  intros Hg Hn [[Hone Hfresh] Hinv]. split; [split|].
  - lia.
  - intros gameId Hge. rewrite Hg. apply Hfresh. lia.
  - intros gameId. rewrite Hg. apply Hinv.
Qed.

Lemma state_inv_initial now : state_inv now initial_state.
Proof.
  split; [split|].
  - cbn. lia.
  - reflexivity.
  - intros gameId. apply game_inv_zero.
Qed.

Ltac game_le_tac Hinv :=
  destruct Hinv as [Hbet Hpl Hun Hrp Hr1 Hr2 Hd Hb];
  constructor; proj_simpl;
  try solve [intuition (try lia; try congruence; try discriminate)].

Section Monotone.

Variable commit_hash : Choice -> uint256 -> address -> bytes32.
Variable seed_hash :
  uint256 -> uint256 -> address -> address -> bytes32 -> bytes32 -> uint256 -> uint256.
Variable blk : Block.

Lemma game_le_other gameId gameId' s s' :
  only_game_changed gameId' s s' ->
  game_le (game s gameId') (game s' gameId') ->
  game_le (game s gameId) (game s' gameId).
Proof.
  intros (Hfr & _) Hle. destruct (decide (gameId = gameId')) as [->|Hne].
  - exact Hle.
  - rewrite Hfr by assumption. apply game_le_refl.
Qed.

Lemma createGame_game_le sender value gameId s s' :
  createGame sender value s = Ok s' ->
  state_inv (timestamp blk) s -> player1 (game s gameId) <> 0 ->
  game_le (game s gameId) (game s' gameId).
Proof.
  intros H [[Hone Hfresh] _] Hp1.
  apply createGame_effect in H as (_ & _ & _ & _ & _ & _ & Hfr & _).
  rewrite Hfr; [apply game_le_refl|].
  intros ->. apply Hp1, Hfresh. lia.
Qed.

Lemma joinGame_game_le sender value gameId' gameId s s' :
  joinGame sender value blk gameId' s = Ok s' ->
  state_inv (timestamp blk) s ->
  game_le (game s gameId) (game s' gameId).
Proof.
  intros H [_ Hinv]. specialize (Hinv gameId').
  apply joinGame_effect in H as (_ & Hp1 & Hp2 & Hs & Hv & Hadd & Hfr & _ & Hg).
  apply (game_le_other _ _ _ _ Hfr). rewrite Hg. game_le_tac Hinv.
Qed.

Lemma commitChoice_game_le sender gameId' commitHash gameId s s' :
  commitChoice seed_hash sender blk gameId' commitHash s = Ok s' ->
  state_inv (timestamp blk) s ->
  game_le (game s gameId) (game s' gameId).
Proof.
  intros H [_ Hinv]. specialize (Hinv gameId').
  apply commitChoice_effect in H
    as (Hp1 & Hp2 & Hdl & Hh & Hfr & _ & g1 & Hg1 & Hg').
  apply (game_le_other _ _ _ _ Hfr).
  destruct Hg1 as [(? & ? & ->) | (? & ? & ? & ->)];
    destruct Hg' as [(? & ? & ? & seed & ->) | (? & ->)];
    proj_simpl; game_le_tac Hinv.
Qed.

Lemma revealChoice_game_le sender gameId' choice nonce gameId s s' :
  revealChoice commit_hash sender blk gameId' choice nonce s = Ok s' ->
  state_inv (timestamp blk) s ->
  game_le (game s gameId) (game s' gameId).
Proof.
  intros H [_ Hinv]. specialize (Hinv gameId').
  apply revealChoice_effect in H
    as (Hrd & Hdl & Hc & Hfr & g1 & Hg1 & Hg').
  apply (game_le_other _ _ _ _ Hfr).
  destruct Hg1 as [(? & ? & ? & ->) | (? & ? & ? & ? & ->)];
    destruct Hg' as [(? & ? & ? & ? & -> & _) | (? & -> & _)];
    proj_simpl; game_le_tac Hinv.
Qed.

Lemma handleExpiredGame_game_le gameId' gameId s s' :
  handleExpiredGame blk gameId' s = Ok s' ->
  state_inv (timestamp blk) s ->
  game_le (game s gameId) (game s' gameId).
Proof.
  intros H [_ Hinv]. specialize (Hinv gameId').
  apply handleExpiredGame_effect in H as (Hrd & Hdl & Hc & Hfr & Hg & _).
  apply (game_le_other _ _ _ _ Hfr). rewrite Hg. game_le_tac Hinv.
Qed.

Lemma cancelGame_game_le sender gameId' gameId s s' :
  cancelGame sender blk gameId' s = Ok s' ->
  state_inv (timestamp blk) s ->
  game_le (game s gameId) (game s' gameId).
Proof.
  intros H [_ Hinv]. specialize (Hinv gameId').
  apply cancelGame_effect in H as (Hp1 & Hp2 & Hdl & Hfr & Hg & _).
  apply (game_le_other _ _ _ _ Hfr). rewrite Hg. game_le_tac Hinv.
Qed.

End Monotone.

(** * Stability along executions *)

Section Stability.

Variable commit_hash : Choice -> uint256 -> address -> bytes32.
Variable seed_hash :
  uint256 -> uint256 -> address -> address -> bytes32 -> bytes32 -> uint256 -> uint256.
Variable I : uint256 -> State -> Prop.

Hypothesis I_mono : forall now now' s, now <= now' -> I now s -> I now' s.
Hypothesis I_storage : forall now s s',
  (forall gameId, game s' gameId = game s gameId) ->
  nextGameId s' = nextGameId s -> I now s -> I now s'.
Hypothesis I_createGame : forall blk sender value s s',
  createGame sender value s = Ok s' -> I (timestamp blk) s -> I (timestamp blk) s'.
Hypothesis I_joinGame : forall blk sender value gameId s s',
  joinGame sender value blk gameId s = Ok s' -> I (timestamp blk) s -> I (timestamp blk) s'.
Hypothesis I_commitChoice : forall blk sender gameId commitHash s s',
  commitChoice seed_hash sender blk gameId commitHash s = Ok s' ->
  I (timestamp blk) s -> I (timestamp blk) s'.
Hypothesis I_revealChoice : forall blk sender gameId choice nonce s s',
  revealChoice commit_hash sender blk gameId choice nonce s = Ok s' ->
  I (timestamp blk) s -> I (timestamp blk) s'.
Hypothesis I_handleExpiredGame : forall blk gameId s s',
  handleExpiredGame blk gameId s = Ok s' -> I (timestamp blk) s -> I (timestamp blk) s'.
Hypothesis I_cancelGame : forall blk sender gameId s s',
  cancelGame sender blk gameId s = Ok s' -> I (timestamp blk) s -> I (timestamp blk) s'.

Lemma exec_stable c sender blk s s' :
  exec commit_hash seed_hash c sender blk s = Ok s' ->
  I (timestamp blk) s -> I (timestamp blk) s'.
Proof.
  apply (exec_run_preserve commit_hash seed_hash blk (I (timestamp blk))); eauto.
Qed.

Lemma step_stable w w' :
  step commit_hash seed_hash w w' ->
  I (timestamp (block w)) (storage w) -> I (timestamp (block w')) (storage w').
Proof.
  intros [w0 sender c s' Hc | w0 blk Hle]; cbn [storage block].
  - eauto using exec_stable.
  - eauto.
Qed.

Lemma steps_stable w w' :
  steps commit_hash seed_hash w w' ->
  I (timestamp (block w)) (storage w) -> I (timestamp (block w')) (storage w').
Proof. induction 1; eauto using step_stable. Qed.

End Stability.

Section Reachability.

Variable commit_hash : Choice -> uint256 -> address -> bytes32.
Variable seed_hash :
  uint256 -> uint256 -> address -> address -> bytes32 -> bytes32 -> uint256 -> uint256.

Lemma steps_state_inv w w' :
  steps commit_hash seed_hash w w' ->
  state_inv (timestamp (block w)) (storage w) ->
  state_inv (timestamp (block w')) (storage w').
Proof.
  apply (steps_stable commit_hash seed_hash state_inv).
  - exact state_inv_mono.
  - exact state_inv_storage.
  - intros; eapply createGame_state_inv; eauto.
  - intros; eapply joinGame_state_inv; eauto.
  - intros; eapply commitChoice_state_inv; eauto.
  - intros; eapply revealChoice_state_inv; eauto.
  - intros; eapply handleExpiredGame_state_inv; eauto.
  - intros; eapply cancelGame_state_inv; eauto.
Qed.

Lemma reachable_steps w :
  reachable commit_hash seed_hash w <->
  exists blk, steps commit_hash seed_hash (mkWorld initial_state blk) w.
Proof.
  split.
  - induction 1 as [blk | w w' _ [blk IH] Hstep].
    + exists blk. constructor.
    + exists blk. econstructor; eauto.
  - intros [blk H]. remember (mkWorld initial_state blk) as w0 eqn:E.
    induction H; subst.
    + constructor.
    + econstructor; eauto.
Qed.

Lemma reachable_state_inv w :
  reachable commit_hash seed_hash w ->
  state_inv (timestamp (block w)) (storage w).
Proof.
  intros H. apply reachable_steps in H as [blk H].
  apply steps_state_inv in H; [exact H|]. apply state_inv_initial.
Qed.

Lemma steps_reachable w w' :
  reachable commit_hash seed_hash w -> steps commit_hash seed_hash w w' ->
  reachable commit_hash seed_hash w'.
Proof.
  intros Hr H. induction H as [| w w' w'' _ IH Hstep]; [exact Hr|].
  eapply reachable_step; [exact (IH Hr) | exact Hstep].
Qed.

(** Along any execution a game that has a creator only moves up in
    [game_le]. *)
Lemma steps_game_le w w' gameId :
  state_inv (timestamp (block w)) (storage w) ->
  steps commit_hash seed_hash w w' ->
  player1 (game (storage w) gameId) <> 0 ->
  game_le (game (storage w) gameId) (game (storage w') gameId).
Proof.
  intros Hinv Hsteps Hp1.
  set (g0 := game (storage w) gameId) in *.
  enough (state_inv (timestamp (block w')) (storage w') /\
          game_le g0 (game (storage w') gameId)) as [_ H] by exact H.
  apply (steps_stable commit_hash seed_hash
           (fun now s => state_inv now s /\ game_le g0 (game s gameId)))
    with (w := w); [ | | | | | | | | exact Hsteps | ].
  - intros now now' s Hle [? ?]. eauto using state_inv_mono.
  - intros now s s' Hg Hn [? ?]. split; [eauto using state_inv_storage|].
    rewrite Hg. assumption.
  - intros blk sender value s s' H [Hs Hle]. split.
    + eapply createGame_state_inv; eauto.
    + eapply game_le_trans; [exact Hle|].
      eapply createGame_game_le; eauto. rewrite (le_player1 _ _ Hle). exact Hp1.
  - intros blk sender value gameId' s s' H [Hs Hle]. split.
    + eapply joinGame_state_inv; eauto.
    + eapply game_le_trans; [exact Hle|]. eapply joinGame_game_le; eauto.
  - intros blk sender gameId' commitHash s s' H [Hs Hle]. split.
    + eapply commitChoice_state_inv; eauto.
    + eapply game_le_trans; [exact Hle|]. eapply commitChoice_game_le; eauto.
  - intros blk sender gameId' choice nonce s s' H [Hs Hle]. split.
    + eapply revealChoice_state_inv; eauto.
    + eapply game_le_trans; [exact Hle|]. eapply revealChoice_game_le; eauto.
  - intros blk gameId' s s' H [Hs Hle]. split.
    + eapply handleExpiredGame_state_inv; eauto.
    + eapply game_le_trans; [exact Hle|]. eapply handleExpiredGame_game_le; eauto.
  - intros blk sender gameId' s s' H [Hs Hle]. split.
    + eapply cancelGame_state_inv; eauto.
    + eapply game_le_trans; [exact Hle|]. eapply cancelGame_game_le; eauto.
  - split; [exact Hinv | apply game_le_refl].
Qed.

End Reachability.

(** * Calls that succeed *)

Lemma MAX_BET_AMOUNT_fits : MAX_BET_AMOUNT * 2 <= MAX_UINT256.
Proof. apply N.leb_le. vm_compute. reflexivity. Qed.

Ltac bool_goal :=
  repeat match goal with
  | |- _ && _ = true => apply andb_true_iff; split
  | |- negb _ = true => apply negb_true_iff
  | |- negb _ = false => apply negb_false_iff
  | |- (_ =? _) = true => apply N.eqb_eq
  | |- (_ =? _) = false => apply N.eqb_neq
  | |- (_ <=? _) = true => apply N.leb_le
  | |- (_ <=? _) = false => apply N.leb_gt
  | |- (_ <? _) = true => apply N.ltb_lt
  | |- (_ <? _) = false => apply N.ltb_ge
  | |- bool_decide _ = true => apply bool_decide_eq_true
  | |- bool_decide _ = false => apply bool_decide_eq_false
  end; proj_simpl; try assumption; try lia; try congruence.

(** Evaluate the next guard of a call whose outcome the hypotheses decide. *)
Ltac pass :=
  match goal with
  | |- context [bind (require ?b ?e) _] =>
      let E := fresh "E" in
      assert (E : b = true) by bool_goal; rewrite E; clear E; cbn [require bind]
  | |- context [bind (checked_add ?a ?b) _] =>
      let E := fresh "E" in
      assert (E : checked_add a b = Ok (a + b))
        by (apply checked_add_ok; split; [reflexivity | proj_simpl; lia]);
      rewrite E; clear E; cbn [bind]
  | |- context [bind (checked_mul ?a ?b) _] =>
      let E := fresh "E" in
      assert (E : checked_mul a b = Ok (a * b))
        by (apply checked_mul_ok; split; [reflexivity | proj_simpl; lia]);
      rewrite E; clear E; cbn [bind]
  | |- context [credit ?a ?b ?s] =>
      let E := fresh "E" in
      assert (E : credit a b s =
                  Ok (set_playerBalances (<[a := balance s a + b]> (playerBalances s)) s))
        by (apply credit_ok; split; [|reflexivity];
            repeat progress
              (proj_simpl; storage_simpl; rewrite ?balance_set_playerBalances_insert);
            repeat case_decide; try lia;
            match goal with
            | H : _ = _ |- _ => first [rewrite H | rewrite <- H]; lia
            end);
      rewrite E; clear E; cbn [bind]
  end.

(** * The timeout sweep *)

Lemma joined_distinct now g :
  game_inv now g -> revealDeadline g <> 0 ->
  player1 g <> player2 g /\ player2 g <> 0 /\ player1 g <> 0.
Proof.
  intros [Hbet Hpl Hun Hrp Hr1 Hr2 Hd Hb] Hrd.
  assert (player2 g <> 0) by (intros E; destruct (Hun E); tauto).
  tauto.
Qed.

Section Sweep.

Variable commit_hash : Choice -> uint256 -> address -> bytes32.
Variable seed_hash :
  uint256 -> uint256 -> address -> address -> bytes32 -> bytes32 -> uint256 -> uint256.

Lemma handleExpiredGame_succeeds blk gameId s :
  game_inv (timestamp blk) (game s gameId) ->
  0 < revealDeadline (game s gameId) ->
  revealDeadline (game s gameId) < timestamp blk ->
  isCompleted (game s gameId) = false ->
  headroom s (game s gameId) ->
  exists s', handleExpiredGame blk gameId s = Ok s'.
Proof.
  intros Hinv Hrd Hdl Hc [Hh1 Hh2].
  pose proof MAX_BET_AMOUNT_fits. pose proof (inv_bet _ _ Hinv).
  unfold handleExpiredGame. pass. pass.
  destruct (player1Revealed (game s gameId) && negb (player2Revealed (game s gameId)));
    [| destruct (negb (player1Revealed (game s gameId)) && player2Revealed (game s gameId))];
    autorewrite with storage; repeat pass; autorewrite with storage; eauto.
Qed.




(** C7.  In a reachable world, take a game whose [revealDeadline] is set and
    has passed and which is not completed, with room in both balances for the
    pot.  Then [handleExpiredGame] succeeds and resolves it: if only player 1
    revealed, player 1 is credited twice the stake, player 2 nothing, and the
    result is [Player1Wins]; symmetrically for player 2; if neither revealed,
    each gets the own stake back and the result is [Expired].  In every case
    [isCompleted] and [fundsDistributed] are set, and no other account
    changes. *)
Theorem sweep_resolves (w : World) (gameId : uint256) :
  reachable commit_hash seed_hash w ->
  0 < revealDeadline (game (storage w) gameId) ->
  revealDeadline (game (storage w) gameId) < timestamp (block w) ->
  isCompleted (game (storage w) gameId) = false ->
  headroom (storage w) (game (storage w) gameId) ->
  exists s',
    handleExpiredGame (block w) gameId (storage w) = Ok s' /\
    resolved s' gameId /\
    (player1Revealed (game (storage w) gameId) = true ->
     player2Revealed (game (storage w) gameId) = false ->
     result (game s' gameId) = Player1Wins /\
     balance s' (player1 (game (storage w) gameId)) =
       balance (storage w) (player1 (game (storage w) gameId)) +
       2 * betAmount (game (storage w) gameId) /\
     balance s' (player2 (game (storage w) gameId)) =
       balance (storage w) (player2 (game (storage w) gameId))) /\
    (player1Revealed (game (storage w) gameId) = false ->
     player2Revealed (game (storage w) gameId) = true ->
     result (game s' gameId) = Player2Wins /\
     balance s' (player2 (game (storage w) gameId)) =
       balance (storage w) (player2 (game (storage w) gameId)) +
       2 * betAmount (game (storage w) gameId) /\
     balance s' (player1 (game (storage w) gameId)) =
       balance (storage w) (player1 (game (storage w) gameId))) /\
    (player1Revealed (game (storage w) gameId) = false ->
     player2Revealed (game (storage w) gameId) = false ->
     result (game s' gameId) = Expired /\
     balance s' (player1 (game (storage w) gameId)) =
       balance (storage w) (player1 (game (storage w) gameId)) +
       betAmount (game (storage w) gameId) /\
     balance s' (player2 (game (storage w) gameId)) =
       balance (storage w) (player2 (game (storage w) gameId)) +
       betAmount (game (storage w) gameId)) /\
    (forall a, a <> player1 (game (storage w) gameId) ->
               a <> player2 (game (storage w) gameId) ->
               balance s' a = balance (storage w) a).
Proof.
  intros Hreach Hrd Hdl Hc Hroom.
  destruct (reachable_state_inv _ _ _ Hreach) as [_ Hinv]. specialize (Hinv gameId).
  destruct (handleExpiredGame_succeeds (block w) gameId (storage w))
    as [s' Hs']; try assumption.
  exists s'. split; [exact Hs'|].
  apply handleExpiredGame_effect in Hs' as (_ & _ & _ & _ & Hg & Hb).
  destruct (joined_distinct _ _ Hinv) as (Hne & _); [lia|].
  unfold sweep_payout, swept, credited in Hb.
  split; [split; rewrite Hg; reflexivity|].
  repeat split; intros; rewrite ?Hg, ?Hb; proj_simpl; unfold swept;
    repeat match goal with Hf : _ = true |- _ => rewrite Hf | Hf : _ = false |- _ => rewrite Hf end;
    cbn [andb negb]; try reflexivity;
    repeat case_decide; try congruence; try lia;
    destruct (player1Revealed (game (storage w) gameId)),
             (player2Revealed (game (storage w) gameId));
    cbn [andb negb]; repeat case_decide; try congruence; lia.
Qed.

End Sweep.

(** * Reveal and resolution *)

Lemma decided_spec c1 c2 :
  c1 <> CNone -> c2 <> CNone -> spec_outcome c1 c2 = Some (decided c1 c2).
Proof. destruct c1, c2; intros; try congruence; reflexivity. Qed.

Section Reveal.

Variable commit_hash : Choice -> uint256 -> address -> bytes32.
Variable seed_hash :
  uint256 -> uint256 -> address -> address -> bytes32 -> bytes32 -> uint256 -> uint256.

Lemma _determineWinner_succeeds gameId s :
  fundsDistributed (game s gameId) = false ->
  betAmount (game s gameId) <= MAX_BET_AMOUNT ->
  headroom s (game s gameId) ->
  exists s', _determineWinner gameId s = Ok s'.
Proof.
  intros Hfd Hbet [Hh1 Hh2]. pose proof MAX_BET_AMOUNT_fits.
  unfold _determineWinner.
  destruct (bool_decide (player1Choice (game s gameId) = player2Choice (game s gameId)));
    [| destruct ((bool_decide (player1Choice (game s gameId) = Rock) &&
                  bool_decide (player2Choice (game s gameId) = Scissors))
                 || (bool_decide (player1Choice (game s gameId) = Paper) &&
                     bool_decide (player2Choice (game s gameId) = Rock))
                 || (bool_decide (player1Choice (game s gameId) = Scissors) &&
                     bool_decide (player2Choice (game s gameId) = Paper)))];
    unfold _distributeFunds; autorewrite with storage; proj_simpl;
    repeat pass; autorewrite with storage; proj_simpl; cbn [bind];
    repeat pass; eauto.
Qed.

Lemma revealChoice_succeeds sender blk gameId choice nonce s :
  game_inv (timestamp blk) (game s gameId) ->
  0 < revealDeadline (game s gameId) ->
  timestamp blk <= revealDeadline (game s gameId) ->
  choice <> CNone ->
  sender = player1 (game s gameId) \/ sender = player2 (game s gameId) ->
  commitment_of (game s gameId) sender = commit_hash choice nonce sender ->
  revealed (game s gameId) sender = false ->
  headroom s (game s gameId) ->
  exists s', revealChoice commit_hash sender blk gameId choice nonce s = Ok s'.
Proof.
  intros Hinv Hrd Hdl Hc Hp Hcommit Hrev Hroom.
  unfold commitment_of, revealed in *.
  pose proof (inv_bet _ _ Hinv) as Hbet.
  assert (Hfd : fundsDistributed (game s gameId) = false).
  { destruct (fundsDistributed (game s gameId)) eqn:E; [|reflexivity].
    destruct (inv_distributed _ _ Hinv E) as (_ & _ & [[H1 H2] | Hlt]); [|lia].
    destruct (sender =? player1 (game s gameId)); congruence. }
  unfold revealChoice. pass. pass. pass.
  destruct (sender =? player1 (game s gameId)) eqn:E1.
  - pass. pass. autorewrite with storage. proj_simpl. cbn [andb].
    destruct (player2Revealed (game s gameId)); [|eauto].
    apply _determineWinner_succeeds; autorewrite with storage; proj_simpl; assumption.
  - assert (E2 : (sender =? player2 (game s gameId)) = true)
      by (bool_prop; bool_goal; tauto).
    rewrite E2. pass. pass. autorewrite with storage. proj_simpl.
    rewrite andb_true_r.
    destruct (player1Revealed (game s gameId)); [|eauto].
    apply _determineWinner_succeeds; autorewrite with storage; proj_simpl; assumption.
Qed.




(** C6.  In a reachable world with the reveal phase open, let [sender] be the
    participant who has not revealed yet while [other] has, and let
    [(choice, nonce)] open [sender]'s commitment.  Then [revealChoice]
    succeeds, both players have revealed, and the game is resolved at once:
    the stored result is the one cyclic dominance gives for the two choices
    (Rock beats Scissors, Paper beats Rock, Scissors beats Paper, equal
    choices draw); on a win the winner is credited twice the stake and the
    loser nothing, on a draw each player is credited the own stake; nobody
    else's balance changes. *)
Theorem second_reveal_resolves (w : World) (sender other : address)
    (gameId : uint256) (choice : Choice) (nonce : uint256) :
  let s := storage w in
  let g := game (storage w) gameId in
  reachable commit_hash seed_hash w ->
  0 < revealDeadline g ->
  timestamp (block w) <= revealDeadline g ->
  choice <> CNone ->
  participants g sender other ->
  commitment_of g sender = commit_hash choice nonce sender ->
  revealed g sender = false ->
  revealed g other = true ->
  headroom s g ->
  exists s',
    revealChoice commit_hash sender (block w) gameId choice nonce s = Ok s' /\
    player1Revealed (game s' gameId) = true /\
    player2Revealed (game s' gameId) = true /\
    spec_outcome (player1Choice (game s' gameId)) (player2Choice (game s' gameId)) =
      Some (result (game s' gameId)) /\
    resolved s' gameId /\
    (result (game s' gameId) = Player1Wins ->
     balance s' (player1 g) = balance s (player1 g) + 2 * betAmount g /\
     balance s' (player2 g) = balance s (player2 g)) /\
    (result (game s' gameId) = Player2Wins ->
     balance s' (player2 g) = balance s (player2 g) + 2 * betAmount g /\
     balance s' (player1 g) = balance s (player1 g)) /\
    (result (game s' gameId) = Draw ->
     balance s' (player1 g) = balance s (player1 g) + betAmount g /\
     balance s' (player2 g) = balance s (player2 g) + betAmount g) /\
    (forall a, a <> player1 g -> a <> player2 g -> balance s' a = balance s a).
Proof.
  intros s g Hreach Hrd Hdl Hc Hp Hcommit Hrev Hother Hroom. subst s g.
  destruct (reachable_state_inv _ _ _ Hreach) as [_ Hinv]. specialize (Hinv gameId).
  destruct (joined_distinct _ _ Hinv) as (Hne & _); [lia|].
  destruct (revealChoice_succeeds sender (block w) gameId choice nonce (storage w))
    as [s' Hs']; try assumption.
  { destruct Hp as [[-> _] | [-> _]]; auto. }
  exists s'. split; [exact Hs'|].
  apply revealChoice_effect in Hs' as (_ & _ & _ & _ & g1 & Hg1 & Hg').
  unfold revealed, participants in *.
  assert (Hsame : player1 g1 = player1 (game (storage w) gameId) /\
                  player2 g1 = player2 (game (storage w) gameId) /\
                  betAmount g1 = betAmount (game (storage w) gameId) /\
                  player1Revealed g1 = true /\ player2Revealed g1 = true /\
                  player1Choice g1 <> CNone /\ player2Choice g1 <> CNone).
  { destruct Hinv as [Hbet Hpl Hun Hrp Hr1 Hr2 Hd Hb].
    destruct Hg1 as [(E & _ & Hr & ->) | (E1 & E & _ & Hr & ->)]; proj_simpl;
      destruct Hp as [[-> ->] | [-> ->]]; try congruence;
      repeat match goal with
      | H : context [?x =? ?x] |- _ => rewrite N.eqb_refl in H
      | H : context [?x =? ?y] |- _ =>
          let E := fresh in
          assert (E : (x =? y) = false) by (apply N.eqb_neq; congruence);
          rewrite E in H; clear E
      end; intuition congruence. }
  destruct Hsame as (Ep1 & Ep2 & Eb & Er1 & Er2 & Ec1 & Ec2).
  destruct Hg' as [(_ & _ & _ & _ & Hg & Hb) | ([? | ?] & _)]; try congruence.
  unfold resolved. rewrite !Hg. proj_simpl.
  split; [assumption|]. split; [assumption|].
  split; [apply decided_spec; assumption|].
  split; [split; reflexivity|].
  repeat split; intros; rewrite Hb; unfold payout, credited;
    rewrite ?Ep1, ?Ep2, ?Eb;
    match goal with
    | Hr : decided _ _ = _ |- _ => rewrite Hr
    | _ => destruct (decided (player1Choice g1) (player2Choice g1))
    end; repeat case_decide; try congruence; lia.
Qed.


(** C3.  In a reachable world, every resolution of a game conserves the pot:
    whether it is triggered by the reveal that completes the pair or by
    [handleExpiredGame] (forfeiture or mutual silence), the credits to
    player 1 and to player 2 add up to exactly twice the stake, and no other
    account is credited. *)
Theorem resolution_conserves_pot (w : World) (gameId : uint256) :
  reachable commit_hash seed_hash w ->
  (forall sender choice nonce s',
     revealChoice commit_hash sender (block w) gameId choice nonce (storage w) = Ok s' ->
     player1Revealed (game s' gameId) = true ->
     player2Revealed (game s' gameId) = true ->
     pot_conserved (storage w) s' (game (storage w) gameId)) /\
  (forall s',
     handleExpiredGame (block w) gameId (storage w) = Ok s' ->
     pot_conserved (storage w) s' (game (storage w) gameId)).
Proof.
  intros Hreach.
  destruct (reachable_state_inv _ _ _ Hreach) as [_ Hinv]. specialize (Hinv gameId).
  split.
  - intros sender choice nonce s' Hs' Hr1 Hr2.
    apply revealChoice_effect in Hs' as (Hrd & _ & _ & _ & g1 & Hg1 & Hg').
    destruct (joined_distinct _ _ Hinv) as (Hne & _); [lia|].
    assert (Hsame : player1 g1 = player1 (game (storage w) gameId) /\
                    player2 g1 = player2 (game (storage w) gameId) /\
                    betAmount g1 = betAmount (game (storage w) gameId)).
    { destruct Hg1 as [(_ & _ & _ & ->) | (_ & _ & _ & _ & ->)]; auto. }
    destruct Hsame as (Ep1 & Ep2 & Eb).
    destruct Hg' as [(_ & _ & _ & _ & _ & Hb) | (Hnot & Hg & _)].
    + exists (payout (decided (player1Choice g1) (player2Choice g1)) g1
                (player1 (game (storage w) gameId))),
             (payout (decided (player1Choice g1) (player2Choice g1)) g1
                (player2 (game (storage w) gameId))).
      split; [apply Hb|]. split; [apply Hb|].
      assert (Hd : decided (player1Choice g1) (player2Choice g1) = Draw \/
                   decided (player1Choice g1) (player2Choice g1) = Player1Wins \/
                   decided (player1Choice g1) (player2Choice g1) = Player2Wins).
      { unfold decided.
        repeat match goal with |- context [if ?b then _ else _] => destruct b end; auto. }
      split; [| intros a Ha1 Ha2; rewrite Hb];
        destruct Hd as [-> | [-> | ->]]; unfold payout, credited;
        rewrite ?Ep1, ?Ep2, ?Eb; repeat case_decide; try congruence; lia.
    + rewrite Hg in Hr1, Hr2. destruct Hnot; congruence.
  - intros s' Hs'.
    apply handleExpiredGame_effect in Hs' as (Hrd & _ & _ & _ & _ & Hb).
    destruct (joined_distinct _ _ Hinv) as (Hne & _); [lia|].
    exists (sweep_payout (game (storage w) gameId) (player1 (game (storage w) gameId))),
           (sweep_payout (game (storage w) gameId) (player2 (game (storage w) gameId))).
    split; [apply Hb|]. split; [apply Hb|].
    split; [| intros a Ha1 Ha2; rewrite Hb];
      unfold sweep_payout, credited;
      destruct (swept (game (storage w) gameId));
      repeat case_decide; try congruence; lia.
Qed.

End Reveal.

(** * Commitment binding *)

(** The errors resolution can end in: none of them is the reveal's own. *)
Lemma bind_revert {A B} (m : Result A) (k : A -> Result B) e :
  bind m k = Revert e -> m = Revert e \/ exists a, m = Ok a /\ k a = Revert e.
Proof. destruct m; cbn; intros H; [right; eauto | left; congruence]. Qed.

Lemma checked_add_error a b e : checked_add a b = Revert e -> e = PanicOverflow.
Proof. unfold checked_add. destruct (a + b <=? MAX_UINT256); congruence. Qed.

Lemma checked_mul_error a b e : checked_mul a b = Revert e -> e = PanicOverflow.
Proof. unfold checked_mul. destruct (a * b <=? MAX_UINT256); congruence. Qed.

Lemma credit_error a amount s e : credit a amount s = Revert e -> e = PanicOverflow.
Proof.
  unfold credit. intros H. apply bind_revert in H as [H | (b & _ & H)].
  - eapply checked_add_error; eassumption.
  - discriminate H.
Qed.

Lemma _distributeFunds_error gameId s e :
  _distributeFunds gameId s = Revert e ->
  e = FundsAlreadyDistributed \/ e = PanicOverflow.
Proof.
  unfold _distributeFunds. intros H.
  apply bind_revert in H as [H | ([] & _ & H)].
  { unfold require in H. destruct (negb _); [discriminate | left; congruence]. }
  apply bind_revert in H as [H | (pot & _ & H)].
  { right. eapply checked_mul_error; eassumption. }
  apply bind_revert in H as [H | (s1 & _ & H)]; [|discriminate H].
  right. destruct (result (game s gameId)); try discriminate H;
    try (eapply credit_error; eassumption).
  apply bind_revert in H as [H | (s1 & _ & H)]; eapply credit_error; eassumption.
Qed.

Lemma _determineWinner_error gameId s e :
  _determineWinner gameId s = Revert e ->
  e = FundsAlreadyDistributed \/ e = PanicOverflow.
Proof.
  unfold _determineWinner. intros H.
  apply bind_revert in H as [H | (s1 & _ & H)]; [|discriminate H].
  eapply _distributeFunds_error; eassumption.
Qed.

Section Binding.

Variable commit_hash : Choice -> uint256 -> address -> bytes32.
Variable seed_hash :
  uint256 -> uint256 -> address -> address -> bytes32 -> bytes32 -> uint256 -> uint256.

Lemma revealChoice_invalid sender blk gameId choice nonce s :
  0 < revealDeadline (game s gameId) ->
  timestamp blk <= revealDeadline (game s gameId) ->
  choice <> CNone ->
  sender = player1 (game s gameId) \/ sender = player2 (game s gameId) ->
  commitment_of (game s gameId) sender <> commit_hash choice nonce sender ->
  revealChoice commit_hash sender blk gameId choice nonce s = Revert InvalidReveal.
Proof.
  intros Hrd Hdl Hc Hp Hne. unfold commitment_of in Hne.
  unfold revealChoice. pass. pass. pass.
  destruct (sender =? player1 (game s gameId)) eqn:E1.
  - apply N.eqb_neq in Hne. rewrite Hne. reflexivity.
  - assert (E2 : (sender =? player2 (game s gameId)) = true)
      by (bool_prop; bool_goal; tauto).
    rewrite E2. apply N.eqb_neq in Hne. rewrite Hne. reflexivity.
Qed.

Lemma revealChoice_ok_commitment sender blk gameId choice nonce s s' :
  revealChoice commit_hash sender blk gameId choice nonce s = Ok s' ->
  commitment_of (game s gameId) sender = commit_hash choice nonce sender.
Proof.
  intros H. apply revealChoice_effect in H as (_ & _ & _ & _ & g1 & Hg1 & _).
  unfold commitment_of.
  destruct Hg1 as [(-> & E & _) | (Hne & _ & E & _)].
  - rewrite N.eqb_refl. exact E.
  - apply N.eqb_neq in Hne. rewrite Hne. exact E.
Qed.

Lemma revealChoice_none sender blk gameId nonce s :
  0 < revealDeadline (game s gameId) ->
  timestamp blk <= revealDeadline (game s gameId) ->
  revealChoice commit_hash sender blk gameId CNone nonce s = Revert InvalidChoice.
Proof. intros Hrd Hdl. unfold revealChoice. pass. pass. reflexivity. Qed.

Lemma revealChoice_repeated sender blk gameId choice nonce s :
  0 < revealDeadline (game s gameId) ->
  timestamp blk <= revealDeadline (game s gameId) ->
  choice <> CNone ->
  sender = player1 (game s gameId) \/ sender = player2 (game s gameId) ->
  commitment_of (game s gameId) sender = commit_hash choice nonce sender ->
  revealed (game s gameId) sender = true ->
  revealChoice commit_hash sender blk gameId choice nonce s = Revert AlreadyRevealed.
Proof.
  intros Hrd Hdl Hc Hp Hcommit Hrev. unfold commitment_of, revealed in *.
  unfold revealChoice. pass. pass. pass.
  destruct (sender =? player1 (game s gameId)) eqn:E1.
  - pass. rewrite Hrev. reflexivity.
  - assert (E2 : (sender =? player2 (game s gameId)) = true)
      by (bool_prop; bool_goal; tauto).
    rewrite E2. pass. rewrite Hrev. reflexivity.
Qed.

(** A reveal whose recomputed hash is the stored one never ends in "Invalid
    reveal", whatever else becomes of it. *)
Lemma revealChoice_matching sender blk gameId choice nonce s :
  0 < revealDeadline (game s gameId) ->
  timestamp blk <= revealDeadline (game s gameId) ->
  choice <> CNone ->
  sender = player1 (game s gameId) \/ sender = player2 (game s gameId) ->
  commit_hash choice nonce sender = commitment_of (game s gameId) sender ->
  revealChoice commit_hash sender blk gameId choice nonce s <> Revert InvalidReveal.
Proof.
  intros Hrd Hdl Hc Hp Hcommit. unfold commitment_of in Hcommit.
  unfold revealChoice. pass. pass. pass.
  assert (Hend : forall s1,
            (if player1Revealed (game s1 gameId) && player2Revealed (game s1 gameId)
             then _determineWinner gameId s1 else Ok s1) <> Revert InvalidReveal).
  { intros s1. destruct (_ && _); [|discriminate].
    intros H. apply _determineWinner_error in H as [H | H]; discriminate H. }
  destruct (sender =? player1 (game s gameId)) eqn:E1.
  - pass. destruct (negb (player1Revealed (game s gameId)));
      cbn [require bind]; [apply Hend | discriminate].
  - assert (E2 : (sender =? player2 (game s gameId)) = true)
      by (bool_prop; bool_goal; tauto).
    rewrite E2. pass.
    destruct (negb (player2Revealed (game s gameId)));
      cbn [require bind]; [apply Hend | discriminate].
Qed.

(** The reveal of a matching pair succeeds and records the choice; room in
    the balances is needed only when it completes the pair, since only then
    the pot is credited. *)
Lemma revealChoice_records sender other blk gameId choice nonce s :
  game_inv (timestamp blk) (game s gameId) ->
  0 < revealDeadline (game s gameId) ->
  timestamp blk <= revealDeadline (game s gameId) ->
  choice <> CNone ->
  participants (game s gameId) sender other ->
  commitment_of (game s gameId) sender = commit_hash choice nonce sender ->
  revealed (game s gameId) sender = false ->
  (revealed (game s gameId) other = true -> headroom s (game s gameId)) ->
  exists s',
    revealChoice commit_hash sender blk gameId choice nonce s = Ok s' /\
    revealed (game s' gameId) sender = true /\
    choice_of (game s' gameId) sender = choice.
Proof.
  intros Hinv Hrd Hdl Hc Hp Hcommit Hrev Hroom.
  destruct (joined_distinct _ _ Hinv) as (Hne & _); [lia|].
  assert (Hsender : sender = player1 (game s gameId) \/
                    sender = player2 (game s gameId))
    by (destruct Hp as [[-> _] | [-> _]]; auto).
  assert (Hroom1 : sender = player1 (game s gameId) ->
                   player2Revealed (game s gameId) = true -> headroom s (game s gameId)).
  { intros E1 E2. apply Hroom. unfold revealed.
    destruct Hp as [[_ ->] | [? _]]; [|congruence].
    assert (X : (player2 (game s gameId) =? player1 (game s gameId)) = false)
      by (apply N.eqb_neq; congruence).
    rewrite X. exact E2. }
  assert (Hroom2 : sender = player2 (game s gameId) ->
                   player1Revealed (game s gameId) = true -> headroom s (game s gameId)).
  { intros E1 E2. apply Hroom. unfold revealed.
    destruct Hp as [[? _] | [_ ->]]; [congruence|].
    rewrite N.eqb_refl. exact E2. }
  clear Hroom.
  assert (Hok : exists s', revealChoice commit_hash sender blk gameId choice nonce s = Ok s').
  { unfold commitment_of, revealed in *.
    pose proof (inv_bet _ _ Hinv) as Hbet.
    assert (Hfd : fundsDistributed (game s gameId) = false).
    { destruct (fundsDistributed (game s gameId)) eqn:E; [|reflexivity].
      destruct (inv_distributed _ _ Hinv E) as (_ & _ & [[H1 H2] | Hlt]); [|lia].
      destruct (sender =? player1 (game s gameId)); congruence. }
    unfold revealChoice. pass. pass. pass.
    destruct (sender =? player1 (game s gameId)) eqn:E1.
    - pass. pass. autorewrite with storage. proj_simpl. cbn [andb].
      destruct (player2Revealed (game s gameId)) eqn:E2; [|eauto].
      apply N.eqb_eq in E1.
      apply _determineWinner_succeeds; autorewrite with storage; proj_simpl;
        try assumption.
      apply Hroom1; [assumption | reflexivity].
    - assert (E2 : sender = player2 (game s gameId))
        by (apply N.eqb_neq in E1; destruct Hsender; congruence).
      assert (E2' : (sender =? player2 (game s gameId)) = true)
        by (apply N.eqb_eq; exact E2).
      rewrite E2'. pass. pass. autorewrite with storage. proj_simpl.
      rewrite andb_true_r.
      destruct (player1Revealed (game s gameId)) eqn:E3; [|eauto].
      apply _determineWinner_succeeds; autorewrite with storage; proj_simpl;
        try assumption.
      apply Hroom2; [assumption | reflexivity]. }
  destruct Hok as [s' Hs']. exists s'. split; [exact Hs'|].
  apply revealChoice_effect in Hs' as (_ & _ & _ & _ & g1 & Hw & Hafter).
  unfold revealed, choice_of.
  destruct Hw as [(Hs0 & _ & _ & ->) | (Hn1 & Hs0 & _ & _ & ->)];
    destruct Hafter as [(_ & _ & _ & _ & -> & _) | (_ & -> & _)]; proj_simpl;
    first [ rewrite <- Hs0, N.eqb_refl; split; reflexivity
          | apply N.eqb_neq in Hn1; rewrite Hn1; split; reflexivity ].
Qed.

(** C5, amended.  Commitment binding, as far as the commitment function
    binds.  In a reachable world with the reveal phase of a game open, let
    [p] and [q] be its two participants.  Nothing is assumed of
    [commit_hash].
    - [revealChoice] called by [p] succeeds exactly when the choice is a
      proper one, the hash recomputed over the choice, the nonce and [p] is
      the commitment stored for [p], and [p] has not revealed yet (with room
      in the balances for the pot when [q] has revealed already); it then
      records the choice and the flag.
    - A reveal of [None] fails with "Invalid choice", and a matching reveal
      by a [p] who has revealed already fails with "Already revealed": a
      recomputed hash that equals the stored one is not enough.
    - A proper choice fails with "Invalid reveal" exactly when the
      recomputed hash differs from the stored one.  So, [p] having committed
      to [(c0, n0)], another pair presented by [p], and any pair presented
      by a [q] who stored the very hash [p] committed (a replay), fails with
      "Invalid reveal" exactly when its hash does not collide with that of
      [(c0, n0, p)].
    A revert leaves the storage as it was, so no choice and no flag is
    recorded. *)
Theorem commitment_binding (w : World) (gameId : uint256) (p q : address) :
  let s := storage w in
  let g := game (storage w) gameId in
  reachable commit_hash seed_hash w ->
  0 < revealDeadline g ->
  timestamp (block w) <= revealDeadline g ->
  participants g p q ->
  (forall choice nonce,
     (exists s', revealChoice commit_hash p (block w) gameId choice nonce s = Ok s') ->
     choice <> CNone /\ commit_hash choice nonce p = commitment_of g p /\
     revealed g p = false) /\
  (forall choice nonce,
     choice <> CNone -> commit_hash choice nonce p = commitment_of g p ->
     revealed g p = false ->
     (revealed g q = true -> headroom s g) ->
     exists s',
       revealChoice commit_hash p (block w) gameId choice nonce s = Ok s' /\
       revealed (game s' gameId) p = true /\
       choice_of (game s' gameId) p = choice) /\
  (forall nonce,
     revealChoice commit_hash p (block w) gameId CNone nonce s = Revert InvalidChoice) /\
  (forall choice nonce,
     choice <> CNone -> commit_hash choice nonce p = commitment_of g p ->
     revealed g p = true ->
     revealChoice commit_hash p (block w) gameId choice nonce s = Revert AlreadyRevealed) /\
  (forall choice nonce,
     choice <> CNone ->
     (revealChoice commit_hash p (block w) gameId choice nonce s = Revert InvalidReveal <->
      commit_hash choice nonce p <> commitment_of g p)) /\
  (forall c0 n0 choice nonce,
     commitment_of g p = commit_hash c0 n0 p ->
     choice <> CNone ->
     (revealChoice commit_hash p (block w) gameId choice nonce s = Revert InvalidReveal <->
      commit_hash choice nonce p <> commit_hash c0 n0 p)) /\
  (forall c0 n0 choice nonce,
     commitment_of g p = commit_hash c0 n0 p ->
     commitment_of g q = commitment_of g p ->
     choice <> CNone ->
     (revealChoice commit_hash q (block w) gameId choice nonce s = Revert InvalidReveal <->
      commit_hash choice nonce q <> commit_hash c0 n0 p)).
Proof.
  intros s g Hreach Hrd Hdl Hp. subst s g.
  destruct (reachable_state_inv _ _ _ Hreach) as [_ Hinv]. specialize (Hinv gameId).
  assert (Hpp : p = player1 (game (storage w) gameId) \/
                p = player2 (game (storage w) gameId))
    by (destruct Hp as [[-> _] | [-> _]]; auto).
  assert (Hqq : q = player1 (game (storage w) gameId) \/
                q = player2 (game (storage w) gameId))
    by (destruct Hp as [[_ ->] | [_ ->]]; auto).
  assert (Hmismatch : forall a choice nonce,
            a = player1 (game (storage w) gameId) \/
            a = player2 (game (storage w) gameId) ->
            choice <> CNone ->
            (revealChoice commit_hash a (block w) gameId choice nonce (storage w) =
               Revert InvalidReveal <->
             commit_hash choice nonce a <> commitment_of (game (storage w) gameId) a)).
  { intros a choice nonce Ha Hc. split.
    - intros Hrev E.
      apply (revealChoice_matching a (block w) gameId choice nonce (storage w));
        auto.
    - intros Hne. apply revealChoice_invalid; try assumption. congruence. }
  split; [|split; [|split; [|split; [|split; [|split]]]]].
  - intros choice nonce [s' Hs']. split; [|split].
    + apply revealChoice_effect in Hs' as (_ & _ & Hc & _). exact Hc.
    + symmetry. eapply revealChoice_ok_commitment; eauto.
    + apply revealChoice_effect in Hs' as (_ & _ & _ & _ & g1 & Hw & _).
      unfold revealed.
      destruct Hw as [(-> & _ & Hr & _) | (Hn1 & _ & _ & Hr & _)].
      * rewrite N.eqb_refl. exact Hr.
      * apply N.eqb_neq in Hn1. rewrite Hn1. exact Hr.
  - intros choice nonce Hc E Hrev Hroom.
    apply (revealChoice_records p q); auto.
  - intros nonce. apply revealChoice_none; assumption.
  - intros choice nonce Hc E Hrev. apply revealChoice_repeated; auto.
  - intros choice nonce Hc. apply Hmismatch; assumption.
  - intros c0 n0 choice nonce Hstored Hc. rewrite <- Hstored.
    apply Hmismatch; assumption.
  - intros c0 n0 choice nonce Hstored Hreplay Hc. rewrite <- Hstored, <- Hreplay.
    apply Hmismatch; assumption.
Qed.

End Binding.

(** * Resolution runs once *)

Lemma handleExpiredGame_completed blk gameId s :
  isCompleted (game s gameId) = true ->
  handleExpiredGame blk gameId s =
  Revert (if (0 <? revealDeadline (game s gameId)) &&
             (revealDeadline (game s gameId) <? timestamp blk)
          then GameAlreadyCompleted else GameNotExpired).
Proof.
  intros Hc. unfold handleExpiredGame.
  destruct ((0 <? revealDeadline (game s gameId)) &&
            (revealDeadline (game s gameId) <? timestamp blk)); cbn [require bind].
  - rewrite Hc. reflexivity.
  - reflexivity.
Qed.

Lemma handleExpiredGame_not_started blk gameId s :
  revealDeadline (game s gameId) = 0 ->
  handleExpiredGame blk gameId s = Revert GameNotExpired.
Proof. intros E. unfold handleExpiredGame. rewrite E. reflexivity. Qed.

Section Once.

Variable commit_hash : Choice -> uint256 -> address -> bytes32.
Variable seed_hash :
  uint256 -> uint256 -> address -> address -> bytes32 -> bytes32 -> uint256 -> uint256.

Lemma resolved_stable w w' gameId :
  reachable commit_hash seed_hash w ->
  resolved (storage w) gameId ->
  steps commit_hash seed_hash w w' ->
  resolved (storage w') gameId /\
  revealDeadline (game (storage w') gameId) = revealDeadline (game (storage w) gameId) /\
  result (game (storage w') gameId) = result (game (storage w) gameId).
Proof.
  intros Hreach [Hc Hfd] Hsteps.
  pose proof (reachable_state_inv _ _ _ Hreach) as Hs.
  destruct Hs as [Hfresh Hinv]. pose proof (Hinv gameId) as Hg.
  destruct (inv_distributed _ _ Hg Hfd) as (_ & Hrd & _).
  destruct (joined_distinct _ _ Hg Hrd) as (_ & _ & Hp1).
  pose proof (steps_game_le commit_hash seed_hash w w' gameId
                (conj Hfresh Hinv) Hsteps Hp1) as Hle.
  destruct (le_distributed _ _ Hle Hfd) as [? ?].
  pose proof (le_completed _ _ Hle Hc). pose proof (le_revealDeadline _ _ Hle Hrd).
  repeat split; assumption.
Qed.

(** C4, amended.  Once resolution has run for a game in a reachable world, it
    stays resolved in every later world, and there every second attempt at
    resolution fails and changes nothing: [handleExpiredGame] reverts with
    "Game already completed" when the reveal deadline has passed and with
    "Game not expired" when it has not, and [revealChoice] reverts for every
    caller.  A transaction making either call leaves the world, hence every
    balance, as it was. *)
Theorem resolution_runs_once (w w' : World) (gameId : uint256) :
  reachable commit_hash seed_hash w ->
  resolved (storage w) gameId ->
  steps commit_hash seed_hash w w' ->
  resolved (storage w') gameId /\
  handleExpiredGame (block w') gameId (storage w') =
    Revert (if revealDeadline (game (storage w') gameId) <? timestamp (block w')
            then GameAlreadyCompleted else GameNotExpired) /\
  (forall sender choice nonce,
     exists e, revealChoice commit_hash sender (block w') gameId choice nonce (storage w')
               = Revert e) /\
  (forall sender, act commit_hash seed_hash (Tx sender (HandleExpiredGame gameId)) w' = w') /\
  (forall sender choice nonce,
     act commit_hash seed_hash (Tx sender (RevealChoice gameId choice nonce)) w' = w').
Proof.
  intros Hreach Hres Hsteps.
  destruct (resolved_stable w w' gameId Hreach Hres Hsteps) as ([Hc Hfd] & _ & _).
  pose proof (steps_reachable _ _ _ _ Hreach Hsteps) as Hreach'.
  destruct (reachable_state_inv _ _ _ Hreach') as [_ Hinv]. specialize (Hinv gameId).
  destruct (inv_distributed _ _ Hinv Hfd) as (_ & Hrd & Hdone).
  assert (Hsweep : handleExpiredGame (block w') gameId (storage w') =
    Revert (if revealDeadline (game (storage w') gameId) <? timestamp (block w')
            then GameAlreadyCompleted else GameNotExpired)).
  { rewrite (handleExpiredGame_completed _ _ _ Hc).
    replace (0 <? revealDeadline (game (storage w') gameId)) with true
      by (symmetry; apply N.ltb_lt; lia).
    reflexivity. }
  assert (Hreveal : forall sender choice nonce,
     exists e, revealChoice commit_hash sender (block w') gameId choice nonce (storage w')
               = Revert e).
  { intros sender choice nonce.
    destruct (revealChoice commit_hash sender (block w') gameId choice nonce (storage w'))
      as [s''|e] eqn:E; [exfalso | eauto].
    apply revealChoice_effect in E as (_ & Hdl & _ & _ & g1 & Hg1 & _).
    destruct Hdone as [[H1 H2] | Hlt]; [|lia].
    destruct Hg1 as [(_ & _ & ? & _) | (_ & _ & _ & ? & _)]; congruence. }
  split; [split; assumption|]. split; [exact Hsweep|]. split; [exact Hreveal|].
  split.
  - intros sender. destruct w' as [s' blk']. unfold act. cbn [storage block exec] in *.
    rewrite Hsweep. reflexivity.
  - intros sender choice nonce. destruct w' as [s' blk']. unfold act.
    cbn [storage block exec] in *.
    destruct (Hreveal sender choice nonce) as [e ->]. reflexivity.
Qed.

End Once.

(** * A commit phase that ran out *)

Section Stalled.

Variable commit_hash : Choice -> uint256 -> address -> bytes32.
Variable seed_hash :
  uint256 -> uint256 -> address -> address -> bytes32 -> bytes32 -> uint256 -> uint256.

Lemma steps_stalled w w' gameId :
  state_inv (timestamp (block w)) (storage w) ->
  stalled (timestamp (block w)) (game (storage w) gameId) ->
  steps commit_hash seed_hash w w' ->
  game (storage w') gameId = game (storage w) gameId.
Proof.
  intros Hinv Hst Hsteps.
  set (g0 := game (storage w) gameId) in *.
  enough (state_inv (timestamp (block w')) (storage w') /\
          (stalled (timestamp (block w')) g0 /\ game (storage w') gameId = g0))
    as (_ & _ & H) by exact H.
  apply (steps_stable commit_hash seed_hash
           (fun now s => state_inv now s /\ (stalled now g0 /\ game s gameId = g0)))
    with (w := w); [ | | | | | | | | exact Hsteps | ].
  - intros now now' s Hle (Hs & (Hp2 & Hcd & Hrd) & Hg).
    split; [eauto using state_inv_mono|]. split; [|exact Hg].
    split; [exact Hp2|]. split; [lia | exact Hrd].
  - intros now s s' Hg Hn (Hs & Hst' & Hg0).
    split; [eauto using state_inv_storage|]. split; [exact Hst'|].
    rewrite Hg. exact Hg0.
  - intros blk sender value s s' H (Hs & Hst' & Hg). split; [|split; [exact Hst'|]].
    + eapply createGame_state_inv; eauto.
    + apply createGame_effect in H as (_ & _ & _ & _ & _ & _ & Hfr & _).
      rewrite Hfr; [exact Hg|]. intros ->.
      destruct Hs as [[_ Hfresh] Hall]. destruct Hst' as (Hp2 & _).
      rewrite <- Hg in Hp2.
      destruct (inv_players _ _ (Hall (nextGameId s)) Hp2) as [Hp1 _].
      apply Hp1, Hfresh. lia.
  - intros blk sender value gameId' s s' H (Hs & Hst' & Hg). split; [|split; [exact Hst'|]].
    + eapply joinGame_state_inv; eauto.
    + apply joinGame_effect in H as (_ & _ & Hp2 & _ & _ & _ & (Hfr & _) & _).
      destruct (decide (gameId = gameId')) as [<-|Hne]; [|rewrite Hfr; assumption].
      destruct Hst' as (? & _). congruence.
  - intros blk sender gameId' commitHash s s' H (Hs & Hst' & Hg).
    split; [|split; [exact Hst'|]].
    + eapply commitChoice_state_inv; eauto.
    + apply commitChoice_effect in H as (_ & _ & Hdl & _ & (Hfr & _) & _).
      destruct (decide (gameId = gameId')) as [<-|Hne]; [|rewrite Hfr; assumption].
      destruct Hst' as (_ & ? & _). rewrite Hg in Hdl. lia.
  - intros blk sender gameId' choice nonce s s' H (Hs & Hst' & Hg).
    split; [|split; [exact Hst'|]].
    + eapply revealChoice_state_inv; eauto.
    + apply revealChoice_effect in H as (Hrd & _ & _ & (Hfr & _) & _).
      destruct (decide (gameId = gameId')) as [<-|Hne]; [|rewrite Hfr; assumption].
      destruct Hst' as (_ & _ & ?). rewrite Hg in Hrd. lia.
  - intros blk gameId' s s' H (Hs & Hst' & Hg). split; [|split; [exact Hst'|]].
    + eapply handleExpiredGame_state_inv; eauto.
    + apply handleExpiredGame_effect in H as (Hrd & _ & _ & (Hfr & _) & _).
      destruct (decide (gameId = gameId')) as [<-|Hne]; [|rewrite Hfr; assumption].
      destruct Hst' as (_ & _ & ?). rewrite Hg in Hrd. lia.
  - intros blk sender gameId' s s' H (Hs & Hst' & Hg). split; [|split; [exact Hst'|]].
    + eapply cancelGame_state_inv; eauto.
    + apply cancelGame_effect in H as (_ & Hp2 & _ & (Hfr & _) & _).
      destruct (decide (gameId = gameId')) as [<-|Hne]; [|rewrite Hfr; assumption].
      destruct Hst' as (? & _). congruence.
  - split; [exact Hinv|]. split; [exact Hst | reflexivity].
Qed.

(** C2, amended.  In a reachable world, take a game that both players joined
    and whose commit deadline has passed with a commitment still absent.
    Then [revealDeadline] was never set, and in every later world
    [handleExpiredGame] reverts with "Game not expired" and changes nothing;
    the game itself never changes again.  The sweep is a path into
    resolution from the reveal phase only. *)
Theorem stalled_commit_is_never_swept (w w' : World) (gameId : uint256) :
  reachable commit_hash seed_hash w ->
  player2 (game (storage w) gameId) <> 0 ->
  commitDeadline (game (storage w) gameId) < timestamp (block w) ->
  player1CommitHash (game (storage w) gameId) = 0 \/
  player2CommitHash (game (storage w) gameId) = 0 ->
  steps commit_hash seed_hash w w' ->
  handleExpiredGame (block w') gameId (storage w') = Revert GameNotExpired /\
  (forall sender, act commit_hash seed_hash (Tx sender (HandleExpiredGame gameId)) w' = w') /\
  game (storage w') gameId = game (storage w) gameId.
Proof.
  intros Hreach Hp2 Hdl Hzero Hsteps.
  pose proof (reachable_state_inv _ _ _ Hreach) as Hs.
  pose proof Hs as [_ Hinv]. specialize (Hinv gameId).
  assert (Hrd : revealDeadline (game (storage w) gameId) = 0).
  { destruct (N.eq_dec (revealDeadline (game (storage w) gameId)) 0) as [E|E]; [exact E|].
    apply (inv_reveal_phase _ _ Hinv) in E. destruct E, Hzero; congruence. }
  assert (Hsame : game (storage w') gameId = game (storage w) gameId).
  { eapply steps_stalled; eauto. repeat split; assumption. }
  assert (Hsweep : handleExpiredGame (block w') gameId (storage w') = Revert GameNotExpired).
  { apply handleExpiredGame_not_started. rewrite Hsame. exact Hrd. }
  split; [exact Hsweep|]. split; [|exact Hsame].
  intros sender. destruct w' as [s' blk']. unfold act. cbn [storage block exec] in *.
  rewrite Hsweep. reflexivity.
Qed.

End Stalled.

(** * Commitments *)

Section Commit.

Variable commit_hash : Choice -> uint256 -> address -> bytes32.
Variable seed_hash :
  uint256 -> uint256 -> address -> address -> bytes32 -> bytes32 -> uint256 -> uint256.

Lemma commitChoice_zero sender blk gameId s :
  exists e, commitChoice seed_hash sender blk gameId 0 s = Revert e /\
            (e = GameNotReady \/ e = CommitPhaseExpired \/ e = InvalidCommitHash).
Proof.
  unfold commitChoice.
  destruct (negb (player1 (game s gameId) =? 0) && negb (player2 (game s gameId) =? 0));
    cbn [require bind]; [|eauto].
  destruct (timestamp blk <=? commitDeadline (game s gameId));
    cbn [require bind]; eauto 6.
Qed.

(** C10.  [commitChoice] with the all-zero hash reverts for every game, caller,
    block and storage.  A successful [commitChoice] found the caller's slot
    zero and leaves the given, nonzero, hash in it.  In executions from
    deployment a nonzero stored commitment is never overwritten, and the
    reveal phase has started exactly when both stored commitments are
    nonzero: a zero slot means "not yet committed". *)
Theorem zero_commitment_rejected :
  (forall sender blk gameId s,
     exists e, commitChoice seed_hash sender blk gameId 0 s = Revert e /\
               (e = GameNotReady \/ e = CommitPhaseExpired \/ e = InvalidCommitHash)) /\
  (forall sender blk gameId commitHash s s',
     commitChoice seed_hash sender blk gameId commitHash s = Ok s' ->
     commitHash <> 0 /\
     commitment_of (game s gameId) sender = 0 /\
     commitment_of (game s' gameId) sender = commitHash) /\
  (forall w w' gameId,
     reachable commit_hash seed_hash w -> steps commit_hash seed_hash w w' ->
     (player1CommitHash (game (storage w) gameId) <> 0 ->
      player1CommitHash (game (storage w') gameId) =
      player1CommitHash (game (storage w) gameId)) /\
     (player2CommitHash (game (storage w) gameId) <> 0 ->
      player2CommitHash (game (storage w') gameId) =
      player2CommitHash (game (storage w) gameId))) /\
  (forall w gameId,
     reachable commit_hash seed_hash w ->
     revealDeadline (game (storage w) gameId) <> 0 <->
     (player1CommitHash (game (storage w) gameId) <> 0 /\
      player2CommitHash (game (storage w) gameId) <> 0)).
Proof.
  split; [|split; [|split]].
  - intros. apply commitChoice_zero.
  - intros sender blk gameId commitHash s s' H.
    apply commitChoice_effect in H as (_ & _ & _ & Hh & _ & _ & g1 & Hg1 & Hg').
    split; [exact Hh|]. unfold commitment_of.
    assert (Hs' : player1 (game s' gameId) = player1 (game s gameId) /\
                  player1CommitHash (game s' gameId) = player1CommitHash g1 /\
                  player2CommitHash (game s' gameId) = player2CommitHash g1).
    { destruct Hg' as [(_ & _ & _ & seed & ->) | (_ & ->)];
        destruct Hg1 as [(_ & _ & ->) | (_ & _ & _ & ->)]; auto. }
    destruct Hs' as (-> & -> & ->).
    destruct Hg1 as [(-> & E & ->) | (Hne & _ & E & ->)]; proj_simpl.
    + rewrite N.eqb_refl. auto.
    + apply N.eqb_neq in Hne. rewrite Hne. auto.
  - intros w w' gameId Hreach Hsteps.
    pose proof (reachable_state_inv _ _ _ Hreach) as Hs.
    pose proof Hs as [_ Hinv]. specialize (Hinv gameId).
    assert (Hjoined : player1CommitHash (game (storage w) gameId) <> 0 \/
                      player2CommitHash (game (storage w) gameId) <> 0 ->
                      player1 (game (storage w) gameId) <> 0).
    { intros Hh. destruct Hinv as [Hbet Hpl Hun Hrp Hr1 Hr2 Hd Hb].
      assert (player2 (game (storage w) gameId) <> 0)
        by (intros E; destruct (Hun E); destruct Hh; congruence).
      tauto. }
    split; intros Hh;
      [apply le_commit1 | apply le_commit2]; try exact Hh;
      eapply steps_game_le; eauto.
  - intros w gameId Hreach.
    destruct (reachable_state_inv _ _ _ Hreach) as [_ Hinv].
    apply (inv_reveal_phase _ _ (Hinv gameId)).
Qed.

End Commit.

(** * Withdrawal and reentrancy *)

Section Withdraw.

Variable commit_hash : Choice -> uint256 -> address -> bytes32.
Variable seed_hash :
  uint256 -> uint256 -> address -> address -> bytes32 -> bytes32 -> uint256 -> uint256.

Lemma guarded_reverts c sender blk s :
  guarded c = true -> entered s = true ->
  exec commit_hash seed_hash c sender blk s = Revert ReentrancyGuardReentrantCall.
Proof.
  intros Hg He. destruct c; try discriminate Hg; cbn [exec];
    unfold createGame, joinGame, withdrawBalance, nonReentrant; rewrite He; reflexivity.
Qed.

Lemma exec_entered c sender blk s s' :
  exec commit_hash seed_hash c sender blk s = Ok s' -> entered s' = entered s.
Proof.
  destruct c; cbn [exec]; intros H.
  - apply createGame_effect in H as (? & _ & _ & _ & ? & _). congruence.
  - apply joinGame_effect in H as (_ & _ & _ & _ & _ & _ & (_ & _ & ?) & _). assumption.
  - apply commitChoice_effect in H as (_ & _ & _ & _ & (_ & _ & ?) & _). assumption.
  - apply revealChoice_effect in H as (_ & _ & _ & (_ & _ & ?) & _). assumption.
  - apply handleExpiredGame_effect in H as (_ & _ & _ & (_ & _ & ?) & _). assumption.
  - apply withdrawBalance_effect in H as (? & _ & s2 & _ & ->). cbn. congruence.
  - apply cancelGame_effect in H as (_ & _ & _ & (_ & _ & ?) & _). assumption.
Qed.

Lemma nested_guarded_revert r blk s :
  entered s = true ->
  Forall (fun x : N * Call * Result State =>
            guarded (snd (fst x)) = true -> snd x = Revert ReentrancyGuardReentrantCall)
         (nested_calls commit_hash seed_hash r blk s).
Proof.
  revert s. induction r as [success | k IH | caller c k IH]; intros s He; cbn [nested_calls].
  - constructor.
  - apply IH. exact He.
  - constructor.
    + cbn [fst snd]. intros Hg. apply guarded_reverts; assumption.
    + apply IH. destruct (exec commit_hash seed_hash c caller blk s) eqn:E; cbn [after].
      * rewrite (exec_entered _ _ _ _ _ E). exact He.
      * exact He.
Qed.

(** Between transactions the guard is clear. *)
Lemma reachable_not_entered w :
  reachable commit_hash seed_hash w -> entered (storage w) = false.
Proof.
  induction 1 as [blk | w w' _ IH Hstep]; [reflexivity|].
  destruct Hstep as [w sender c s' Hc | w blk Hle]; cbn [storage].
  - rewrite (exec_entered _ _ _ _ _ Hc). exact IH.
  - exact IH.
Qed.

(** C8.  [withdrawBalance] writes the caller's balance to zero before the
    external call: the recipient's code runs on [at_transfer sender s], where
    the balance reads zero, and a successful withdrawal has sent exactly the
    balance the caller had before.  With a positive balance and the guard
    clear, the withdrawal succeeds when the transfer does; when the transfer
    fails the whole call reverts with "Withdrawal failed" and the caller's
    balance is what it was.  Whatever the recipient does, each guarded call
    it makes back into the contract ([withdrawBalance], [createGame],
    [joinGame]) reverts; and even with the guard left aside a second
    withdrawal would find the balance zero and revert. *)
Theorem withdraw_zeroes_before_transfer (sender : address) (blk : Block)
    (recipient : Callee) (s : State) :
  balance (at_transfer sender s) sender = 0 /\
  (forall s',
     exec commit_hash seed_hash (WithdrawBalance recipient) sender blk s = Ok s' ->
     exists s1,
       run commit_hash seed_hash recipient blk (at_transfer sender s) = (true, s1) /\
       sent s' = (sender, balance s sender) :: sent s1) /\
  (entered s = false -> 0 < balance s sender ->
   fst (run commit_hash seed_hash recipient blk (at_transfer sender s)) = true ->
   exists s', exec commit_hash seed_hash (WithdrawBalance recipient) sender blk s = Ok s') /\
  (entered s = false -> 0 < balance s sender ->
   fst (run commit_hash seed_hash recipient blk (at_transfer sender s)) = false ->
   exec commit_hash seed_hash (WithdrawBalance recipient) sender blk s =
     Revert WithdrawalFailed /\
   balance (after (exec commit_hash seed_hash (WithdrawBalance recipient) sender blk s) s)
     sender = balance s sender) /\
  Forall (fun x : N * Call * Result State =>
            guarded (snd (fst x)) = true -> snd x = Revert ReentrancyGuardReentrantCall)
         (nested_calls commit_hash seed_hash recipient blk (at_transfer sender s)) /\
  (forall call,
     withdrawBalance sender call (set_entered false (at_transfer sender s)) =
     Revert NoBalanceToWithdraw).
Proof.
  split; [|split; [|split; [|split; [|split]]]].
  - unfold at_transfer, balance. cbn. rewrite lookup_insert_eq. reflexivity.
  - intros s' H. rewrite exec_WithdrawBalance in H.
    apply withdrawBalance_effect in H as (_ & _ & s2 & Hc & ->).
    apply external_call_true in Hc as (s1 & Hc & ->). exists s1. split; [exact Hc|].
    reflexivity.
  - intros He Hb Hrun. rewrite exec_WithdrawBalance.
    unfold withdrawBalance, nonReentrant. rewrite He.
    change (balance (set_entered true s) sender) with (balance s sender).
    apply N.ltb_lt in Hb. rewrite Hb. cbn [require bind].
    change (set_playerBalances (<[sender:=0]> (playerBalances (set_entered true s)))
              (set_entered true s)) with (at_transfer sender s).
    unfold external_call.
    destruct (run commit_hash seed_hash recipient blk (at_transfer sender s)) as [ok s1].
    cbn [fst] in Hrun. subst ok. cbn [require bind]. eauto.
  - intros He Hb Hrun.
    assert (E : exec commit_hash seed_hash (WithdrawBalance recipient) sender blk s =
                Revert WithdrawalFailed).
    { rewrite exec_WithdrawBalance.
      unfold withdrawBalance, nonReentrant. rewrite He.
      change (balance (set_entered true s) sender) with (balance s sender).
      apply N.ltb_lt in Hb. rewrite Hb. cbn [require bind].
      change (set_playerBalances (<[sender:=0]> (playerBalances (set_entered true s)))
                (set_entered true s)) with (at_transfer sender s).
      unfold external_call.
      destruct (run commit_hash seed_hash recipient blk (at_transfer sender s)) as [ok s1].
      cbn [fst] in Hrun. subst ok. reflexivity. }
    rewrite E. split; reflexivity.
  - apply nested_guarded_revert. reflexivity.
  - intros call. unfold withdrawBalance, nonReentrant. cbn [entered set_entered].
    unfold at_transfer, balance. cbn. rewrite lookup_insert_eq. reflexivity.
Qed.

End Withdraw.

(** * Cancellation *)

(** C1.  The code against the claim: a game cancelled by its creator is
    completed with player 2 still absent, yet a second [cancelGame] by the
    creator, in the same or any later block, succeeds again and credits the
    stake a second time ([cancelGame] has no "already completed" guard,
    unlike [handleExpiredGame]). *)
Theorem cancel_twice_refunds_twice (sender : address) (blk blk' : Block)
    (gameId : uint256) (s s1 : State) :
  cancelGame sender blk gameId s = Ok s1 ->
  timestamp blk <= timestamp blk' ->
  balance s1 sender + betAmount (game s gameId) <= MAX_UINT256 ->
  isCompleted (game s1 gameId) = true /\
  player2 (game s1 gameId) = 0 /\
  exists s2,
    cancelGame sender blk' gameId s1 = Ok s2 /\
    balance s2 sender = balance s sender + 2 * betAmount (game s gameId).
Proof.
  intros H Hle Hroom.
  apply cancelGame_effect in H as (Hp1 & Hp2 & Hdl & _ & Hg & Hb & Hmax).
  split; [rewrite Hg; reflexivity|]. split; [rewrite Hg; exact Hp2|].
  assert (Hsucc : exists s2, cancelGame sender blk' gameId s1 = Ok s2).
  { unfold cancelGame. rewrite Hg. proj_simpl. rewrite Hp1 in *. repeat pass. eauto. }
  destruct Hsucc as [s2 Hs2]. exists s2. split; [exact Hs2|].
  apply cancelGame_effect in Hs2 as (_ & _ & _ & _ & _ & Hb2 & _).
  rewrite Hb2, Hb, Hg. proj_simpl. unfold credited. rewrite Hp1.
  destruct (decide (sender = sender)); [lia | congruence].
Qed.

(** C9.  The code against the claim: [cancelGame] measures the wait from
    [commitDeadline], which is zero until somebody joins, so the creator can
    cancel in the very block that created the game (any block later than
    one hour after the Unix epoch): the stake is credited back and the game
    is marked completed and [Expired] with no waiting at all. *)
Theorem cancel_needs_no_waiting (sender : address) (value : uint256) (blk : Block)
    (s s1 : State) :
  createGame sender value s = Ok s1 ->
  ONE_HOUR < timestamp blk ->
  balance s sender + value <= MAX_UINT256 ->
  exists s2,
    cancelGame sender blk (nextGameId s) s1 = Ok s2 /\
    balance s2 sender = balance s sender + value /\
    isCompleted (game s2 (nextGameId s)) = true /\
    result (game s2 (nextGameId s)) = Expired.
Proof.
  intros H Hlate Hroom.
  apply createGame_effect in H as (_ & _ & _ & _ & _ & Hg & _ & Hb).
  assert (Hsucc : exists s2, cancelGame sender blk (nextGameId s) s1 = Ok s2).
  { unfold cancelGame. rewrite Hg. proj_simpl. pose proof (Hb sender).
    assert (ONE_HOUR <= MAX_UINT256) by (apply N.leb_le; vm_compute; reflexivity).
    repeat pass. eauto. }
  destruct Hsucc as [s2 Hs2]. exists s2. split; [exact Hs2|].
  apply cancelGame_effect in Hs2 as (_ & _ & _ & _ & Hg2 & Hb2 & _).
  rewrite Hg2, Hb2, Hg, Hb. proj_simpl. unfold credited.
  destruct (decide (sender = sender)); [auto | congruence].
Qed.


(** * The concrete instance *)

Lemma pow2_odd_inj n : forall n' a a',
  2 ^ n * (2 * a + 1) = 2 ^ n' * (2 * a' + 1) -> n = n' /\ a = a'.
Proof.
  induction n as [|n IH] using N.peano_ind; intros n' a a';
    destruct n' as [|n'] using N.peano_ind.
  - cbn. lia.
  - rewrite N.pow_succ_r', <- N.mul_assoc. cbn [N.pow].
    set (x := 2 ^ n' * (2 * a' + 1)). cbn. lia.
  - rewrite N.pow_succ_r', <- N.mul_assoc.
    set (x := 2 ^ n * (2 * a + 1)). cbn. lia.
  - rewrite !N.pow_succ_r', <- !N.mul_assoc. intros H.
    apply N.mul_cancel_l in H; [|lia].
    apply IH in H as [-> ->]. split; reflexivity.
Qed.

Lemma pack_commit_inj c n a c' n' a' :
  pack_commit c n a = pack_commit c' n' a' -> c = c' /\ n = n' /\ a = a'.
Proof.
  unfold pack_commit. intros H.
  assert (Hc : choice_code c < 4) by (destruct c; cbn; lia).
  assert (Hc' : choice_code c' < 4) by (destruct c'; cbn; lia).
  set (x := 2 ^ n * (2 * a + 1)) in *. set (x' := 2 ^ n' * (2 * a' + 1)) in *.
  assert (Hx : x = x') by lia. assert (Hcc : choice_code c = choice_code c') by lia.
  subst x x'. apply pow2_odd_inj in Hx. split; [|exact Hx].
  destruct c, c'; cbn in Hcc; congruence.
Qed.

Section Scripts.

Variable commit_hash : Choice -> uint256 -> address -> bytes32.
Variable seed_hash :
  uint256 -> uint256 -> address -> address -> bytes32 -> bytes32 -> uint256 -> uint256.

Lemma act_steps a w : steps commit_hash seed_hash w (act commit_hash seed_hash a w).
Proof.
  destruct a as [sender c | blk]; cbn [act].
  - destruct (exec commit_hash seed_hash c sender (block w) (storage w)) as [s'|e] eqn:E;
      cbn [after].
    + eapply steps_cons; [apply steps_refl | eapply step_call; exact E].
    + destruct w; apply steps_refl.
  - destruct (N.leb_spec (timestamp (block w)) (timestamp blk)).
    + eapply steps_cons; [apply steps_refl | apply step_block; assumption].
    + apply steps_refl.
Qed.

Lemma act_reachable a w :
  reachable commit_hash seed_hash w ->
  reachable commit_hash seed_hash (act commit_hash seed_hash a w).
Proof. intros H. eapply steps_reachable; [exact H | apply act_steps]. Qed.

End Scripts.


Ltac reach :=
  repeat first [ apply reachable_deployed | apply act_reachable ].

Ltac crunch :=
  vm_compute; repeat split;
  first [ reflexivity | (intros; discriminate)
        | (left; reflexivity) | (right; reflexivity)
        | (left; split; reflexivity) | (right; split; reflexivity) ].

Lemma sweep_resolves_witness :
  reachable pack_commit pack_seed world_forfeit /\
  exists s',
    handleExpiredGame (block world_forfeit) 1 (storage world_forfeit) = Ok s' /\
    resolved s' 1 /\
    result (game s' 1) = Player1Wins /\
    balance s' alice = 2 * stake /\
    balance s' bob = 0.
Proof.
  split; [reach|].
  destruct (sweep_resolves pack_commit pack_seed world_forfeit 1)
    as (s' & Hs' & Hres & Hwin & _);
    [reach | crunch | crunch | crunch | crunch |].
  exists s'. split; [exact Hs'|]. split; [exact Hres|].
  destruct Hwin as (Hr & Hb1 & Hb2); [crunch | crunch |].
  split; [exact Hr|]. split; [exact Hb1 | exact Hb2].
Defined.

Lemma second_reveal_resolves_witness :
  reachable pack_commit pack_seed world_alice_revealed /\
  exists s',
    revealChoice pack_commit bob (block world_alice_revealed) 1 Scissors 9
      (storage world_alice_revealed) = Ok s' /\
    spec_outcome (player1Choice (game s' 1)) (player2Choice (game s' 1)) =
      Some (result (game s' 1)) /\
    resolved s' 1.
Proof.
  split; [reach|].
  destruct (second_reveal_resolves pack_commit pack_seed world_alice_revealed bob alice 1
              Scissors 9)
    as (s' & Hs' & _ & _ & Hout & Hres & _);
    [reach | crunch | crunch | crunch | crunch | crunch | crunch
    | crunch | crunch |].
  exists s'. auto.
Defined.

Lemma resolution_conserves_pot_witness :
  reachable pack_commit pack_seed world_alice_revealed /\
  pot_conserved (storage world_alice_revealed) (storage world_resolved)
    (game (storage world_alice_revealed) 1).
Proof.
  split; [reach|].
  apply (proj1 (resolution_conserves_pot pack_commit pack_seed world_alice_revealed 1
                  ltac:(reach)) bob Scissors 9);
    crunch.
Defined.

(** [pack_commit32] has 32-byte values, and collisions: from nonce 254 on the
    nonce and the player are cut off. *)
Lemma pack_commit32_range c n a : pack_commit32 c n a <= MAX_UINT256.
Proof.
  unfold pack_commit32, MAX_UINT256.
  pose proof (N.mod_upper_bound (pack_commit c n a) (2 ^ 256)) as H.
  assert (2 ^ 256 <> 0) by (vm_compute; discriminate). specialize (H ltac:(assumption)).
  lia.
Qed.

Lemma pack_commit32_collides :
  pack_commit32 Rock 254 alice = pack_commit32 Rock 255 alice.
Proof. vm_compute. reflexivity. Qed.

(** The worlds of the game between [alice] and [bob] are the same under
    either packing. *)
Lemma world_committed_32 :
  world_committed =
  act pack_commit32 pack_seed bob_commits
    (act pack_commit32 pack_seed alice_commits
       (act pack_commit32 pack_seed (Tx bob (JoinGame 1 stake))
          (act pack_commit32 pack_seed (Tx alice (CreateGame stake)) genesis))).
Proof. vm_compute. reflexivity. Qed.

Lemma world_replayed_32 :
  world_replayed =
  act pack_commit32 pack_seed (Tx bob (CommitChoice 1 (pack_commit Rock 7 alice)))
    (act pack_commit32 pack_seed alice_commits
       (act pack_commit32 pack_seed (Tx bob (JoinGame 1 stake))
          (act pack_commit32 pack_seed (Tx alice (CreateGame stake)) genesis))).
Proof. vm_compute. reflexivity. Qed.

Lemma world_alice_revealed_32 :
  world_alice_revealed = act pack_commit32 pack_seed alice_reveals world_committed.
Proof. vm_compute. reflexivity. Qed.

Lemma commitment_binding_witness :
  reachable pack_commit32 pack_seed world_committed /\
  (exists s',
     revealChoice pack_commit32 alice (block world_committed) 1 Rock 7
       (storage world_committed) = Ok s' /\
     choice_of (game s' 1) alice = Rock) /\
  revealChoice pack_commit32 alice (block world_committed) 1 Paper 7
    (storage world_committed) = Revert InvalidReveal /\
  revealChoice pack_commit32 alice (block world_committed) 1 CNone 7
    (storage world_committed) = Revert InvalidChoice /\
  reachable pack_commit32 pack_seed world_replayed /\
  commitment_of (game (storage world_replayed) 1) bob =
    commitment_of (game (storage world_replayed) 1) alice /\
  revealChoice pack_commit32 bob (block world_replayed) 1 Rock 7
    (storage world_replayed) = Revert InvalidReveal /\
  reachable pack_commit32 pack_seed world_alice_revealed /\
  revealChoice pack_commit32 alice (block world_alice_revealed) 1 Rock 7
    (storage world_alice_revealed) = Revert AlreadyRevealed.
Proof.
  assert (R1 : reachable pack_commit32 pack_seed world_committed)
    by (rewrite world_committed_32; reach).
  assert (R2 : reachable pack_commit32 pack_seed world_replayed)
    by (rewrite world_replayed_32; reach).
  assert (R3 : reachable pack_commit32 pack_seed world_alice_revealed)
    by (rewrite world_alice_revealed_32; apply act_reachable; exact R1).
  destruct (commitment_binding pack_commit32 pack_seed world_committed 1 alice bob)
    as (_ & Hok & Hnone & _ & _ & Hother & _);
    [exact R1 | crunch | crunch | crunch |].
  destruct (commitment_binding pack_commit32 pack_seed world_replayed 1 alice bob)
    as (_ & _ & _ & _ & _ & _ & Hreplay);
    [exact R2 | crunch | crunch | crunch |].
  destruct (commitment_binding pack_commit32 pack_seed world_alice_revealed 1 alice bob)
    as (_ & _ & _ & Hagain & _);
    [exact R3 | crunch | crunch | crunch |].
  split; [exact R1|]. split; [|split; [|split; [|split; [|split; [|split; [|split]]]]]].
  - destruct (Hok Rock 7) as (s' & Hs' & _ & Hch);
      [discriminate | crunch | crunch | (vm_compute; discriminate) |].
    exists s'. split; [exact Hs' | exact Hch].
  - apply (proj2 (Hother Rock 7 Paper 7 ltac:(crunch) ltac:(discriminate))).
    vm_compute. discriminate.
  - apply Hnone.
  - exact R2.
  - crunch.
  - apply (proj2 (Hreplay Rock 7 Rock 7 ltac:(crunch) ltac:(crunch) ltac:(discriminate))).
    vm_compute. discriminate.
  - exact R3.
  - apply (Hagain Rock 7); [discriminate | crunch | crunch].
Defined.

(** C5 as worded fails where the recomputed hash is the stored one and the
    call reverts all the same: [alice] committed to [None] and opens that
    commitment ("Invalid choice"), and [alice] repeats the reveal she has
    made ("Already revealed"). *)
Lemma matching_reveal_is_not_enough :
  (reachable pack_commit pack_seed world_committed_none /\
   0 < revealDeadline (game (storage world_committed_none) 1) /\
   timestamp (block world_committed_none) <=
     revealDeadline (game (storage world_committed_none) 1) /\
   participants (game (storage world_committed_none) 1) alice bob /\
   commitment_of (game (storage world_committed_none) 1) alice <> 0 /\
   pack_commit CNone 7 alice =
     commitment_of (game (storage world_committed_none) 1) alice /\
   revealChoice pack_commit alice (block world_committed_none) 1 CNone 7
     (storage world_committed_none) = Revert InvalidChoice) /\
  (pack_commit Rock 7 alice = commitment_of (game (storage world_alice_revealed) 1) alice /\
   revealChoice pack_commit alice (block world_alice_revealed) 1 Rock 7
     (storage world_alice_revealed) = Revert AlreadyRevealed) /\
  ~ (forall w gameId p q choice nonce,
       reachable pack_commit pack_seed w ->
       0 < revealDeadline (game (storage w) gameId) ->
       timestamp (block w) <= revealDeadline (game (storage w) gameId) ->
       participants (game (storage w) gameId) p q ->
       commitment_of (game (storage w) gameId) p <> 0 ->
       ((exists s',
           revealChoice pack_commit p (block w) gameId choice nonce (storage w) = Ok s') <->
        pack_commit choice nonce p = commitment_of (game (storage w) gameId) p)).
Proof.
  split; [split; [reach | crunch] |]. split; [crunch|].
  intros H.
  destruct (H world_committed_none 1 alice bob CNone 7) as [_ Hback];
    [reach | crunch | crunch | crunch | crunch |].
  destruct Hback as [s' Hs']; [crunch|].
  vm_compute in Hs'. discriminate Hs'.
Qed.

(** Binding is as strong as the commitment function and no stronger: under
    the packing cut to 32 bytes, [alice] commits to [(Rock, 254)] and opens
    the commitment with the colliding pair [(Rock, 255)]. *)
Example collision_opens_commitment :
  commitment_of (game (storage world_committed_low) 1) alice =
    pack_commit32 Rock 254 alice /\
  exists s',
    revealChoice pack_commit32 alice (block world_committed_low) 1 Rock 255
      (storage world_committed_low) = Ok s' /\
    revealed (game s' 1) alice = true.
Proof.
  split; [vm_compute; reflexivity|].
  exists (after (revealChoice pack_commit32 alice (block world_committed_low) 1 Rock 255
                   (storage world_committed_low)) (storage world_committed_low)).
  vm_compute. split; reflexivity.
Qed.

Lemma resolution_runs_once_witness :
  reachable pack_commit pack_seed world_resolved /\
  resolved (storage world_resolved) 1 /\
  handleExpiredGame (block world_resolved_later) 1 (storage world_resolved_later) =
    Revert GameAlreadyCompleted /\
  handleExpiredGame (block world_resolved) 1 (storage world_resolved) =
    Revert GameNotExpired.
Proof.
  split; [reach|]. split; [crunch|]. split.
  - apply (resolution_runs_once pack_commit pack_seed world_resolved world_resolved_later 1);
      [reach | crunch |].
    apply act_steps.
  - apply (resolution_runs_once pack_commit pack_seed world_resolved world_resolved 1);
      [reach | crunch | apply steps_refl].
Defined.

(** C4 as worded fails on the game that [alice] and [bob] resolved by their
    two reveals before the reveal deadline: a sweep in that same block
    reverts with "Game not expired", not with "Game already completed". *)
Lemma sweep_after_resolution_not_always_state_error :
  (resolved (storage world_resolved) 1 /\
   timestamp (block world_resolved) <= revealDeadline (game (storage world_resolved) 1) /\
   handleExpiredGame (block world_resolved) 1 (storage world_resolved) =
     Revert GameNotExpired) /\
  ~ (forall w gameId,
       reachable pack_commit pack_seed w -> resolved (storage w) gameId ->
       handleExpiredGame (block w) gameId (storage w) = Revert GameAlreadyCompleted).
Proof.
  split; [crunch|].
  intros H.
  specialize (H world_resolved 1 ltac:(reach)).
  assert (Hres : resolved (storage world_resolved) 1) by crunch.
  specialize (H Hres). vm_compute in H. discriminate H.
Qed.

Lemma stalled_commit_is_never_swept_witness :
  reachable pack_commit pack_seed world_commit_stalled /\
  handleExpiredGame (block world_commit_stalled_later) 1
    (storage world_commit_stalled_later) = Revert GameNotExpired.
Proof.
  split; [reach|].
  apply (stalled_commit_is_never_swept pack_commit pack_seed world_commit_stalled
           world_commit_stalled_later 1);
    [reach | crunch | crunch | crunch | apply act_steps].
Defined.

(** C2 as worded fails on the game [bob] joined and only [alice] committed
    to: after the commit deadline the sweep reverts. *)
Lemma sweep_does_not_resolve_stalled_commit :
  (player2 (game (storage world_commit_stalled) 1) = bob /\
   commitDeadline (game (storage world_commit_stalled) 1) <
     timestamp (block world_commit_stalled) /\
   player2CommitHash (game (storage world_commit_stalled) 1) = 0 /\
   handleExpiredGame (block world_commit_stalled) 1 (storage world_commit_stalled) =
     Revert GameNotExpired) /\
  ~ (forall w gameId,
       reachable pack_commit pack_seed w ->
       player1 (game (storage w) gameId) <> 0 ->
       player2 (game (storage w) gameId) <> 0 ->
       commitDeadline (game (storage w) gameId) < timestamp (block w) ->
       player1CommitHash (game (storage w) gameId) = 0 \/
       player2CommitHash (game (storage w) gameId) = 0 ->
       exists s', handleExpiredGame (block w) gameId (storage w) = Ok s').
Proof.
  split; [crunch|].
  intros H.
  destruct (H world_commit_stalled 1) as [s' Hs'];
    [reach | crunch | crunch | crunch | crunch |].
  vm_compute in Hs'. discriminate Hs'.
Qed.

Lemma cancel_twice_refunds_twice_witness :
  cancelGame alice (block world_created) 1 (storage world_created) =
    Ok (storage world_cancelled) /\
  exists s2,
    cancelGame alice (block world_cancelled) 1 (storage world_cancelled) = Ok s2 /\
    balance s2 alice = 2 * stake.
Proof.
  split; [crunch|].
  destruct (cancel_twice_refunds_twice alice (block world_created) (block world_cancelled)
              1 (storage world_created) (storage world_cancelled))
    as (_ & _ & s2 & Hs2 & Hb); [crunch | crunch | crunch |].
  exists s2. split; [exact Hs2 | exact Hb].
Defined.

Lemma cancel_needs_no_waiting_witness :
  createGame alice stake (storage genesis) = Ok (storage world_created) /\
  exists s2,
    cancelGame alice (block genesis) 1 (storage world_created) = Ok s2 /\
    balance s2 alice = stake /\ isCompleted (game s2 1) = true.
Proof.
  split; [crunch|].
  destruct (cancel_needs_no_waiting alice stake (block genesis) (storage genesis)
              (storage world_created))
    as (s2 & Hs2 & Hb & Hc & _); [crunch | crunch | crunch |].
  exists s2. split; [exact Hs2|]. split; [exact Hb | exact Hc].
Defined.

(** The double refund, run: one deposit of [stake], two cancellations, and a
    balance of twice the stake. *)
Example double_cancel_runs :
  balance (storage world_created) alice = 0 /\
  balance (storage world_cancelled) alice = stake /\
  isCompleted (game (storage world_cancelled) 1) = true /\
  balance (storage world_cancelled_twice) alice = 2 * stake.
Proof. vm_compute. repeat split; reflexivity. Qed.

(** A cancelled game still accepts a second player: [joinGame] does not look
    at [isCompleted] either. *)
Example join_after_cancel_runs :
  isCompleted (game (storage world_cancelled) 1) = true /\
  player2 (game (storage world_cancelled_joined) 1) = bob /\
  commitDeadline (game (storage world_cancelled_joined) 1) = 5300 /\
  balance (storage world_cancelled_joined) alice = stake.
Proof. vm_compute. repeat split; reflexivity. Qed.

(** A reentrant withdrawal is stopped by the guard and by the zeroed balance. *)
Example reentrant_withdraw_runs :
  let s := storage world_resolved in
  nested_calls pack_commit pack_seed (reentering alice) (block world_resolved)
    (at_transfer alice s) =
    [ (alice, WithdrawBalance (Finish true), Revert ReentrancyGuardReentrantCall) ] /\
  balance (after (exec pack_commit pack_seed (WithdrawBalance accepting) alice
                    (block world_resolved) s) s) alice = 0 /\
  exec pack_commit pack_seed (WithdrawBalance rejecting) alice (block world_resolved) s =
    Revert WithdrawalFailed.
Proof. vm_compute. repeat split; reflexivity. Qed.

(** The end-to-end scenario: Rock against Scissors credits the whole pot to
    [alice], whose withdrawal then empties her balance and sends the pot. *)
Example end_to_end_runs :
  result (game (storage world_resolved) 1) = Player1Wins /\
  balance (storage world_resolved) alice = 2 * stake /\
  balance (storage world_resolved) bob = 0 /\
  balance (storage world_withdrawn) alice = 0 /\
  sent (storage world_withdrawn) = [ (alice, 2 * stake) ].
Proof. vm_compute. repeat split; reflexivity. Qed.

(** Mutual silence: nobody reveals, a third party sweeps after the deadline,
    and each player gets the own stake back. *)
Example mutual_silence_runs :
  result (game (storage world_swept_silent) 1) = Expired /\
  balance (storage world_swept_silent) alice = stake /\
  balance (storage world_swept_silent) bob = stake /\
  resolved (storage world_swept_silent) 1.
Proof. vm_compute. repeat split; reflexivity. Qed.

(** * Further properties

    The remaining view functions [getPlayerGames] and [isGameReadyToPlay],
    more invariants of the storage, and what the functions do at their
    edges. *)

(** * The index of games per player *)

Section Index.

Variable commit_hash : Choice -> uint256 -> address -> bytes32.
Variable seed_hash :
  uint256 -> uint256 -> address -> address -> bytes32 -> bytes32 -> uint256 -> uint256.

Lemma commitChoice_playerGames sender blk gameId commitHash s s' :
  commitChoice seed_hash sender blk gameId commitHash s = Ok s' ->
  playerGames s' = playerGames s.
Proof.
  intros H. unfold commitChoice, _generateRandomSeed in H.
  ok_inv; subst; reflexivity.
Qed.

Lemma _determineWinner_playerGames gameId s s' :
  _determineWinner gameId s = Ok s' -> playerGames s' = playerGames s.
Proof.
  intros H. unfold _determineWinner, _distributeFunds in H.
  repeat match type of H with
         | context [if ?b then _ else _] => destruct b
         end;
    ok_inv; subst; credit_inv; reflexivity.
Qed.

Lemma revealChoice_playerGames sender blk gameId choice nonce s s' :
  revealChoice commit_hash sender blk gameId choice nonce s = Ok s' ->
  playerGames s' = playerGames s.
Proof.
  intros H. unfold revealChoice in H.
  ok_inv; subst;
    try match goal with
    | E : _determineWinner _ _ = Ok _ |- _ =>
        apply _determineWinner_playerGames in E; rewrite E
    end; reflexivity.
Qed.

Lemma handleExpiredGame_playerGames blk gameId s s' :
  handleExpiredGame blk gameId s = Ok s' -> playerGames s' = playerGames s.
Proof.
  intros H. unfold handleExpiredGame in H.
  ok_inv; subst; credit_inv; reflexivity.
Qed.

Lemma cancelGame_playerGames sender blk gameId s s' :
  cancelGame sender blk gameId s = Ok s' -> playerGames s' = playerGames s.
Proof.
  intros H. unfold cancelGame in H.
  ok_inv; subst; credit_inv; reflexivity.
Qed.

Lemma getPlayerGames_push a gameId s b :
  getPlayerGames (push_playerGame a gameId s) b =
  if decide (a = b) then getPlayerGames s a ++ [gameId] else getPlayerGames s b.
Proof.
  unfold getPlayerGames, push_playerGame; cbn. rewrite lookup_insert.
  destruct (decide (a = b)); reflexivity.
Qed.

Lemma createGame_playerGames sender value s s' b :
  createGame sender value s = Ok s' ->
  getPlayerGames s' b =
  if decide (sender = b) then getPlayerGames s sender ++ [nextGameId s]
  else getPlayerGames s b.
Proof.
  intros H. unfold createGame, nonReentrant in H.
  ok_inv; subst.
  unfold getPlayerGames, push_playerGame; cbn. rewrite lookup_insert.
  destruct (decide (sender = b)); reflexivity.
Qed.

Lemma joinGame_playerGames sender value blk gameId s s' b :
  joinGame sender value blk gameId s = Ok s' ->
  getPlayerGames s' b =
  if decide (sender = b) then getPlayerGames s sender ++ [gameId]
  else getPlayerGames s b.
Proof.
  intros H. unfold joinGame, nonReentrant in H.
  ok_inv; subst.
  unfold getPlayerGames, push_playerGame; cbn. rewrite lookup_insert.
  destruct (decide (sender = b)); reflexivity.
Qed.

End Index.

(** Preservation once more, for invariants that also speak of the lists of
    games: what every function keeps, and a change of block does not break,
    holds along every execution. *)
Section PreservationFull.

Variable commit_hash : Choice -> uint256 -> address -> bytes32.
Variable seed_hash :
  uint256 -> uint256 -> address -> address -> bytes32 -> bytes32 -> uint256 -> uint256.
Variable I : uint256 -> State -> Prop.

Hypothesis I_mono : forall now now' s, now <= now' -> I now s -> I now' s.
Hypothesis I_storage : forall now s s',
  games s' = games s -> playerGames s' = playerGames s ->
  nextGameId s' = nextGameId s -> I now s -> I now s'.
Hypothesis I_createGame : forall blk sender value s s',
  createGame sender value s = Ok s' -> I (timestamp blk) s -> I (timestamp blk) s'.
Hypothesis I_joinGame : forall blk sender value gameId s s',
  joinGame sender value blk gameId s = Ok s' -> I (timestamp blk) s -> I (timestamp blk) s'.
Hypothesis I_commitChoice : forall blk sender gameId commitHash s s',
  commitChoice seed_hash sender blk gameId commitHash s = Ok s' ->
  I (timestamp blk) s -> I (timestamp blk) s'.
Hypothesis I_revealChoice : forall blk sender gameId choice nonce s s',
  revealChoice commit_hash sender blk gameId choice nonce s = Ok s' ->
  I (timestamp blk) s -> I (timestamp blk) s'.
Hypothesis I_handleExpiredGame : forall blk gameId s s',
  handleExpiredGame blk gameId s = Ok s' -> I (timestamp blk) s -> I (timestamp blk) s'.
Hypothesis I_cancelGame : forall blk sender gameId s s',
  cancelGame sender blk gameId s = Ok s' -> I (timestamp blk) s -> I (timestamp blk) s'.

Lemma exec_keeps blk c :
  forall sender s s',
    exec commit_hash seed_hash c sender blk s = Ok s' ->
    I (timestamp blk) s -> I (timestamp blk) s'.
Proof.
  induction c using Call_Callee_ind with
    (P0 := fun r => forall s ok s',
             run commit_hash seed_hash r blk s = (ok, s') ->
             I (timestamp blk) s -> I (timestamp blk) s').
  - intros ? ? ? H; cbn in H; eauto.
  - intros ? ? ? H; cbn in H; eauto.
  - intros ? ? ? H; cbn in H; eauto.
  - intros ? ? ? H; cbn in H; eauto.
  - intros ? ? ? H; cbn in H; eauto.
  - intros sender s s' H Hs. rewrite exec_WithdrawBalance in H.
    apply withdrawBalance_effect in H as (_ & _ & s2 & Hc & ->).
    apply external_call_true in Hc as (s1 & Hc & ->).
    eapply I_storage with (s := s1); [reflexivity | reflexivity | reflexivity |].
    eapply IHc; [exact Hc|].
    eapply I_storage; [| | | exact Hs]; reflexivity.
  - intros ? ? ? H; cbn in H; eauto.
  - intros s ok s' H Hs. rewrite run_Finish in H. injection H as _ <-. exact Hs.
  - intros s ok s' H0 Hs. rewrite run_Observe in H0. eauto.
  - intros s ok s' H0 Hs. rewrite run_Reenter in H0.
    eapply H; [exact H0|].
    destruct (exec commit_hash seed_hash c caller blk s) eqn:E; cbn [after]; eauto.
Qed.

Lemma steps_keep w w' :
  steps commit_hash seed_hash w w' ->
  I (timestamp (block w)) (storage w) -> I (timestamp (block w')) (storage w').
Proof.
  induction 1 as [| w w' w'' _ IH Hstep]; [auto|]. intros Hw.
  specialize (IH Hw).
  destruct Hstep as [w0 sender c s' Hc | w0 blk Hle]; cbn [storage block].
  - eauto using exec_keeps.
  - eauto.
Qed.

Lemma reachable_keeps w :
  (forall now, I now initial_state) ->
  reachable commit_hash seed_hash w -> I (timestamp (block w)) (storage w).
Proof.
  intros Hinit H. apply reachable_steps in H as [blk H].
  apply steps_keep in H; [exact H | apply Hinit].
Qed.

End PreservationFull.

(** * The shape of stored games *)

Lemma decided_not_pending c1 c2 : decided c1 c2 <> Pending.
Proof.
  unfold decided.
  repeat match goal with |- context [if ?b then _ else _] => destruct b end;
    discriminate.
Qed.

Lemma swept_not_pending g : swept g <> Pending.
Proof.
  unfold swept.
  repeat match goal with |- context [if ?b then _ else _] => destruct b end;
    discriminate.
Qed.

Lemma game_shape_zero : game_shape zero_game.
Proof. constructor; cbn; intuition (try congruence; try discriminate). Qed.

Ltac game_shape_tac Hsh :=
  destruct Hsh as [Hst Hh1 Hh2 Hres];
  constructor; proj_simpl;
  try solve [intuition (try lia; try congruence; try discriminate)].

Section Shape.

Variable commit_hash : Choice -> uint256 -> address -> bytes32.
Variable seed_hash :
  uint256 -> uint256 -> address -> address -> bytes32 -> bytes32 -> uint256 -> uint256.

Lemma state_shape_update gameId s s' :
  state_shape s ->
  only_game_changed gameId s s' ->
  player1 (game s' gameId) = player1 (game s gameId) ->
  game_shape (game s' gameId) ->
  state_shape s'.
Proof.
  intros [Hz Hsh] (Hfr & _) Hp1 Hg. split.
  - destruct (decide (0 = gameId)) as [<-|Hne]; [congruence|].
    rewrite Hfr by assumption. exact Hz.
  - intros gameId'. destruct (decide (gameId' = gameId)) as [->|Hne].
    + exact Hg.
    + rewrite Hfr by assumption. apply Hsh.
Qed.

Lemma createGame_state_shape sender value s s' :
  createGame sender value s = Ok s' ->
  fresh_above s -> state_shape s -> state_shape s'.
Proof.
  intros H [Hone _] [Hz Hsh].
  apply createGame_effect in H as (_ & Hmin & _ & _ & _ & Hg & Hfr & _).
  split.
  - rewrite Hfr by lia. exact Hz.
  - intros gameId. destruct (decide (gameId = nextGameId s)) as [->|Hne].
    + rewrite Hg. constructor; cbn; intuition (try congruence; try discriminate).
    + rewrite Hfr by assumption. apply Hsh.
Qed.

Lemma joinGame_state_shape sender value blk gameId s s' :
  joinGame sender value blk gameId s = Ok s' -> state_shape s -> state_shape s'.
Proof.
  intros H Hs. pose proof Hs as [_ Hsh]. specialize (Hsh gameId).
  apply joinGame_effect in H as (_ & _ & _ & _ & _ & _ & Hfr & _ & Hg).
  eapply state_shape_update; [exact Hs | exact Hfr | |];
    rewrite Hg; proj_simpl; try reflexivity; game_shape_tac Hsh.
Qed.

Lemma commitChoice_state_shape sender blk gameId commitHash s s' :
  commitChoice seed_hash sender blk gameId commitHash s = Ok s' ->
  state_shape s -> state_shape s'.
Proof.
  intros H Hs. pose proof Hs as [_ Hsh]. specialize (Hsh gameId).
  apply commitChoice_effect in H
    as (_ & _ & _ & _ & Hfr & _ & g1 & Hg1 & Hg').
  eapply state_shape_update; [exact Hs | exact Hfr | |];
    destruct Hg1 as [(? & ? & ->) | (? & ? & ? & ->)];
    destruct Hg' as [(? & ? & ? & seed & ->) | (? & ->)];
    proj_simpl; try reflexivity; game_shape_tac Hsh.
Qed.

Lemma revealChoice_state_shape sender blk gameId choice nonce s s' :
  revealChoice commit_hash sender blk gameId choice nonce s = Ok s' ->
  state_shape s -> state_shape s'.
Proof.
  intros H Hs. pose proof Hs as [_ Hsh]. specialize (Hsh gameId).
  apply revealChoice_effect in H as (_ & _ & Hc & Hfr & g1 & Hg1 & Hg').
  pose proof decided_not_pending.
  eapply state_shape_update; [exact Hs | exact Hfr | |];
    destruct Hg1 as [(? & ? & ? & ->) | (? & ? & ? & ? & ->)];
    destruct Hg' as [(? & ? & ? & ? & -> & _) | (? & -> & _)];
    proj_simpl; try reflexivity; game_shape_tac Hsh.
Qed.

Lemma handleExpiredGame_state_shape blk gameId s s' :
  handleExpiredGame blk gameId s = Ok s' -> state_shape s -> state_shape s'.
Proof.
  intros H Hs. pose proof Hs as [_ Hsh]. specialize (Hsh gameId).
  apply handleExpiredGame_effect in H as (_ & _ & _ & Hfr & Hg & _).
  pose proof (swept_not_pending (game s gameId)).
  eapply state_shape_update; [exact Hs | exact Hfr | |];
    rewrite Hg; proj_simpl; try reflexivity; game_shape_tac Hsh.
Qed.

Lemma cancelGame_state_shape sender blk gameId s s' :
  cancelGame sender blk gameId s = Ok s' -> state_shape s -> state_shape s'.
Proof.
  intros H Hs. pose proof Hs as [_ Hsh]. specialize (Hsh gameId).
  apply cancelGame_effect in H as (_ & _ & _ & Hfr & Hg & _).
  eapply state_shape_update; [exact Hs | exact Hfr | |];
    rewrite Hg; proj_simpl; try reflexivity; game_shape_tac Hsh.
Qed.

End Shape.

(** * The index is kept by every function *)

Lemma index_inv_same s s' :
  playerGames s' = playerGames s ->
  nextGameId s' = nextGameId s ->
  (forall gameId, player1 (game s' gameId) = player1 (game s gameId) /\
                  player2 (game s' gameId) = player2 (game s gameId)) ->
  index_inv s -> index_inv s'.
Proof.
  intros Hpg Hn Hp [Hrange Hidx]. unfold index_inv, getPlayerGames in *.
  rewrite Hpg, Hn. split; [exact Hrange|].
  intros a Ha. destruct (Hidx a Ha) as [Hnd Hin]. split; [exact Hnd|].
  intros gameId. destruct (Hp gameId) as [-> ->]. apply Hin.
Qed.

Lemma players_update gameId s s' :
  only_game_changed gameId s s' ->
  player1 (game s' gameId) = player1 (game s gameId) ->
  player2 (game s' gameId) = player2 (game s gameId) ->
  forall gameId', player1 (game s' gameId') = player1 (game s gameId') /\
                  player2 (game s' gameId') = player2 (game s gameId').
Proof.
  intros (Hfr & _) H1 H2 gameId'.
  destruct (decide (gameId' = gameId)) as [->|Hne]; [auto|].
  rewrite Hfr by assumption. auto.
Qed.

Section IndexInv.

Variable commit_hash : Choice -> uint256 -> address -> bytes32.
Variable seed_hash :
  uint256 -> uint256 -> address -> address -> bytes32 -> bytes32 -> uint256 -> uint256.

Lemma commitChoice_index_inv sender blk gameId commitHash s s' :
  commitChoice seed_hash sender blk gameId commitHash s = Ok s' ->
  index_inv s -> index_inv s'.
Proof.
  intros H. pose proof (commitChoice_playerGames _ _ _ _ _ _ _ H) as Hpg.
  apply commitChoice_effect in H
    as (_ & _ & _ & _ & Hfr & _ & g1 & Hg1 & Hg').
  apply index_inv_same; [exact Hpg | apply Hfr |].
  apply (players_update gameId); [exact Hfr | |];
    destruct Hg1 as [(? & ? & ->) | (? & ? & ? & ->)];
    destruct Hg' as [(? & ? & ? & seed & ->) | (? & ->)];
    reflexivity.
Qed.

Lemma revealChoice_index_inv sender blk gameId choice nonce s s' :
  revealChoice commit_hash sender blk gameId choice nonce s = Ok s' ->
  index_inv s -> index_inv s'.
Proof.
  intros H. pose proof (revealChoice_playerGames _ _ _ _ _ _ _ _ H) as Hpg.
  apply revealChoice_effect in H as (_ & _ & _ & Hfr & g1 & Hg1 & Hg').
  apply index_inv_same; [exact Hpg | apply Hfr |].
  apply (players_update gameId); [exact Hfr | |];
    destruct Hg1 as [(? & ? & ? & ->) | (? & ? & ? & ? & ->)];
    destruct Hg' as [(? & ? & ? & ? & -> & _) | (? & -> & _)];
    reflexivity.
Qed.

Lemma handleExpiredGame_index_inv blk gameId s s' :
  handleExpiredGame blk gameId s = Ok s' -> index_inv s -> index_inv s'.
Proof.
  intros H. pose proof (handleExpiredGame_playerGames _ _ _ _ H) as Hpg.
  apply handleExpiredGame_effect in H as (_ & _ & _ & Hfr & Hg & _).
  apply index_inv_same; [exact Hpg | apply Hfr |].
  apply (players_update gameId); [exact Hfr | |]; rewrite Hg; reflexivity.
Qed.

Lemma cancelGame_index_inv sender blk gameId s s' :
  cancelGame sender blk gameId s = Ok s' -> index_inv s -> index_inv s'.
Proof.
  intros H. pose proof (cancelGame_playerGames _ _ _ _ _ H) as Hpg.
  apply cancelGame_effect in H as (_ & _ & _ & Hfr & Hg & _).
  apply index_inv_same; [exact Hpg | apply Hfr |].
  apply (players_update gameId); [exact Hfr | |]; rewrite Hg; reflexivity.
Qed.

Lemma createGame_index_inv sender value s s' :
  createGame sender value s = Ok s' ->
  fresh_above s -> index_inv s -> index_inv s'.
Proof.
  intros H [Hone Hfresh] [Hrange Hidx].
  pose proof (fun b => createGame_playerGames sender value s s' b H) as Hpg.
  apply createGame_effect in H as (_ & _ & _ & Hn & _ & Hg & Hfr & _).
  assert (Hnew : forall a, ~ In (nextGameId s) (getPlayerGames s a)).
  { intros a Hin. apply Hrange in Hin. lia. }
  split.
  - intros a gameId. rewrite Hpg, Hn.
    destruct (decide (sender = a)) as [->|Hne].
    + rewrite in_app_iff. intros [Hin | [<- | []]]; [apply Hrange in Hin|]; lia.
    + intros Hin. apply Hrange in Hin. lia.
  - intros a Ha. destruct (Hidx a Ha) as [Hnd Hin]. rewrite Hpg.
    destruct (decide (sender = a)) as [->|Hne]; split.
    + apply NoDup_app. repeat split; [exact Hnd | | apply NoDup_singleton].
      intros x Hx [<- | []]%list_elem_of_In. apply (Hnew a).
      apply list_elem_of_In. exact Hx.
    + intros gameId. rewrite in_app_iff.
      destruct (decide (gameId = nextGameId s)) as [->|Hne].
      * rewrite Hg; cbn. intuition.
      * rewrite Hfr by assumption. rewrite <- Hin. cbn. intuition congruence.
    + exact Hnd.
    + intros gameId. destruct (decide (gameId = nextGameId s)) as [->|Hne'].
      * rewrite Hg; cbn. split; [intros Hx; destruct (Hnew a Hx)|].
        intros [?|?]; congruence.
      * rewrite Hfr by assumption. apply Hin.
Qed.

Lemma joinGame_index_inv sender value blk gameId s s' :
  joinGame sender value blk gameId s = Ok s' ->
  fresh_above s -> state_shape s -> index_inv s -> index_inv s'.
Proof.
  intros H [Hone Hfresh] [Hz _] [Hrange Hidx].
  pose proof (fun b => joinGame_playerGames sender value blk gameId s s' b H) as Hpg.
  apply joinGame_effect in H
    as (_ & Hp1 & Hp2 & Hsender & _ & _ & (Hfr & Hn & _) & _ & Hg).
  assert (Hid : 1 <= gameId < nextGameId s).
  { split.
    - destruct (decide (gameId = 0)) as [->|]; [congruence | lia].
    - destruct (N.lt_ge_cases gameId (nextGameId s)) as [|Hge]; [assumption|].
      apply Hfresh in Hge. congruence. }
  split.
  - intros a gameId'. rewrite Hpg, Hn.
    destruct (decide (sender = a)) as [->|Hne].
    + rewrite in_app_iff. intros [Hin | [<- | []]]; [apply Hrange in Hin|]; lia.
    + intros Hin. apply Hrange in Hin. lia.
  - intros a Ha. destruct (Hidx a Ha) as [Hnd Hin]. rewrite Hpg.
    destruct (decide (sender = a)) as [->|Hne]; split.
    + apply NoDup_app. repeat split; [exact Hnd | | apply NoDup_singleton].
      intros x Hx [<- | []]%list_elem_of_In.
      apply list_elem_of_In, Hin in Hx. destruct Hx; congruence.
    + intros gameId'. rewrite in_app_iff.
      destruct (decide (gameId' = gameId)) as [->|Hne].
      * rewrite Hg; cbn. intuition.
      * rewrite Hfr by assumption. rewrite <- Hin. cbn. intuition congruence.
    + exact Hnd.
    + intros gameId'. destruct (decide (gameId' = gameId)) as [->|Hne'].
      * rewrite Hg, Hin; cbn. intuition congruence.
      * rewrite Hfr by assumption. apply Hin.
Qed.

End IndexInv.

(** * The invariants hold in every reachable world *)

Lemma contract_inv_initial now : contract_inv now initial_state.
Proof.
  split; [apply state_inv_initial|]. split.
  - split; [reflexivity|]. intros gameId. apply game_shape_zero.
  - split.
    + intros a gameId [].
    + intros a Ha. split; [constructor|].
      intros gameId. change (False <-> (0 = a \/ 0 = a)). intuition congruence.
Qed.

Section ContractInv.

Variable commit_hash : Choice -> uint256 -> address -> bytes32.
Variable seed_hash :
  uint256 -> uint256 -> address -> address -> bytes32 -> bytes32 -> uint256 -> uint256.

Lemma steps_contract_inv w w' :
  steps commit_hash seed_hash w w' ->
  contract_inv (timestamp (block w)) (storage w) ->
  contract_inv (timestamp (block w')) (storage w').
Proof.
  apply (steps_keep commit_hash seed_hash contract_inv).
  - intros now now' s Hle (Hs & Hsh & Hi).
    split; [eapply state_inv_mono; eassumption | split; assumption].
  - intros now s s' Hg Hpg Hn (Hs & Hsh & Hi). split; [|split].
    + eapply state_inv_storage; [| exact Hn | exact Hs].
      intros gameId. unfold game. rewrite Hg. reflexivity.
    + unfold state_shape, game in *. rewrite Hg. exact Hsh.
    + unfold index_inv, getPlayerGames, game in *. rewrite Hg, Hpg, Hn. exact Hi.
  - intros blk sender value s s' H ([Hf Hinv] & Hsh & Hi). split; [|split].
    + assert (Hs : state_inv (timestamp blk) s) by (split; assumption).
      eapply createGame_state_inv; eauto.
    + eapply createGame_state_shape; eassumption.
    + eapply createGame_index_inv; eassumption.
  - intros blk sender value gameId s s' H ([Hf Hinv] & Hsh & Hi). split; [|split].
    + assert (Hs : state_inv (timestamp blk) s) by (split; assumption).
      eapply joinGame_state_inv; eauto.
    + eapply joinGame_state_shape; eassumption.
    + eapply joinGame_index_inv; eassumption.
  - intros blk sender gameId commitHash s s' H (Hs & Hsh & Hi). split; [|split].
    + eapply commitChoice_state_inv; eassumption.
    + eapply commitChoice_state_shape; eassumption.
    + eapply commitChoice_index_inv; eassumption.
  - intros blk sender gameId choice nonce s s' H (Hs & Hsh & Hi). split; [|split].
    + eapply revealChoice_state_inv; eassumption.
    + eapply revealChoice_state_shape; eassumption.
    + eapply revealChoice_index_inv; eassumption.
  - intros blk gameId s s' H (Hs & Hsh & Hi). split; [|split].
    + eapply handleExpiredGame_state_inv; eassumption.
    + eapply handleExpiredGame_state_shape; eassumption.
    + eapply handleExpiredGame_index_inv; eassumption.
  - intros blk sender gameId s s' H (Hs & Hsh & Hi). split; [|split].
    + eapply cancelGame_state_inv; eassumption.
    + eapply cancelGame_state_shape; eassumption.
    + eapply cancelGame_index_inv; eassumption.
Qed.

Lemma reachable_contract_inv w :
  reachable commit_hash seed_hash w ->
  contract_inv (timestamp (block w)) (storage w).
Proof.
  intros H. apply reachable_steps in H as [blk H].
  apply steps_contract_inv in H; [exact H | apply contract_inv_initial].
Qed.

End ContractInv.

(** * Creating a game *)

(** X1.  With the guard clear and room in the identifier counter,
    [createGame] accepts exactly the stakes between [MIN_BET_AMOUNT] and
    [MAX_BET_AMOUNT], bounds included: a smaller value reverts with "Bet
    amount too low", a larger one with "Bet amount too high".  An accepted
    call stores a fresh game under the old [nextGameId] with the caller as
    player 1 and the value as stake, advances the counter by one, appends
    the identifier to the caller's list of games, and touches no other
    game, no other list and no balance. *)
Theorem createGame_accepts_valid_stakes (sender : address) (value : uint256) (s : State) :
  entered s = false ->
  nextGameId s < MAX_UINT256 ->
  (value < MIN_BET_AMOUNT -> createGame sender value s = Revert BetAmountTooLow) /\
  (MAX_BET_AMOUNT < value -> createGame sender value s = Revert BetAmountTooHigh) /\
  (MIN_BET_AMOUNT <= value <= MAX_BET_AMOUNT ->
   exists s',
     createGame sender value s = Ok s' /\
     nextGameId s' = nextGameId s + 1 /\
     game s' (nextGameId s) =
       mkGame sender 0 0 0 CNone CNone value 0 0 Pending false false false false 0 /\
     (forall gameId, gameId <> nextGameId s -> game s' gameId = game s gameId) /\
     getPlayerGames s' sender = getPlayerGames s sender ++ [nextGameId s] /\
     (forall a, a <> sender -> getPlayerGames s' a = getPlayerGames s a) /\
     same_balances s s').
Proof.
  intros He Hn.
  assert (MIN_BET_AMOUNT <= MAX_BET_AMOUNT) by (apply N.leb_le; vm_compute; reflexivity).
  split; [|split].
  - intros Hlo. unfold createGame, nonReentrant. rewrite He.
    apply N.leb_gt in Hlo. cbn [nextGameId set_entered]. rewrite Hlo. reflexivity.
  - intros Hhi. unfold createGame, nonReentrant. rewrite He.
    assert (E1 : (MIN_BET_AMOUNT <=? value) = true) by (apply N.leb_le; lia).
    apply N.leb_gt in Hhi. cbn [nextGameId set_entered]. rewrite E1, Hhi. reflexivity.
  - intros [Hlo Hhi].
    assert (Hok : exists s', createGame sender value s = Ok s').
    { unfold createGame, nonReentrant. rewrite He.
      apply N.leb_le in Hlo, Hhi. cbn [nextGameId set_entered]. rewrite Hlo, Hhi.
      cbn [require bind].
      assert (E : checked_add (nextGameId s) 1 = Ok (nextGameId s + 1))
        by (apply checked_add_ok; split; [reflexivity | lia]).
      rewrite E. cbn [bind]. eauto. }
    destruct Hok as [s' Hs']. exists s'. split; [exact Hs'|].
    pose proof (fun b => createGame_playerGames sender value s s' b Hs') as Hpg.
    apply createGame_effect in Hs' as (_ & _ & _ & Hn' & _ & Hg & Hfr & Hb).
    repeat split; try assumption.
    + rewrite Hpg. destruct (decide (sender = sender)); [reflexivity | congruence].
    + intros a Ha. rewrite Hpg. destruct (decide (sender = a)); [congruence | reflexivity].
Qed.

Lemma createGame_accepts_valid_stakes_witness :
  entered initial_state = false /\
  nextGameId initial_state < MAX_UINT256 /\
  createGame alice (MIN_BET_AMOUNT - 1) initial_state = Revert BetAmountTooLow /\
  createGame alice (MAX_BET_AMOUNT + 1) initial_state = Revert BetAmountTooHigh /\
  exists s',
    createGame alice MAX_BET_AMOUNT initial_state = Ok s' /\
    nextGameId s' = 2 /\ getPlayerGames s' alice = [1].
Proof.
  assert (He : entered initial_state = false) by reflexivity.
  assert (Hn : nextGameId initial_state < MAX_UINT256) by (vm_compute; reflexivity).
  split; [exact He|]. split; [exact Hn|].
  split; [|split].
  - apply (createGame_accepts_valid_stakes alice (MIN_BET_AMOUNT - 1) initial_state He Hn).
    vm_compute; reflexivity.
  - apply (createGame_accepts_valid_stakes alice (MAX_BET_AMOUNT + 1) initial_state He Hn).
    vm_compute; reflexivity.
  - destruct (createGame_accepts_valid_stakes alice MAX_BET_AMOUNT initial_state He Hn)
      as (_ & _ & Hok).
    destruct Hok as (s' & Hs' & Hn' & _ & _ & Hpg & _);
      [split; vm_compute; discriminate|].
    exists s'. split; [exact Hs'|]. split; [exact Hn' | exact Hpg].
Defined.

(** * Identifiers that name no game *)

Lemma uncreated_game now g :
  game_inv now g -> player1 g = 0 ->
  player2 g = 0 /\ player1CommitHash g = 0 /\ player2CommitHash g = 0 /\
  revealDeadline g = 0.
Proof.
  intros [Hbet Hpl Hun Hrp Hr1 Hr2 Hd Hb] Hp1.
  assert (Hp2 : player2 g = 0).
  { destruct (N.eq_dec (player2 g) 0) as [|Hne]; [assumption|].
    destruct (Hpl Hne). congruence. }
  destruct (Hun Hp2) as [Hc1 Hc2].
  repeat split; try assumption.
  destruct (N.eq_dec (revealDeadline g) 0) as [|Hne]; [assumption|].
  apply Hrp in Hne. destruct Hne. congruence.
Qed.

Section Unknown.

Variable commit_hash : Choice -> uint256 -> address -> bytes32.
Variable seed_hash :
  uint256 -> uint256 -> address -> address -> bytes32 -> bytes32 -> uint256 -> uint256.

(** X2.  In a reachable world, identifier 0 and every identifier at or
    above [nextGameId] name no game, and every function says so in its own
    way: [joinGame] reverts with "Game does not exist", [commitChoice] with
    "Game not ready", [revealChoice] with "Reveal phase not started",
    [handleExpiredGame] with "Game not expired", [cancelGame] by any nonzero
    caller with "Only game creator can cancel"; [isGameReadyToPlay] answers
    false and the identifier is in nobody's list of games. *)
Theorem unknown_game_rejected (w : World) (gameId : uint256) :
  reachable commit_hash seed_hash w ->
  gameId = 0 \/ nextGameId (storage w) <= gameId ->
  (forall sender value blk,
     joinGame sender value blk gameId (storage w) = Revert GameDoesNotExist) /\
  (forall sender blk commitHash,
     commitChoice seed_hash sender blk gameId commitHash (storage w) =
     Revert GameNotReady) /\
  (forall sender blk choice nonce,
     revealChoice commit_hash sender blk gameId choice nonce (storage w) =
     Revert RevealPhaseNotStarted) /\
  (forall blk, handleExpiredGame blk gameId (storage w) = Revert GameNotExpired) /\
  (forall sender blk,
     sender <> 0 ->
     cancelGame sender blk gameId (storage w) = Revert OnlyGameCreatorCanCancel) /\
  (forall blk, isGameReadyToPlay blk (storage w) gameId = false) /\
  (forall a, ~ In gameId (getPlayerGames (storage w) a)).
Proof.
  intros Hreach Hid.
  pose proof (reachable_not_entered _ _ _ Hreach) as He.
  destruct (reachable_contract_inv _ _ _ Hreach)
    as ([[Hone Hfresh] Hinv] & [Hz _] & [Hrange _]).
  assert (Hp1 : player1 (game (storage w) gameId) = 0).
  { destruct Hid as [-> | Hge]; [exact Hz | apply Hfresh; exact Hge]. }
  destruct (uncreated_game _ _ (Hinv gameId) Hp1) as (Hp2 & Hc1 & Hc2 & Hrd).
  repeat split.
  - intros sender value blk. unfold joinGame, nonReentrant. rewrite He.
    change (game (set_entered true (storage w)) gameId) with (game (storage w) gameId).
    rewrite Hp1. reflexivity.
  - intros sender blk commitHash. unfold commitChoice. rewrite Hp1. reflexivity.
  - intros sender blk choice nonce. unfold revealChoice. rewrite Hrd. reflexivity.
  - intros blk. apply handleExpiredGame_not_started. exact Hrd.
  - intros sender blk Hs. unfold cancelGame. rewrite Hp1.
    assert (E : (0 =? sender) = false) by (apply N.eqb_neq; congruence).
    rewrite E. reflexivity.
  - intros blk. unfold isGameReadyToPlay. rewrite Hp1. reflexivity.
  - intros a Hin. apply Hrange in Hin. destruct Hid as [-> | Hge]; lia.
Qed.

End Unknown.

Lemma unknown_game_rejected_witness :
  reachable pack_commit pack_seed world_joined /\
  (2 = 0 \/ nextGameId (storage world_joined) <= 2) /\
  joinGame carol stake (block world_joined) 2 (storage world_joined) =
    Revert GameDoesNotExist /\
  handleExpiredGame (block world_joined) 2 (storage world_joined) =
    Revert GameNotExpired /\
  isGameReadyToPlay (block world_joined) (storage world_joined) 2 = false.
Proof.
  assert (Hr : reachable pack_commit pack_seed world_joined) by reach.
  assert (Hid : 2 = 0 \/ nextGameId (storage world_joined) <= 2)
    by (right; vm_compute; discriminate).
  destruct (unknown_game_rejected pack_commit pack_seed world_joined 2 Hr Hid)
    as (Hj & _ & _ & Hs & _ & Hv & _).
  split; [exact Hr|]. split; [exact Hid|].
  split; [apply Hj|]. split; [apply Hs | apply Hv].
Defined.

(** * Walking along a script *)

Section Walk.

Variable commit_hash : Choice -> uint256 -> address -> bytes32.
Variable seed_hash :
  uint256 -> uint256 -> address -> address -> bytes32 -> bytes32 -> uint256 -> uint256.

Lemma steps_trans w1 w2 w3 :
  steps commit_hash seed_hash w1 w2 -> steps commit_hash seed_hash w2 w3 ->
  steps commit_hash seed_hash w1 w3.
Proof.
  intros H12 H23. induction H23 as [| w2 w3 w4 _ IH Hstep]; [exact H12|].
  eapply steps_cons; [exact (IH H12) | exact Hstep].
Qed.

Lemma steps_act a w0 w :
  steps commit_hash seed_hash w0 w ->
  steps commit_hash seed_hash w0 (act commit_hash seed_hash a w).
Proof. intros H. eapply steps_trans; [exact H | apply act_steps]. Qed.

End Walk.

(** * A game with two players *)

Section Full.

Variable commit_hash : Choice -> uint256 -> address -> bytes32.
Variable seed_hash :
  uint256 -> uint256 -> address -> address -> bytes32 -> bytes32 -> uint256 -> uint256.

(** X3.  Once a game of a reachable world has its second player, the seats
    are taken for good: in every later world both players, the stake and the
    commit deadline are what they were, every [joinGame] reverts with "Game
    already has two players", and every [cancelGame] reverts, with "Cannot
    cancel game with two players" for the creator and "Only game creator can
    cancel" for anybody else. *)
Theorem full_game_stays_full (w w' : World) (gameId : uint256) :
  reachable commit_hash seed_hash w ->
  steps commit_hash seed_hash w w' ->
  player2 (game (storage w) gameId) <> 0 ->
  player1 (game (storage w') gameId) = player1 (game (storage w) gameId) /\
  player2 (game (storage w') gameId) = player2 (game (storage w) gameId) /\
  betAmount (game (storage w') gameId) = betAmount (game (storage w) gameId) /\
  commitDeadline (game (storage w') gameId) = commitDeadline (game (storage w) gameId) /\
  (forall sender value blk,
     joinGame sender value blk gameId (storage w') = Revert GameAlreadyHasTwoPlayers) /\
  (forall sender blk,
     cancelGame sender blk gameId (storage w') =
     Revert (if decide (sender = player1 (game (storage w) gameId))
             then CannotCancelGameWithTwoPlayers else OnlyGameCreatorCanCancel)).
Proof.
  intros Hreach Hsteps Hp2.
  pose proof (reachable_state_inv _ _ _ Hreach) as Hs.
  pose proof (proj2 Hs gameId) as Hg.
  destruct (inv_players _ _ Hg Hp2) as [Hp1 _].
  pose proof (steps_game_le _ _ _ _ gameId Hs Hsteps Hp1) as Hle.
  destruct (le_player2 _ _ Hle Hp2) as [E2 Ed].
  pose proof (le_player1 _ _ Hle) as E1. pose proof (le_betAmount _ _ Hle) as Eb.
  pose proof (reachable_not_entered _ _ _ (steps_reachable _ _ _ _ Hreach Hsteps)) as He.
  repeat split; try assumption.
  - intros sender value blk. unfold joinGame, nonReentrant. rewrite He.
    change (game (set_entered true (storage w')) gameId) with (game (storage w') gameId).
    rewrite E1, E2.
    assert (X1 : negb (player1 (game (storage w) gameId) =? 0) = true) by bool_goal.
    assert (X2 : (player2 (game (storage w) gameId) =? 0) = false) by bool_goal.
    rewrite X1, X2. reflexivity.
  - intros sender blk. unfold cancelGame. rewrite E1, E2.
    destruct (decide (sender = player1 (game (storage w) gameId))) as [->|Hne].
    + rewrite N.eqb_refl.
      assert (X2 : (player2 (game (storage w) gameId) =? 0) = false) by bool_goal.
      rewrite X2. reflexivity.
    + assert (X1 : (player1 (game (storage w) gameId) =? sender) = false) by bool_goal.
      rewrite X1. reflexivity.
Qed.

End Full.

Lemma full_game_stays_full_witness :
  reachable pack_commit pack_seed world_joined /\
  steps pack_commit pack_seed world_joined world_resolved /\
  player2 (game (storage world_joined) 1) <> 0 /\
  player2 (game (storage world_resolved) 1) = bob /\
  joinGame carol stake (block world_resolved) 1 (storage world_resolved) =
    Revert GameAlreadyHasTwoPlayers /\
  cancelGame alice (block_at 9000) 1 (storage world_resolved) =
    Revert CannotCancelGameWithTwoPlayers.
Proof.
  assert (Hr : reachable pack_commit pack_seed world_joined) by reach.
  assert (Hst : steps pack_commit pack_seed world_joined world_resolved).
  { do 4 apply steps_act. apply steps_refl. }
  assert (Hp2 : player2 (game (storage world_joined) 1) <> 0) by (vm_compute; discriminate).
  destruct (full_game_stays_full pack_commit pack_seed world_joined world_resolved 1
              Hr Hst Hp2) as (_ & E2 & _ & _ & Hj & Hc).
  split; [exact Hr|]. split; [exact Hst|]. split; [exact Hp2|].
  split; [rewrite E2; vm_compute; reflexivity|].
  split; [apply Hj|]. rewrite Hc. vm_compute. reflexivity.
Defined.

(** * From joining to committing *)

Section Commit2.

Variable commit_hash : Choice -> uint256 -> address -> bytes32.
Variable seed_hash :
  uint256 -> uint256 -> address -> address -> bytes32 -> bytes32 -> uint256 -> uint256.

Lemma commitChoice_succeeds sender blk gameId commitHash s :
  player1 (game s gameId) <> 0 ->
  player2 (game s gameId) <> 0 ->
  timestamp blk <= commitDeadline (game s gameId) ->
  commitHash <> 0 ->
  sender = player1 (game s gameId) \/ sender = player2 (game s gameId) ->
  commitment_of (game s gameId) sender = 0 ->
  (player1CommitHash (game s gameId) = 0 /\ player2CommitHash (game s gameId) = 0) \/
  timestamp blk + REVEAL_DURATION <= MAX_UINT256 ->
  exists s', commitChoice seed_hash sender blk gameId commitHash s = Ok s'.
Proof.
  intros Hp1 Hp2 Hdl Hh Hwho Hc Hroom. unfold commitChoice, commitment_of in *.
  pass. pass. pass.
  destruct (sender =? player1 (game s gameId)) eqn:E1.
  - pass. autorewrite with storage. proj_simpl.
    destruct (negb (commitHash =? 0) && negb (player2CommitHash (game s gameId) =? 0))
      eqn:E; [|eauto].
    bool_prop. destruct Hroom as [[_ ?] | ?]; [congruence|]. pass. eauto.
  - bool_prop. destruct Hwho as [? | Hs2]; [congruence|].
    assert (E2 : (sender =? player2 (game s gameId)) = true) by bool_goal.
    rewrite E2. pass. autorewrite with storage. proj_simpl.
    destruct (negb (player1CommitHash (game s gameId) =? 0) && negb (commitHash =? 0))
      eqn:E; [|eauto].
    bool_prop. destruct Hroom as [[? _] | ?]; [congruence|]. pass. eauto.
Qed.

(** X4.  A successful [joinGame] in a reachable world seats the caller as
    player 2 against a different creator, for exactly the creator's stake,
    which lies between [MIN_BET_AMOUNT] and [MAX_BET_AMOUNT], and opens the
    commit window: [commitDeadline] is the block's timestamp plus five
    minutes, [isGameReadyToPlay] answers true in every block before that
    deadline, and up to and including the deadline either player's
    [commitChoice] with a nonzero hash succeeds, stores that hash as the
    caller's commitment and leaves the reveal phase closed. *)
Theorem join_opens_commit_window (w : World) (sender : address) (value : uint256)
    (gameId : uint256) (s1 : State) :
  reachable commit_hash seed_hash w ->
  sender <> 0 ->
  joinGame sender value (block w) gameId (storage w) = Ok s1 ->
  player1 (game s1 gameId) = player1 (game (storage w) gameId) /\
  player2 (game s1 gameId) = sender /\
  sender <> player1 (game s1 gameId) /\
  value = betAmount (game s1 gameId) /\
  MIN_BET_AMOUNT <= value <= MAX_BET_AMOUNT /\
  commitDeadline (game s1 gameId) = timestamp (block w) + COMMIT_DURATION /\
  (forall blk,
     timestamp blk < timestamp (block w) + COMMIT_DURATION ->
     isGameReadyToPlay blk s1 gameId = true) /\
  (forall p blk commitHash,
     p = player1 (game s1 gameId) \/ p = sender ->
     commitHash <> 0 ->
     timestamp blk <= timestamp (block w) + COMMIT_DURATION ->
     exists s2,
       commitChoice seed_hash p blk gameId commitHash s1 = Ok s2 /\
       commitment_of (game s2 gameId) p = commitHash /\
       revealDeadline (game s2 gameId) = 0).
Proof.
  intros Hreach Hsender H.
  destruct (reachable_contract_inv _ _ _ Hreach) as ([_ Hinv] & [_ Hsh] & _).
  pose proof (Hinv gameId) as Hg. pose proof (Hsh gameId) as Hs.
  apply joinGame_effect in H as (_ & Hp1 & Hp2 & Hne & Hv & Hroom & _ & _ & Hg1).
  destruct (inv_unjoined _ _ Hg Hp2) as [Hc1 Hc2].
  assert (Hrd : revealDeadline (game (storage w) gameId) = 0).
  { destruct (N.eq_dec (revealDeadline (game (storage w) gameId)) 0) as [|Hn];
      [assumption|].
    apply (inv_reveal_phase _ _ Hg) in Hn. destruct Hn. congruence. }
  pose proof (inv_bet _ _ Hg). pose proof (shape_stake _ Hs Hp1).
  rewrite Hg1. proj_simpl.
  split; [reflexivity|]. split; [reflexivity|]. split; [exact Hne|].
  split; [exact Hv|]. split; [lia|]. split; [reflexivity|]. split.
  - intros blk Hlt. unfold isGameReadyToPlay. rewrite Hg1. proj_simpl.
    repeat (apply andb_true_iff; split); bool_goal.
  - intros p blk commitHash Hp Hh Hdl.
    assert (Hok : exists s2, commitChoice seed_hash p blk gameId commitHash s1 = Ok s2).
    { apply commitChoice_succeeds; rewrite ?Hg1; proj_simpl; try assumption.
      - unfold commitment_of. proj_simpl.
        destruct (p =? player1 (game (storage w) gameId)); assumption.
      - left. split; assumption. }
    destruct Hok as [s2 Hs2]. exists s2. split; [exact Hs2|].
    apply commitChoice_effect in Hs2 as (_ & _ & _ & _ & _ & _ & g1 & Hw & Hafter).
    rewrite Hg1 in Hw. proj_simpl. unfold commitment_of.
    destruct Hw as [(-> & _ & ->) | (Hn1 & -> & _ & ->)];
      destruct Hafter as [(X1 & X2 & _) | (_ & ->)]; proj_simpl;
      try congruence.
    + rewrite N.eqb_refl. split; [reflexivity | exact Hrd].
    + apply N.eqb_neq in Hn1. rewrite Hn1. split; [reflexivity | exact Hrd].
Qed.

End Commit2.

Lemma join_opens_commit_window_witness :
  reachable pack_commit pack_seed world_created /\
  bob <> 0 /\
  joinGame bob stake (block world_created) 1 (storage world_created) =
    Ok (storage world_joined) /\
  commitDeadline (game (storage world_joined) 1) = 5300 /\
  isGameReadyToPlay (block_at 5299) (storage world_joined) 1 = true /\
  exists s2,
    commitChoice pack_seed alice (block_at 5300) 1 77 (storage world_joined) = Ok s2 /\
    commitment_of (game s2 1) alice = 77.
Proof.
  assert (Hr : reachable pack_commit pack_seed world_created) by reach.
  assert (Hb : bob <> 0) by discriminate.
  assert (Hj : joinGame bob stake (block world_created) 1 (storage world_created) =
               Ok (storage world_joined)) by (vm_compute; reflexivity).
  destruct (join_opens_commit_window pack_commit pack_seed world_created bob stake 1
              (storage world_joined) Hr Hb Hj)
    as (_ & _ & _ & _ & _ & Hd & Hv & Hc).
  split; [exact Hr|]. split; [exact Hb|]. split; [exact Hj|].
  split; [rewrite Hd; vm_compute; reflexivity|].
  split; [apply Hv; vm_compute; reflexivity|].
  destruct (Hc alice (block_at 5300) 77) as (s2 & Hs2 & Hcm & _);
    [left; vm_compute; reflexivity | discriminate | vm_compute; discriminate |].
  exists s2. split; [exact Hs2 | exact Hcm].
Defined.

(** * Commitments and reveals are final *)

Section Final.

Variable commit_hash : Choice -> uint256 -> address -> bytes32.
Variable seed_hash :
  uint256 -> uint256 -> address -> address -> bytes32 -> bytes32 -> uint256 -> uint256.

(** X5.  A commitment cannot be replaced.  After a successful
    [commitChoice] in a reachable world, in every later world the caller's
    stored commitment is still the hash submitted, which is not zero, and
    every further [commitChoice] of that caller for the game reverts, with
    "Commit phase expired", "Invalid commit hash" or "Already committed". *)
Theorem commit_is_final (w w' : World) (sender : address) (gameId : uint256)
    (commitHash : bytes32) (s1 : State) :
  reachable commit_hash seed_hash w ->
  commitChoice seed_hash sender (block w) gameId commitHash (storage w) = Ok s1 ->
  steps commit_hash seed_hash (mkWorld s1 (block w)) w' ->
  commitHash <> 0 /\
  commitment_of (game (storage w') gameId) sender = commitHash /\
  forall blk h,
    exists e,
      commitChoice seed_hash sender blk gameId h (storage w') = Revert e /\
      (e = CommitPhaseExpired \/ e = InvalidCommitHash \/ e = AlreadyCommitted).
Proof.
  intros Hreach H Hsteps.
  pose proof (reachable_state_inv _ _ _ Hreach) as Hs.
  assert (Hs1 : state_inv (timestamp (block w)) s1)
    by (eapply commitChoice_state_inv; eauto).
  apply commitChoice_effect in H as (Hp1 & Hp2 & _ & Hh & _ & _ & g1 & Hw & Hafter).
  assert (Hg1 : player1 (game s1 gameId) = player1 (game (storage w) gameId) /\
                player2 (game s1 gameId) = player2 (game (storage w) gameId) /\
                commitment_of (game s1 gameId) sender = commitHash /\
                (sender = player1 (game (storage w) gameId) \/
                 sender <> player1 (game (storage w) gameId) /\
                 sender = player2 (game (storage w) gameId))).
  { unfold commitment_of.
    destruct Hw as [(Hs0 & _ & ->) | (Hn1 & Hs0 & _ & ->)];
      destruct Hafter as [(_ & _ & _ & seed & ->) | (_ & ->)]; proj_simpl;
      (split; [reflexivity|]); (split; [reflexivity|]);
      first [ rewrite <- Hs0, N.eqb_refl; split; [reflexivity | left; reflexivity]
            | apply N.eqb_neq in Hn1; rewrite Hn1; split;
              [reflexivity | right; split; [apply N.eqb_neq; exact Hn1 | exact Hs0]] ]. }
  destruct Hg1 as (E1 & E2 & Hc & Hwho).
  assert (Hp1' : player1 (game s1 gameId) <> 0) by congruence.
  assert (Hp2' : player2 (game s1 gameId) <> 0) by congruence.
  pose proof (steps_game_le commit_hash seed_hash (mkWorld s1 (block w)) w' gameId
                Hs1 Hsteps Hp1') as Hle.
  cbn [storage] in Hle.
  pose proof (le_player1 _ _ Hle) as F1.
  destruct (le_player2 _ _ Hle Hp2') as [F2 _].
  assert (Hc' : commitment_of (game (storage w') gameId) sender = commitHash).
  { unfold commitment_of in *. rewrite F1.
    destruct (sender =? player1 (game s1 gameId)); subst commitHash.
    - apply (le_commit1 _ _ Hle). exact Hh.
    - apply (le_commit2 _ _ Hle). exact Hh. }
  split; [exact Hh|]. split; [exact Hc'|].
  intros blk h. unfold commitChoice.
  assert (X : negb (player1 (game (storage w') gameId) =? 0) &&
              negb (player2 (game (storage w') gameId) =? 0) = true)
    by (rewrite F1, F2; bool_goal).
  rewrite X. cbn [require bind].
  destruct (timestamp blk <=? commitDeadline (game (storage w') gameId));
    cbn [require bind]; [|eauto].
  destruct (h =? 0); cbn [require bind negb]; [eauto|].
  unfold commitment_of in Hc'.
  destruct (sender =? player1 (game (storage w') gameId)) eqn:Es.
  - assert (Y : (player1CommitHash (game (storage w') gameId) =? 0) = false)
      by (apply N.eqb_neq; congruence).
    rewrite Y. cbn [require bind]. eauto.
  - assert (Z : (sender =? player2 (game (storage w') gameId)) = true).
    { apply N.eqb_eq. apply N.eqb_neq in Es. rewrite F1, E1 in Es. rewrite F2, E2.
      destruct Hwho as [? | [_ ?]]; congruence. }
    rewrite Z.
    assert (Y : (player2CommitHash (game (storage w') gameId) =? 0) = false)
      by (apply N.eqb_neq; congruence).
    rewrite Y. cbn [require bind]. eauto.
Qed.

End Final.

Lemma commit_is_final_witness :
  reachable pack_commit pack_seed world_joined /\
  commitChoice pack_seed alice (block world_joined) 1 (pack_commit Rock 7 alice)
    (storage world_joined) = Ok (storage world_alice_committed) /\
  steps pack_commit pack_seed
    (mkWorld (storage world_alice_committed) (block world_joined)) world_committed /\
  commitment_of (game (storage world_committed) 1) alice = pack_commit Rock 7 alice /\
  commitChoice pack_seed alice (block world_committed) 1 (pack_commit Paper 8 alice)
    (storage world_committed) = Revert AlreadyCommitted.
Proof.
  assert (Hr : reachable pack_commit pack_seed world_joined) by reach.
  assert (Hc : commitChoice pack_seed alice (block world_joined) 1
                 (pack_commit Rock 7 alice) (storage world_joined) =
               Ok (storage world_alice_committed)) by (vm_compute; reflexivity).
  assert (Hst : steps pack_commit pack_seed
                  (mkWorld (storage world_alice_committed) (block world_joined))
                  world_committed).
  { assert (E : act pack_commit pack_seed bob_commits
                  (mkWorld (storage world_alice_committed) (block world_joined)) =
                world_committed) by (vm_compute; reflexivity).
    rewrite <- E. apply act_steps. }
  destruct (commit_is_final pack_commit pack_seed world_joined world_committed alice 1
              (pack_commit Rock 7 alice) (storage world_alice_committed) Hr Hc Hst)
    as (_ & Hk & _).
  split; [exact Hr|]. split; [exact Hc|]. split; [exact Hst|]. split; [exact Hk|].
  vm_compute. reflexivity.
Defined.

Section Final2.

Variable commit_hash : Choice -> uint256 -> address -> bytes32.
Variable seed_hash :
  uint256 -> uint256 -> address -> address -> bytes32 -> bytes32 -> uint256 -> uint256.

(** X6.  A reveal cannot be taken back or repeated.  After a successful
    [revealChoice] in a reachable world, in every later world the caller is
    still marked as revealed with the very choice revealed, which is a
    proper choice and opens the caller's stored commitment, and every
    further [revealChoice] of that caller for the game reverts, with "Reveal
    phase expired", "Invalid choice", "Invalid reveal" or "Already
    revealed". *)
Theorem reveal_is_final (w w' : World) (sender : address) (gameId : uint256)
    (choice : Choice) (nonce : uint256) (s1 : State) :
  reachable commit_hash seed_hash w ->
  revealChoice commit_hash sender (block w) gameId choice nonce (storage w) = Ok s1 ->
  steps commit_hash seed_hash (mkWorld s1 (block w)) w' ->
  choice <> CNone /\
  revealed (game (storage w') gameId) sender = true /\
  choice_of (game (storage w') gameId) sender = choice /\
  commitment_of (game (storage w') gameId) sender = commit_hash choice nonce sender /\
  forall blk choice' nonce',
    exists e,
      revealChoice commit_hash sender blk gameId choice' nonce' (storage w') = Revert e /\
      (e = RevealPhaseExpired \/ e = InvalidChoice \/ e = InvalidReveal \/
       e = AlreadyRevealed).
Proof.
  intros Hreach H Hsteps.
  pose proof (reachable_state_inv _ _ _ Hreach) as Hs.
  assert (Hs1 : state_inv (timestamp (block w)) s1)
    by (eapply revealChoice_state_inv; eauto).
  pose proof (proj2 Hs gameId) as Hg.
  apply revealChoice_effect in H as (Hrd & _ & Hch & _ & g1 & Hw & Hafter).
  assert (Hrd0 : revealDeadline (game (storage w) gameId) <> 0) by lia.
  destruct (joined_distinct _ _ Hg Hrd0) as (_ & Hp2 & Hp1).
  destruct (proj1 (inv_reveal_phase _ _ Hg) Hrd0) as [Hc1 Hc2].
  assert (Hg1 : player1 (game s1 gameId) = player1 (game (storage w) gameId) /\
                player2 (game s1 gameId) = player2 (game (storage w) gameId) /\
                revealDeadline (game s1 gameId) = revealDeadline (game (storage w) gameId) /\
                player1CommitHash (game s1 gameId) =
                  player1CommitHash (game (storage w) gameId) /\
                player2CommitHash (game s1 gameId) =
                  player2CommitHash (game (storage w) gameId) /\
                ((sender = player1 (game (storage w) gameId) /\
                  player1Revealed (game s1 gameId) = true /\
                  player1Choice (game s1 gameId) = choice /\
                  player1CommitHash (game s1 gameId) = commit_hash choice nonce sender) \/
                 (sender <> player1 (game (storage w) gameId) /\
                  sender = player2 (game (storage w) gameId) /\
                  player2Revealed (game s1 gameId) = true /\
                  player2Choice (game s1 gameId) = choice /\
                  player2CommitHash (game s1 gameId) = commit_hash choice nonce sender))).
  { destruct Hw as [(Hs0 & Hk & _ & ->) | (Hn1 & Hs0 & Hk & _ & ->)];
      destruct Hafter as [(_ & _ & _ & _ & -> & _) | (_ & -> & _)]; proj_simpl;
      repeat (split; [reflexivity|]);
      first [ left; repeat split; solve [assumption | reflexivity]
            | right; repeat split; solve [assumption | reflexivity] ]. }
  destruct Hg1 as (E1 & E2 & Erd & Ec1 & Ec2 & Hwho).
  assert (Hp1' : player1 (game s1 gameId) <> 0) by congruence.
  assert (Hp2' : player2 (game s1 gameId) <> 0) by congruence.
  pose proof (steps_game_le commit_hash seed_hash (mkWorld s1 (block w)) w' gameId
                Hs1 Hsteps Hp1') as Hle.
  cbn [storage] in Hle.
  pose proof (le_player1 _ _ Hle) as F1.
  destruct (le_player2 _ _ Hle Hp2') as [F2 _].
  assert (Frd : revealDeadline (game (storage w') gameId) =
                revealDeadline (game s1 gameId))
    by (apply (le_revealDeadline _ _ Hle); congruence).
  assert (Fc1 : player1CommitHash (game (storage w') gameId) =
                player1CommitHash (game s1 gameId))
    by (apply (le_commit1 _ _ Hle); congruence).
  assert (Fc2 : player2CommitHash (game (storage w') gameId) =
                player2CommitHash (game s1 gameId))
    by (apply (le_commit2 _ _ Hle); congruence).
  assert (Hfin :
    (sender = player1 (game (storage w') gameId) /\
     player1Revealed (game (storage w') gameId) = true /\
     player1Choice (game (storage w') gameId) = choice /\
     player1CommitHash (game (storage w') gameId) = commit_hash choice nonce sender) \/
    (sender <> player1 (game (storage w') gameId) /\
     sender = player2 (game (storage w') gameId) /\
     player2Revealed (game (storage w') gameId) = true /\
     player2Choice (game (storage w') gameId) = choice /\
     player2CommitHash (game (storage w') gameId) = commit_hash choice nonce sender)).
  { destruct Hwho as [(Hs0 & Hr & Hc & Hk) | (Hn1 & Hs0 & Hr & Hc & Hk)].
    - destruct (le_revealed1 _ _ Hle Hr) as [? ?]. left. repeat split; congruence.
    - destruct (le_revealed2 _ _ Hle Hr) as [? ?]. right. repeat split; congruence. }
  unfold revealed, choice_of, commitment_of.
  split; [exact Hch|].
  assert (Hsel : (sender =? player1 (game (storage w') gameId)) = true /\
                 player1Revealed (game (storage w') gameId) = true \/
                 (sender =? player1 (game (storage w') gameId)) = false /\
                 (sender =? player2 (game (storage w') gameId)) = true /\
                 player2Revealed (game (storage w') gameId) = true).
  { destruct Hfin as [(? & ? & _) | (? & ? & ? & _)]; [left | right];
      repeat split; try assumption; bool_goal. }
  split; [|split; [|split]].
  - destruct Hfin as [(X & ? & _) | (X & _ & ? & _)];
      [apply N.eqb_eq in X | apply N.eqb_neq in X]; rewrite X; assumption.
  - destruct Hfin as [(X & _ & ? & _) | (X & _ & _ & ? & _)];
      [apply N.eqb_eq in X | apply N.eqb_neq in X]; rewrite X; assumption.
  - destruct Hfin as [(X & _ & _ & ?) | (X & _ & _ & _ & ?)];
      [apply N.eqb_eq in X | apply N.eqb_neq in X]; rewrite X; assumption.
  - intros blk choice' nonce'. unfold revealChoice.
    assert (X : (0 <? revealDeadline (game (storage w') gameId)) = true)
      by (apply N.ltb_lt; lia).
    rewrite X. cbn [require bind].
    destruct (timestamp blk <=? revealDeadline (game (storage w') gameId));
      cbn [require bind]; [|eauto].
    destruct (bool_decide (choice' = CNone)); cbn [require bind negb]; [eauto 6|].
    destruct Hsel as [(Y & Hr) | (Y & Z & Hr)]; rewrite Y, ?Z.
    + destruct (player1CommitHash (game (storage w') gameId) =?
                commit_hash choice' nonce' sender); cbn [require bind]; [|eauto 6].
      rewrite Hr. cbn [require bind negb]. eauto 6.
    + destruct (player2CommitHash (game (storage w') gameId) =?
                commit_hash choice' nonce' sender); cbn [require bind]; [|eauto 6].
      rewrite Hr. cbn [require bind negb]. eauto 6.
Qed.

End Final2.

Lemma reveal_is_final_witness :
  reachable pack_commit pack_seed world_committed /\
  revealChoice pack_commit alice (block world_committed) 1 Rock 7
    (storage world_committed) = Ok (storage world_alice_revealed) /\
  steps pack_commit pack_seed
    (mkWorld (storage world_alice_revealed) (block world_committed)) world_resolved /\
  revealed (game (storage world_resolved) 1) alice = true /\
  choice_of (game (storage world_resolved) 1) alice = Rock.
Proof.
  assert (Hr : reachable pack_commit pack_seed world_committed) by reach.
  assert (Hc : revealChoice pack_commit alice (block world_committed) 1 Rock 7
                 (storage world_committed) = Ok (storage world_alice_revealed))
    by (vm_compute; reflexivity).
  assert (Hst : steps pack_commit pack_seed
                  (mkWorld (storage world_alice_revealed) (block world_committed))
                  world_resolved).
  { assert (E : act pack_commit pack_seed bob_reveals
                  (mkWorld (storage world_alice_revealed) (block world_committed)) =
                world_resolved) by (vm_compute; reflexivity).
    rewrite <- E. apply act_steps. }
  destruct (reveal_is_final pack_commit pack_seed world_committed world_resolved alice 1
              Rock 7 (storage world_alice_revealed) Hr Hc Hst)
    as (_ & Hrev & Hch & _).
  split; [exact Hr|]. split; [exact Hc|]. split; [exact Hst|].
  split; [exact Hrev | exact Hch].
Defined.

(** * Windows *)

Section Windows.

Variable commit_hash : Choice -> uint256 -> address -> bytes32.
Variable seed_hash :
  uint256 -> uint256 -> address -> address -> bytes32 -> bytes32 -> uint256 -> uint256.

(** X7.  The reveal window and the sweep never overlap: in a block where
    some [revealChoice] for a game succeeds, [handleExpiredGame] for that
    game reverts with "Game not expired"; in a block where
    [handleExpiredGame] succeeds, every [revealChoice] for the game reverts
    with "Reveal phase expired".  The block whose timestamp equals
    [revealDeadline] still belongs to the reveal window. *)
Theorem reveal_and_sweep_exclusive (blk : Block) (gameId : uint256) (s : State) :
  (forall sender choice nonce s',
     revealChoice commit_hash sender blk gameId choice nonce s = Ok s' ->
     handleExpiredGame blk gameId s = Revert GameNotExpired) /\
  (forall s',
     handleExpiredGame blk gameId s = Ok s' ->
     forall sender choice nonce,
       revealChoice commit_hash sender blk gameId choice nonce s =
       Revert RevealPhaseExpired) /\
  (timestamp blk = revealDeadline (game s gameId) ->
   handleExpiredGame blk gameId s = Revert GameNotExpired).
Proof.
  split; [|split].
  - intros sender choice nonce s' H.
    apply revealChoice_effect in H as (_ & Hdl & _).
    unfold handleExpiredGame.
    assert (E : (revealDeadline (game s gameId) <? timestamp blk) = false)
      by (apply N.ltb_ge; exact Hdl).
    rewrite E, andb_false_r. reflexivity.
  - intros s' H sender choice nonce.
    apply handleExpiredGame_effect in H as (Hrd & Hdl & _).
    unfold revealChoice.
    assert (E1 : (0 <? revealDeadline (game s gameId)) = true) by (apply N.ltb_lt; exact Hrd).
    assert (E2 : (timestamp blk <=? revealDeadline (game s gameId)) = false)
      by (apply N.leb_gt; exact Hdl).
    rewrite E1, E2. reflexivity.
  - intros E. unfold handleExpiredGame. rewrite E, N.ltb_irrefl, andb_false_r.
    reflexivity.
Qed.

(** X8.  [isGameReadyToPlay] against the guards of [commitChoice].  When the
    view answers true, a commit by a player who has not committed yet, with
    a nonzero hash, succeeds (the timestamp leaving room for the reveal
    window to be computed).  Conversely a successful commit means the view
    answers true or the block's timestamp is exactly [commitDeadline]: the
    view compares with a strict [>], the guard with [<=], so in the block of
    the deadline itself the view says a game with two players is not ready
    while commits are still accepted. *)
Theorem ready_view_and_commit (blk : Block) (s : State) (gameId : uint256) :
  (isGameReadyToPlay blk s gameId = true ->
   forall sender commitHash,
     sender = player1 (game s gameId) \/ sender = player2 (game s gameId) ->
     commitment_of (game s gameId) sender = 0 ->
     commitHash <> 0 ->
     timestamp blk + REVEAL_DURATION <= MAX_UINT256 ->
     exists s', commitChoice seed_hash sender blk gameId commitHash s = Ok s') /\
  (forall sender commitHash s',
     commitChoice seed_hash sender blk gameId commitHash s = Ok s' ->
     isGameReadyToPlay blk s gameId = true \/
     timestamp blk = commitDeadline (game s gameId)) /\
  (timestamp blk = commitDeadline (game s gameId) ->
   isGameReadyToPlay blk s gameId = false).
Proof.
  split; [|split].
  - intros Hv sender commitHash Hwho Hc Hh Hroom.
    unfold isGameReadyToPlay in Hv. bool_prop.
    apply commitChoice_succeeds; try assumption; [lia | right; assumption].
  - intros sender commitHash s' H.
    apply commitChoice_effect in H as (Hp1 & Hp2 & Hdl & _).
    destruct (N.eq_dec (timestamp blk) (commitDeadline (game s gameId))) as [|Hne];
      [right; assumption | left].
    unfold isGameReadyToPlay. repeat (apply andb_true_iff; split); bool_goal.
  - intros E. unfold isGameReadyToPlay. rewrite E, N.ltb_irrefl, andb_false_r.
    reflexivity.
Qed.

End Windows.

Lemma reveal_and_sweep_exclusive_witness :
  handleExpiredGame (block world_committed) 1 (storage world_committed) =
    Revert GameNotExpired /\
  revealChoice pack_commit alice (block world_silent) 1 Rock 7 (storage world_silent) =
    Revert RevealPhaseExpired.
Proof.
  split.
  - apply (proj1 (reveal_and_sweep_exclusive pack_commit (block world_committed) 1
                    (storage world_committed)) alice Rock 7
             (storage world_alice_revealed)).
    vm_compute. reflexivity.
  - apply (proj1 (proj2 (reveal_and_sweep_exclusive pack_commit (block world_silent) 1
                           (storage world_silent))) (storage world_swept_silent)).
    vm_compute. reflexivity.
Defined.

Lemma ready_view_and_commit_witness :
  isGameReadyToPlay (block_at 5300) (storage world_joined) 1 = false /\
  (exists s', commitChoice pack_seed alice (block world_joined) 1 77
                (storage world_joined) = Ok s') /\
  (isGameReadyToPlay (block_at 5300) (storage world_joined) 1 = true \/
   timestamp (block_at 5300) = commitDeadline (game (storage world_joined) 1)).
Proof.
  split; [|split].
  - apply (proj2 (proj2 (ready_view_and_commit pack_seed (block_at 5300)
                           (storage world_joined) 1))).
    vm_compute. reflexivity.
  - apply (proj1 (ready_view_and_commit pack_seed (block world_joined)
                    (storage world_joined) 1));
      [vm_compute; reflexivity | left; vm_compute; reflexivity
      | vm_compute; reflexivity | discriminate | vm_compute; discriminate].
  - apply (proj1 (proj2 (ready_view_and_commit pack_seed (block_at 5300)
                           (storage world_joined) 1)) bob 78
             (after (commitChoice pack_seed bob (block_at 5300) 1 78 (storage world_joined))
                (storage world_joined))).
    vm_compute. reflexivity.
Defined.

(** * The lists of games *)

Section Lists.

Variable commit_hash : Choice -> uint256 -> address -> bytes32.
Variable seed_hash :
  uint256 -> uint256 -> address -> address -> bytes32 -> bytes32 -> uint256 -> uint256.

(** X9.  What [getPlayerGames] returns in a reachable world, for any
    address but zero: the games in which that address is player 1 or
    player 2, each exactly once, and only identifiers that have been handed
    out. *)
Theorem playerGames_lists_own_games (w : World) (a : address) :
  reachable commit_hash seed_hash w ->
  a <> 0 ->
  NoDup (getPlayerGames (storage w) a) /\
  (forall gameId,
     In gameId (getPlayerGames (storage w) a) <->
     (player1 (game (storage w) gameId) = a \/ player2 (game (storage w) gameId) = a)) /\
  (forall gameId,
     In gameId (getPlayerGames (storage w) a) ->
     1 <= gameId < nextGameId (storage w)).
Proof.
  intros Hreach Ha.
  destruct (reachable_contract_inv _ _ _ Hreach) as (_ & _ & [Hrange Hidx]).
  destruct (Hidx a Ha) as [Hnd Hin].
  split; [exact Hnd|]. split; [exact Hin|]. intros gameId. apply Hrange.
Qed.

(** X10.  The lists behind [getPlayerGames] are append-only: whatever
    happens between two worlds, the later list of any address is the
    earlier one followed by the identifiers pushed since. *)
Theorem playerGames_append_only (w w' : World) (a : address) :
  steps commit_hash seed_hash w w' ->
  exists pushed,
    getPlayerGames (storage w') a = getPlayerGames (storage w) a ++ pushed.
Proof.
  intros Hsteps.
  apply (steps_keep commit_hash seed_hash
           (fun _ s => exists pushed,
                getPlayerGames s a = getPlayerGames (storage w) a ++ pushed))
    with (w := w); [ | | | | | | | | exact Hsteps | ].
  - intros now now' s _ H. exact H.
  - intros now s s' _ Hpg _ [l Hl]. exists l. unfold getPlayerGames in *.
    rewrite Hpg. exact Hl.
  - intros blk sender value s s' H [l Hl].
    rewrite (createGame_playerGames _ _ _ _ a H).
    destruct (decide (sender = a)) as [->|]; [|eauto].
    exists (l ++ [nextGameId s]). rewrite Hl, app_assoc. reflexivity.
  - intros blk sender value gameId s s' H [l Hl].
    rewrite (joinGame_playerGames _ _ _ _ _ _ a H).
    destruct (decide (sender = a)) as [->|]; [|eauto].
    exists (l ++ [gameId]). rewrite Hl, app_assoc. reflexivity.
  - intros blk sender gameId commitHash s s' H [l Hl]. exists l.
    unfold getPlayerGames in *. erewrite commitChoice_playerGames; eauto.
  - intros blk sender gameId choice nonce s s' H [l Hl]. exists l.
    unfold getPlayerGames in *. erewrite revealChoice_playerGames; eauto.
  - intros blk gameId s s' H [l Hl]. exists l.
    unfold getPlayerGames in *. erewrite handleExpiredGame_playerGames; eauto.
  - intros blk sender gameId s s' H [l Hl]. exists l.
    unfold getPlayerGames in *. erewrite cancelGame_playerGames; eauto.
  - exists []. rewrite app_nil_r. reflexivity.
Qed.

End Lists.

Lemma playerGames_lists_own_games_witness :
  reachable pack_commit pack_seed world_resolved /\
  bob <> 0 /\
  NoDup (getPlayerGames (storage world_resolved) bob) /\
  In 1 (getPlayerGames (storage world_resolved) bob).
Proof.
  assert (Hr : reachable pack_commit pack_seed world_resolved) by reach.
  assert (Hb : bob <> 0) by discriminate.
  destruct (playerGames_lists_own_games pack_commit pack_seed world_resolved bob Hr Hb)
    as (Hnd & Hin & _).
  split; [exact Hr|]. split; [exact Hb|]. split; [exact Hnd|].
  apply (proj2 (Hin 1)). right. vm_compute. reflexivity.
Defined.

Lemma playerGames_append_only_witness :
  steps pack_commit pack_seed genesis world_joined /\
  exists pushed,
    getPlayerGames (storage world_joined) bob =
    getPlayerGames (storage genesis) bob ++ pushed.
Proof.
  assert (Hst : steps pack_commit pack_seed genesis world_joined)
    by (do 2 apply steps_act; apply steps_refl).
  split; [exact Hst|].
  exact (playerGames_append_only pack_commit pack_seed genesis world_joined bob Hst).
Defined.

(** * Balances *)

Lemma balance_at_transfer sender s a :
  balance (at_transfer sender s) a = if decide (sender = a) then 0 else balance s a.
Proof.
  unfold at_transfer, balance. cbn. rewrite lookup_insert.
  destruct (decide (sender = a)); reflexivity.
Qed.

Section Balances.

Variable commit_hash : Choice -> uint256 -> address -> bytes32.
Variable seed_hash :
  uint256 -> uint256 -> address -> address -> bytes32 -> bytes32 -> uint256 -> uint256.

Lemma exec_balance_le blk c :
  forall sender s s',
    exec commit_hash seed_hash c sender blk s = Ok s' ->
    forall a, (is_withdraw c = true -> a <> sender) -> balance s a <= balance s' a.
Proof.
  induction c using Call_Callee_ind with
    (P0 := fun r => forall s ok s',
             entered s = true ->
             run commit_hash seed_hash r blk s = (ok, s') ->
             forall a, balance s a <= balance s' a).
  - intros sender s s' H a _. cbn [exec] in H.
    apply createGame_effect in H as (_ & _ & _ & _ & _ & _ & _ & Hb). rewrite Hb. lia.
  - intros sender s s' H a _. cbn [exec] in H.
    apply joinGame_effect in H as (_ & _ & _ & _ & _ & _ & _ & Hb & _). rewrite Hb. lia.
  - intros sender s s' H a _. cbn [exec] in H.
    apply commitChoice_effect in H as (_ & _ & _ & _ & _ & Hb & _). rewrite Hb. lia.
  - intros sender s s' H a _. cbn [exec] in H.
    apply revealChoice_effect in H as (_ & _ & _ & _ & g1 & _ & Hafter).
    destruct Hafter as [(_ & _ & _ & _ & _ & Hb) | (_ & _ & Hb)]; rewrite Hb; lia.
  - intros sender s s' H a _. cbn [exec] in H.
    apply handleExpiredGame_effect in H as (_ & _ & _ & _ & _ & Hb). rewrite Hb. lia.
  - intros sender s s' H a Ha. rewrite exec_WithdrawBalance in H.
    apply withdrawBalance_effect in H as (_ & _ & s2 & Hc & ->).
    apply external_call_true in Hc as (s1 & Hc & ->).
    autorewrite with storage.
    apply IHc with (a := a) in Hc; [|reflexivity].
    rewrite balance_at_transfer in Hc.
    destruct (decide (sender = a)) as [->|]; [destruct (Ha eq_refl); reflexivity|].
    exact Hc.
  - intros sender s s' H a _. cbn [exec] in H.
    apply cancelGame_effect in H as (_ & _ & _ & _ & _ & Hb & _). rewrite Hb. lia.
  - intros s ok s' _ H a. rewrite run_Finish in H. injection H as _ <-. lia.
  - intros s ok s' He H0 a. rewrite run_Observe in H0. eauto.
  - intros s ok s' He H0 a. rewrite run_Reenter in H0.
    destruct (exec commit_hash seed_hash c caller blk s) as [s1|e] eqn:E; cbn [after] in H0.
    + assert (He1 : entered s1 = true) by (rewrite (exec_entered _ _ _ _ _ _ _ E); exact He).
      transitivity (balance s1 a).
      * apply (IHc caller s s1 E a). intros Hw.
        assert (Hg : guarded c = true) by (destruct c; try discriminate Hw; reflexivity).
        rewrite (guarded_reverts commit_hash seed_hash c caller blk s Hg He) in E.
        discriminate E.
      * eapply H; eassumption.
    + eapply H; eassumption.
Qed.

(** X11.  Money leaves a balance only through its owner's own
    [withdrawBalance]: whichever function a transaction calls, and whatever
    the recipient of a withdrawal does while it holds control (including
    calls back into the contract), no balance is lower after a successful
    transaction than before, except the balance of the caller of
    [withdrawBalance].  [createGame], [joinGame] and [commitChoice] change
    no balance at all. *)
Theorem balances_leave_only_by_withdrawal (blk : Block) (c : Call) (sender : address)
    (s s' : State) :
  exec commit_hash seed_hash c sender blk s = Ok s' ->
  (forall a, (is_withdraw c = true -> a <> sender) -> balance s a <= balance s' a) /\
  (match c with
   | CreateGame _ | JoinGame _ _ | CommitChoice _ _ => same_balances s s'
   | _ => True
   end).
Proof.
  intros H. split; [exact (exec_balance_le blk c sender s s' H)|].
  destruct c; cbn [exec] in H; try exact I.
  - apply createGame_effect in H as (_ & _ & _ & _ & _ & _ & _ & Hb). exact Hb.
  - apply joinGame_effect in H as (_ & _ & _ & _ & _ & _ & _ & Hb & _). exact Hb.
  - apply commitChoice_effect in H as (_ & _ & _ & _ & _ & Hb & _). exact Hb.
Qed.

End Balances.

Lemma balances_leave_only_by_withdrawal_witness :
  exists s',
    exec pack_commit pack_seed (WithdrawBalance (reentering bob)) alice
      (block world_swept_silent) (storage world_swept_silent) = Ok s' /\
    balance (storage world_swept_silent) bob = stake /\
    balance (storage world_swept_silent) bob <= balance s' bob /\
    balance s' alice = 0.
Proof.
  pose (s' := after (exec pack_commit pack_seed (WithdrawBalance (reentering bob)) alice
                       (block world_swept_silent) (storage world_swept_silent))
                    (storage world_swept_silent)).
  assert (H : exec pack_commit pack_seed (WithdrawBalance (reentering bob)) alice
                (block world_swept_silent) (storage world_swept_silent) = Ok s')
    by (vm_compute; reflexivity).
  destruct (balances_leave_only_by_withdrawal pack_commit pack_seed _ _ _ _ _ H)
    as [Hle _].
  exists s'. split; [exact H|]. split; [vm_compute; reflexivity|].
  split; [apply Hle; intros _; discriminate | vm_compute; reflexivity].
Defined.

(** * What every stored game looks like *)

Section Shapes.

Variable commit_hash : Choice -> uint256 -> address -> bytes32.
Variable seed_hash :
  uint256 -> uint256 -> address -> address -> bytes32 -> bytes32 -> uint256 -> uint256.

(** X12.  In a reachable world a game is completed exactly when its result
    is no longer [Pending]; and whenever its funds are marked distributed it
    is completed, so its result is not [Pending] either. *)
Theorem completed_iff_result_set (w : World) (gameId : uint256) :
  reachable commit_hash seed_hash w ->
  (isCompleted (game (storage w) gameId) = true <->
   result (game (storage w) gameId) <> Pending) /\
  (fundsDistributed (game (storage w) gameId) = true ->
   isCompleted (game (storage w) gameId) = true /\
   result (game (storage w) gameId) <> Pending).
Proof.
  intros Hreach.
  destruct (reachable_contract_inv _ _ _ Hreach) as ([_ Hinv] & [_ Hsh] & _).
  pose proof (shape_result _ (Hsh gameId)) as Hres.
  split; [exact Hres|]. intros Hfd.
  destruct (inv_distributed _ _ (Hinv gameId) Hfd) as (Hc & _).
  split; [exact Hc | apply Hres; exact Hc].
Qed.

(** X13.  Choices stay hidden until they are revealed.  In a reachable
    world the stored choice of a player who has not revealed is [None], and
    the choice of one who has is a proper choice; nobody is marked as
    revealed before both commitments are in, and while a commitment is
    missing every [revealChoice] reverts with "Reveal phase not started". *)
Theorem choices_hidden_until_revealed (w : World) (gameId : uint256) :
  reachable commit_hash seed_hash w ->
  (player1Revealed (game (storage w) gameId) = false ->
   player1Choice (game (storage w) gameId) = CNone) /\
  (player2Revealed (game (storage w) gameId) = false ->
   player2Choice (game (storage w) gameId) = CNone) /\
  (player1Revealed (game (storage w) gameId) = true ->
   player1Choice (game (storage w) gameId) <> CNone) /\
  (player2Revealed (game (storage w) gameId) = true ->
   player2Choice (game (storage w) gameId) <> CNone) /\
  (player1CommitHash (game (storage w) gameId) = 0 \/
   player2CommitHash (game (storage w) gameId) = 0 ->
   player1Revealed (game (storage w) gameId) = false /\
   player2Revealed (game (storage w) gameId) = false /\
   forall sender blk choice nonce,
     revealChoice commit_hash sender blk gameId choice nonce (storage w) =
     Revert RevealPhaseNotStarted).
Proof.
  intros Hreach.
  destruct (reachable_contract_inv _ _ _ Hreach) as ([_ Hinv] & [_ Hsh] & _).
  destruct (Hsh gameId) as [_ Hh1 Hh2 _].
  destruct (Hinv gameId) as [_ _ _ Hrp Hr1 Hr2 _ _].
  split; [exact Hh1|]. split; [exact Hh2|].
  split; [intros Hr; apply (Hr1 Hr)|]. split; [intros Hr; apply (Hr2 Hr)|].
  intros Hmissing.
  assert (Hrd : revealDeadline (game (storage w) gameId) = 0).
  { destruct (N.eq_dec (revealDeadline (game (storage w) gameId)) 0) as [|Hn];
      [assumption|].
    apply Hrp in Hn. destruct Hn, Hmissing; congruence. }
  split; [|split].
  - destruct (player1Revealed (game (storage w) gameId)); [|reflexivity].
    destruct (Hr1 eq_refl). congruence.
  - destruct (player2Revealed (game (storage w) gameId)); [|reflexivity].
    destruct (Hr2 eq_refl). congruence.
  - intros sender blk choice nonce. unfold revealChoice. rewrite Hrd. reflexivity.
Qed.

(** X14.  The stake of a game is fixed at creation and stays within the
    limits: in a reachable world every game that has a creator carries a
    stake between [MIN_BET_AMOUNT] and [MAX_BET_AMOUNT], and in every later
    world the game still has that creator and that stake. *)
Theorem stake_is_bounded_and_fixed (w w' : World) (gameId : uint256) :
  reachable commit_hash seed_hash w ->
  steps commit_hash seed_hash w w' ->
  player1 (game (storage w) gameId) <> 0 ->
  MIN_BET_AMOUNT <= betAmount (game (storage w) gameId) <= MAX_BET_AMOUNT /\
  player1 (game (storage w') gameId) = player1 (game (storage w) gameId) /\
  betAmount (game (storage w') gameId) = betAmount (game (storage w) gameId).
Proof.
  intros Hreach Hsteps Hp1.
  destruct (reachable_contract_inv _ _ _ Hreach) as (Hs & [_ Hsh] & _).
  pose proof (shape_stake _ (Hsh gameId) Hp1).
  pose proof (inv_bet _ _ (proj2 Hs gameId)).
  pose proof (steps_game_le _ _ _ _ gameId Hs Hsteps Hp1) as Hle.
  split; [lia|]. split; [apply (le_player1 _ _ Hle) | apply (le_betAmount _ _ Hle)].
Qed.

End Shapes.

Lemma completed_iff_result_set_witness :
  reachable pack_commit pack_seed world_cancelled /\
  isCompleted (game (storage world_cancelled) 1) = true /\
  result (game (storage world_cancelled) 1) <> Pending.
Proof.
  assert (Hr : reachable pack_commit pack_seed world_cancelled) by reach.
  destruct (completed_iff_result_set pack_commit pack_seed world_cancelled 1 Hr)
    as [Hiff _].
  assert (Hc : isCompleted (game (storage world_cancelled) 1) = true)
    by (vm_compute; reflexivity).
  split; [exact Hr|]. split; [exact Hc|]. exact (proj1 Hiff Hc).
Defined.

Lemma choices_hidden_until_revealed_witness :
  reachable pack_commit pack_seed world_alice_revealed /\
  player2Revealed (game (storage world_alice_revealed) 1) = false /\
  player2Choice (game (storage world_alice_revealed) 1) = CNone /\
  player1Choice (game (storage world_alice_revealed) 1) <> CNone.
Proof.
  assert (Hr : reachable pack_commit pack_seed world_alice_revealed) by reach.
  destruct (choices_hidden_until_revealed pack_commit pack_seed world_alice_revealed 1 Hr)
    as (_ & Hh2 & Hp1 & _).
  assert (H2 : player2Revealed (game (storage world_alice_revealed) 1) = false)
    by (vm_compute; reflexivity).
  split; [exact Hr|]. split; [exact H2|]. split; [exact (Hh2 H2)|].
  apply Hp1. vm_compute. reflexivity.
Defined.

Lemma stake_is_bounded_and_fixed_witness :
  reachable pack_commit pack_seed world_created /\
  steps pack_commit pack_seed world_created world_resolved /\
  player1 (game (storage world_created) 1) <> 0 /\
  MIN_BET_AMOUNT <= betAmount (game (storage world_created) 1) <= MAX_BET_AMOUNT /\
  betAmount (game (storage world_resolved) 1) =
    betAmount (game (storage world_created) 1).
Proof.
  assert (Hr : reachable pack_commit pack_seed world_created) by reach.
  assert (Hst : steps pack_commit pack_seed world_created world_resolved)
    by (do 5 apply steps_act; apply steps_refl).
  assert (Hp : player1 (game (storage world_created) 1) <> 0)
    by (vm_compute; discriminate).
  destruct (stake_is_bounded_and_fixed pack_commit pack_seed world_created world_resolved
              1 Hr Hst Hp) as (Hb & _ & Hf).
  split; [exact Hr|]. split; [exact Hst|]. split; [exact Hp|].
  split; [exact Hb | exact Hf].
Defined.

(** * Identifiers *)

Section Ids.

Variable commit_hash : Choice -> uint256 -> address -> bytes32.
Variable seed_hash :
  uint256 -> uint256 -> address -> address -> bytes32 -> bytes32 -> uint256 -> uint256.

Lemma steps_nextGameId w w' :
  steps commit_hash seed_hash w w' ->
  nextGameId (storage w) <= nextGameId (storage w').
Proof.
  intros Hsteps.
  apply (steps_keep commit_hash seed_hash
           (fun _ s => nextGameId (storage w) <= nextGameId s))
    with (w := w); [ | | | | | | | | exact Hsteps | ].
  - intros now now' s _ H. exact H.
  - intros now s s' _ _ Hn H. lia.
  - intros blk sender value s s' H Hle.
    apply createGame_effect in H as (_ & _ & _ & Hn & _). lia.
  - intros blk sender value gameId s s' H Hle.
    apply joinGame_effect in H as (_ & _ & _ & _ & _ & _ & (_ & Hn & _) & _). lia.
  - intros blk sender gameId commitHash s s' H Hle.
    apply commitChoice_effect in H as (_ & _ & _ & _ & (_ & Hn & _) & _). lia.
  - intros blk sender gameId choice nonce s s' H Hle.
    apply revealChoice_effect in H as (_ & _ & _ & (_ & Hn & _) & _). lia.
  - intros blk gameId s s' H Hle.
    apply handleExpiredGame_effect in H as (_ & _ & _ & (_ & Hn & _) & _). lia.
  - intros blk sender gameId s s' H Hle.
    apply cancelGame_effect in H as (_ & _ & _ & (_ & Hn & _) & _). lia.
  - lia.
Qed.

(** X15.  Identifiers are handed out in order and never reused.  In a
    reachable world [nextGameId] is at least 1 and every game with a creator
    has an identifier from 1 up to, but excluding, [nextGameId]; the counter
    never goes down; and a successful [createGame] writes a slot that had no
    creator, so it never overwrites a game that exists. *)
Theorem game_ids_in_order (w w' : World) :
  reachable commit_hash seed_hash w ->
  steps commit_hash seed_hash w w' ->
  1 <= nextGameId (storage w) <= nextGameId (storage w') /\
  (forall gameId,
     player1 (game (storage w) gameId) <> 0 ->
     1 <= gameId < nextGameId (storage w)) /\
  (forall sender value s1,
     createGame sender value (storage w) = Ok s1 ->
     player1 (game (storage w) (nextGameId (storage w))) = 0 /\
     forall gameId,
       player1 (game (storage w) gameId) <> 0 -> game s1 gameId = game (storage w) gameId).
Proof.
  intros Hreach Hsteps.
  destruct (reachable_contract_inv _ _ _ Hreach) as ([[Hone Hfresh] _] & [Hz _] & _).
  pose proof (steps_nextGameId _ _ Hsteps) as Hmono.
  assert (Hrange : forall gameId,
            player1 (game (storage w) gameId) <> 0 ->
            1 <= gameId < nextGameId (storage w)).
  { intros gameId Hp1. split.
    - destruct (N.eq_dec gameId 0) as [->|]; [congruence | lia].
    - destruct (N.lt_ge_cases gameId (nextGameId (storage w))) as [|Hge]; [assumption|].
      apply Hfresh in Hge. congruence. }
  split; [lia|]. split; [exact Hrange|].
  intros sender value s1 Hcreate.
  apply createGame_effect in Hcreate as (_ & _ & _ & _ & _ & _ & Hfr & _).
  split; [apply Hfresh; lia|].
  intros gameId Hp1. apply Hfr. apply Hrange in Hp1. lia.
Qed.

(** X16.  Completion is permanent for a game that has a creator, however
    it came about (two reveals, a sweep, or a cancellation): in every later
    world the game is still completed, and [handleExpiredGame] reverts for
    it in every block, with "Game already completed" or, when the reveal
    deadline is unset or not passed, "Game not expired". *)
Theorem completed_game_is_never_swept (w w' : World) (gameId : uint256) :
  reachable commit_hash seed_hash w ->
  steps commit_hash seed_hash w w' ->
  player1 (game (storage w) gameId) <> 0 ->
  isCompleted (game (storage w) gameId) = true ->
  isCompleted (game (storage w') gameId) = true /\
  forall blk,
    exists e,
      handleExpiredGame blk gameId (storage w') = Revert e /\
      (e = GameAlreadyCompleted \/ e = GameNotExpired).
Proof.
  intros Hreach Hsteps Hp1 Hc.
  pose proof (reachable_state_inv _ _ _ Hreach) as Hs.
  pose proof (steps_game_le _ _ _ _ gameId Hs Hsteps Hp1) as Hle.
  pose proof (le_completed _ _ Hle Hc) as Hc'.
  split; [exact Hc'|]. intros blk.
  rewrite (handleExpiredGame_completed blk gameId (storage w') Hc').
  destruct ((0 <? revealDeadline (game (storage w') gameId)) &&
            (revealDeadline (game (storage w') gameId) <? timestamp blk)); eauto.
Qed.

End Ids.

Lemma game_ids_in_order_witness :
  reachable pack_commit pack_seed world_created /\
  steps pack_commit pack_seed world_created world_joined /\
  1 <= nextGameId (storage world_created) <= nextGameId (storage world_joined) /\
  1 <= 1 < nextGameId (storage world_created).
Proof.
  assert (Hr : reachable pack_commit pack_seed world_created) by reach.
  assert (Hst : steps pack_commit pack_seed world_created world_joined)
    by (apply steps_act; apply steps_refl).
  destruct (game_ids_in_order pack_commit pack_seed world_created world_joined Hr Hst)
    as (Hn & Hrange & _).
  split; [exact Hr|]. split; [exact Hst|]. split; [exact Hn|].
  apply Hrange. vm_compute. discriminate.
Defined.

Lemma completed_game_is_never_swept_witness :
  reachable pack_commit pack_seed world_cancelled /\
  steps pack_commit pack_seed world_cancelled world_cancelled_joined /\
  player1 (game (storage world_cancelled) 1) <> 0 /\
  isCompleted (game (storage world_cancelled) 1) = true /\
  isCompleted (game (storage world_cancelled_joined) 1) = true.
Proof.
  assert (Hr : reachable pack_commit pack_seed world_cancelled) by reach.
  assert (Hst : steps pack_commit pack_seed world_cancelled world_cancelled_joined)
    by (apply steps_act; apply steps_refl).
  assert (Hp : player1 (game (storage world_cancelled) 1) <> 0)
    by (vm_compute; discriminate).
  assert (Hc : isCompleted (game (storage world_cancelled) 1) = true)
    by (vm_compute; reflexivity).
  destruct (completed_game_is_never_swept pack_commit pack_seed world_cancelled
              world_cancelled_joined 1 Hr Hst Hp Hc) as [Hc' _].
  split; [exact Hr|]. split; [exact Hst|]. split; [exact Hp|].
  split; [exact Hc | exact Hc'].
Defined.

(** * From the second commitment to the reveal *)

Section RoundTrip.

Variable commit_hash : Choice -> uint256 -> address -> bytes32.
Variable seed_hash :
  uint256 -> uint256 -> address -> address -> bytes32 -> bytes32 -> uint256 -> uint256.

Lemma commitChoice_opens sender blk gameId commitHash s s' :
  commitChoice seed_hash sender blk gameId commitHash s = Ok s' ->
  player1CommitHash (game s' gameId) <> 0 ->
  player2CommitHash (game s' gameId) <> 0 ->
  revealDeadline (game s' gameId) = timestamp blk + REVEAL_DURATION /\
  randomSeed (game s' gameId) =
    seed_hash (timestamp blk) (prevrandao blk)
      (player1 (game s' gameId)) (player2 (game s' gameId))
      (player1CommitHash (game s' gameId)) (player2CommitHash (game s' gameId)) gameId.
Proof.
  intros H. unfold commitChoice, _generateRandomSeed in H.
  ok_inv; subst; autorewrite with storage in *; proj_simpl; bool_prop;
    intros X1 X2; try (split; reflexivity);
    match goal with Hor : _ \/ _ |- _ => destruct Hor; bool_prop; congruence end.
Qed.

Lemma revealChoice_first_succeeds sender blk gameId choice nonce s :
  0 < revealDeadline (game s gameId) ->
  timestamp blk <= revealDeadline (game s gameId) ->
  choice <> CNone ->
  sender = player1 (game s gameId) \/ sender = player2 (game s gameId) ->
  commitment_of (game s gameId) sender = commit_hash choice nonce sender ->
  player1Revealed (game s gameId) = false ->
  player2Revealed (game s gameId) = false ->
  player1 (game s gameId) <> player2 (game s gameId) ->
  exists s', revealChoice commit_hash sender blk gameId choice nonce s = Ok s'.
Proof.
  intros Hrd Hdl Hc Hp Hcommit Hr1 Hr2 Hne.
  unfold commitment_of in *.
  unfold revealChoice. pass. pass. pass.
  destruct (sender =? player1 (game s gameId)) eqn:E1.
  - pass. pass. autorewrite with storage. proj_simpl. rewrite Hr2. cbn [andb]. eauto.
  - assert (E2 : (sender =? player2 (game s gameId)) = true)
      by (bool_prop; bool_goal; destruct Hp; congruence).
    rewrite E2. pass. pass. autorewrite with storage. proj_simpl. rewrite Hr1.
    cbn [andb]. eauto.
Qed.

(** X17.  From commitment to reveal.  Let a player of a game in a reachable
    world commit the hash [generateCommitHash] gives for a choice, a nonce
    and the player's own address, and let this be the commitment that
    completes the pair.  Then the reveal phase opens: [revealDeadline] is
    the block's timestamp plus five minutes, the stored seed is the hash of
    the block's timestamp and [prevrandao], the two players, the two
    commitments and the identifier, and nobody is marked as revealed.  From
    there, in any block up to and including the deadline, the player's
    [revealChoice] with that choice and nonce succeeds when the choice is a
    proper one, records it and moves no balance; a commitment to [None]
    cannot be opened at all: its reveal reverts with "Invalid choice". *)
Theorem commit_then_reveal (w : World) (sender : address) (gameId : uint256)
    (choice : Choice) (nonce : uint256) (s1 : State) :
  reachable commit_hash seed_hash w ->
  commitChoice seed_hash sender (block w) gameId
    (generateCommitHash commit_hash choice nonce sender) (storage w) = Ok s1 ->
  player1CommitHash (game s1 gameId) <> 0 ->
  player2CommitHash (game s1 gameId) <> 0 ->
  revealDeadline (game s1 gameId) = timestamp (block w) + REVEAL_DURATION /\
  randomSeed (game s1 gameId) =
    seed_hash (timestamp (block w)) (prevrandao (block w))
      (player1 (game s1 gameId)) (player2 (game s1 gameId))
      (player1CommitHash (game s1 gameId)) (player2CommitHash (game s1 gameId)) gameId /\
  player1Revealed (game s1 gameId) = false /\
  player2Revealed (game s1 gameId) = false /\
  (forall blk,
     timestamp blk <= timestamp (block w) + REVEAL_DURATION ->
     (choice <> CNone ->
      exists s2,
        revealChoice commit_hash sender blk gameId choice nonce s1 = Ok s2 /\
        revealed (game s2 gameId) sender = true /\
        choice_of (game s2 gameId) sender = choice /\
        same_balances s1 s2) /\
     (choice = CNone ->
      revealChoice commit_hash sender blk gameId choice nonce s1 =
      Revert InvalidChoice)).
Proof.
  intros Hreach H Hc1 Hc2.
  pose proof (reachable_state_inv _ _ _ Hreach) as Hs.
  assert (Hs1 : state_inv (timestamp (block w)) s1)
    by (eapply commitChoice_state_inv; eauto).
  pose proof (proj2 Hs1 gameId) as Hg1.
  destruct (commitChoice_opens _ _ _ _ _ _ H Hc1 Hc2) as [Hrd Hseed].
  pose proof (proj2 Hs gameId) as Hg.
  apply commitChoice_effect in H as (Hp1 & Hp2 & _ & Hh & _ & _ & g1 & Hw & Hafter).
  assert (Hrd0 : revealDeadline (game (storage w) gameId) = 0).
  { destruct (N.eq_dec (revealDeadline (game (storage w) gameId)) 0) as [|Hn];
      [assumption|].
    apply (inv_reveal_phase _ _ Hg) in Hn.
    destruct Hn, Hw as [(_ & ? & _) | (_ & _ & ? & _)]; congruence. }
  assert (Hr1 : player1Revealed (game (storage w) gameId) = false).
  { destruct (player1Revealed (game (storage w) gameId)) eqn:E; [|reflexivity].
    destruct (inv_revealed1 _ _ Hg E). congruence. }
  assert (Hr2 : player2Revealed (game (storage w) gameId) = false).
  { destruct (player2Revealed (game (storage w) gameId)) eqn:E; [|reflexivity].
    destruct (inv_revealed2 _ _ Hg E). congruence. }
  assert (Hfacts :
    player1 (game s1 gameId) = player1 (game (storage w) gameId) /\
    player2 (game s1 gameId) = player2 (game (storage w) gameId) /\
    player1Revealed (game s1 gameId) = false /\
    player2Revealed (game s1 gameId) = false /\
    (sender = player1 (game s1 gameId) \/ sender = player2 (game s1 gameId)) /\
    commitment_of (game s1 gameId) sender = commit_hash choice nonce sender).
  { unfold commitment_of, generateCommitHash in *.
    destruct Hw as [(Hs0 & _ & ->) | (Hn1 & Hs0 & _ & ->)];
      destruct Hafter as [(_ & _ & _ & seed & ->) | (_ & ->)]; proj_simpl;
      (split; [reflexivity|]); (split; [reflexivity|]);
      (split; [assumption|]); (split; [assumption|]);
      first [ rewrite <- Hs0, N.eqb_refl; split; [left; reflexivity | reflexivity]
            | apply N.eqb_neq in Hn1; rewrite Hn1; split;
              [right; exact Hs0 | reflexivity] ]. }
  destruct Hfacts as (E1 & E2 & Hr1' & Hr2' & Hwho & Hcm).
  assert (Hrd1 : revealDeadline (game s1 gameId) <> 0).
  { apply (inv_reveal_phase _ _ Hg1). split; assumption. }
  destruct (joined_distinct _ _ Hg1 Hrd1) as (Hne & _ & _).
  split; [exact Hrd|]. split; [exact Hseed|]. split; [exact Hr1'|]. split; [exact Hr2'|].
  intros blk Hdl. split.
  - intros Hch.
    destruct (revealChoice_first_succeeds sender blk gameId choice nonce s1)
      as [s2 Hs2]; try assumption; try lia.
    exists s2. split; [exact Hs2|].
    apply revealChoice_effect in Hs2 as (_ & _ & _ & _ & g2 & Hw2 & Hafter2).
    unfold revealed, choice_of.
    destruct Hw2 as [(Hs0 & _ & _ & ->) | (Hn1 & Hs0 & _ & _ & ->)];
      destruct Hafter2 as [(X1 & X2 & _) | (_ & -> & Hb)]; proj_simpl;
      try congruence.
    + rewrite <- Hs0, N.eqb_refl. repeat split; try reflexivity. exact Hb.
    + apply N.eqb_neq in Hn1. rewrite Hn1. repeat split; try reflexivity. exact Hb.
  - intros ->. unfold revealChoice.
    assert (X1 : (0 <? revealDeadline (game s1 gameId)) = true) by (apply N.ltb_lt; lia).
    assert (X2 : (timestamp blk <=? revealDeadline (game s1 gameId)) = true)
      by (apply N.leb_le; lia).
    rewrite X1, X2. reflexivity.
Qed.

End RoundTrip.

Lemma commit_then_reveal_witness :
  reachable pack_commit pack_seed world_alice_committed /\
  commitChoice pack_seed bob (block world_alice_committed) 1
    (generateCommitHash pack_commit Scissors 9 bob) (storage world_alice_committed) =
    Ok (storage world_committed) /\
  player1CommitHash (game (storage world_committed) 1) <> 0 /\
  player2CommitHash (game (storage world_committed) 1) <> 0 /\
  revealDeadline (game (storage world_committed) 1) = 5300 /\
  exists s2,
    revealChoice pack_commit bob (block_at 5300) 1 Scissors 9 (storage world_committed) =
      Ok s2 /\
    choice_of (game s2 1) bob = Scissors.
Proof.
  assert (Hr : reachable pack_commit pack_seed world_alice_committed) by reach.
  assert (Hc : commitChoice pack_seed bob (block world_alice_committed) 1
                 (generateCommitHash pack_commit Scissors 9 bob)
                 (storage world_alice_committed) = Ok (storage world_committed))
    by (vm_compute; reflexivity).
  assert (H1 : player1CommitHash (game (storage world_committed) 1) <> 0)
    by (vm_compute; discriminate).
  assert (H2 : player2CommitHash (game (storage world_committed) 1) <> 0)
    by (vm_compute; discriminate).
  destruct (commit_then_reveal pack_commit pack_seed world_alice_committed bob 1
              Scissors 9 (storage world_committed) Hr Hc H1 H2)
    as (Hrd & _ & _ & _ & Hreveal).
  split; [exact Hr|]. split; [exact Hc|]. split; [exact H1|]. split; [exact H2|].
  split; [rewrite Hrd; vm_compute; reflexivity|].
  destruct (Hreveal (block_at 5300)) as [Hok _]; [vm_compute; discriminate|].
  destruct Hok as (s2 & Hs2 & _ & Hch & _); [discriminate|].
  exists s2. split; [exact Hs2 | exact Hch].
Defined.

(** * Who may play *)

Section Outsiders.

Variable commit_hash : Choice -> uint256 -> address -> bytes32.
Variable seed_hash :
  uint256 -> uint256 -> address -> address -> bytes32 -> bytes32 -> uint256 -> uint256.

(** X18.  Only the two players of a game can play it.  For a caller who is
    neither player 1 nor player 2 of the game, [commitChoice] and
    [revealChoice] revert whatever the arguments (in the end with "Not a
    player in this game", unless an earlier guard on the phase, the
    deadline, the hash or the choice fails first), and [cancelGame] reverts
    with "Only game creator can cancel". *)
Theorem outsider_cannot_play (blk : Block) (s : State) (gameId : uint256)
    (sender : address) :
  sender <> player1 (game s gameId) ->
  sender <> player2 (game s gameId) ->
  (forall commitHash,
     exists e,
       commitChoice seed_hash sender blk gameId commitHash s = Revert e /\
       (e = GameNotReady \/ e = CommitPhaseExpired \/ e = InvalidCommitHash \/
        e = NotAPlayerInThisGame)) /\
  (forall choice nonce,
     exists e,
       revealChoice commit_hash sender blk gameId choice nonce s = Revert e /\
       (e = RevealPhaseNotStarted \/ e = RevealPhaseExpired \/ e = InvalidChoice \/
        e = NotAPlayerInThisGame)) /\
  cancelGame sender blk gameId s = Revert OnlyGameCreatorCanCancel.
Proof.
  intros H1 H2.
  assert (E1 : (sender =? player1 (game s gameId)) = false) by (apply N.eqb_neq; exact H1).
  assert (E2 : (sender =? player2 (game s gameId)) = false) by (apply N.eqb_neq; exact H2).
  split; [|split].
  - intros commitHash. unfold commitChoice.
    destruct (negb (player1 (game s gameId) =? 0) && negb (player2 (game s gameId) =? 0));
      cbn [require bind]; [|eauto].
    destruct (timestamp blk <=? commitDeadline (game s gameId));
      cbn [require bind]; [|eauto 6].
    destruct (negb (commitHash =? 0)); cbn [require bind]; [|eauto 6].
    rewrite E1, E2. cbn [bind]. eauto 6.
  - intros choice nonce. unfold revealChoice.
    destruct (0 <? revealDeadline (game s gameId)); cbn [require bind]; [|eauto].
    destruct (timestamp blk <=? revealDeadline (game s gameId));
      cbn [require bind]; [|eauto 6].
    destruct (negb (bool_decide (choice = CNone))); cbn [require bind]; [|eauto 6].
    rewrite E1, E2. cbn [bind]. eauto 6.
  - unfold cancelGame.
    assert (E : (player1 (game s gameId) =? sender) = false)
      by (apply N.eqb_neq; congruence).
    rewrite E. reflexivity.
Qed.

End Outsiders.

Lemma outsider_cannot_play_witness :
  carol <> player1 (game (storage world_committed) 1) /\
  carol <> player2 (game (storage world_committed) 1) /\
  revealChoice pack_commit carol (block world_committed) 1 Rock 7
    (storage world_committed) = Revert NotAPlayerInThisGame /\
  cancelGame carol (block world_committed) 1 (storage world_committed) =
    Revert OnlyGameCreatorCanCancel.
Proof.
  assert (H1 : carol <> player1 (game (storage world_committed) 1))
    by (vm_compute; discriminate).
  assert (H2 : carol <> player2 (game (storage world_committed) 1))
    by (vm_compute; discriminate).
  destruct (outsider_cannot_play pack_commit pack_seed (block world_committed)
              (storage world_committed) 1 carol H1 H2) as (_ & _ & Hc).
  split; [exact H1|]. split; [exact H2|]. split; [vm_compute; reflexivity | exact Hc].
Defined.

(** * Deadlines *)

Lemma durations_equal : COMMIT_DURATION = REVEAL_DURATION.
Proof. reflexivity. Qed.

Lemma uncreated_game_deadline now g :
  game_inv now g -> player2 g = 0 -> revealDeadline g = 0.
Proof.
  intros [Hbet Hpl Hun Hrp Hr1 Hr2 Hd Hb] Hp2.
  destruct (Hun Hp2) as [Hc1 _].
  destruct (N.eq_dec (revealDeadline g) 0) as [|Hne]; [assumption|].
  apply Hrp in Hne. destruct Hne. congruence.
Qed.

Section Clock.

Variable commit_hash : Choice -> uint256 -> address -> bytes32.
Variable seed_hash :
  uint256 -> uint256 -> address -> address -> bytes32 -> bytes32 -> uint256 -> uint256.

Lemma steps_game_clock w w' :
  steps commit_hash seed_hash w w' ->
  state_inv (timestamp (block w)) (storage w) /\
  (forall gameId, game_clock (timestamp (block w)) (game (storage w) gameId)) ->
  state_inv (timestamp (block w')) (storage w') /\
  (forall gameId, game_clock (timestamp (block w')) (game (storage w') gameId)).
Proof.
  pose proof durations_equal as Hdur.
  apply (steps_keep commit_hash seed_hash
           (fun now s => state_inv now s /\ forall gameId, game_clock now (game s gameId))).
  - intros now now' s Hle [Hs Hc]. split; [eapply state_inv_mono; eassumption|].
    intros gameId. destruct (Hc gameId) as [C1 C2]. constructor; intros X.
    + specialize (C1 X). lia.
    + specialize (C2 X). lia.
  - intros now s s' Hg Hpg Hn [Hs Hc]. split.
    + eapply state_inv_storage; [| exact Hn | exact Hs].
      intros gameId. unfold game. rewrite Hg. reflexivity.
    + intros gameId. unfold game. rewrite Hg. apply Hc.
  - intros blk sender value s s' H [Hs Hc].
    split; [eapply createGame_state_inv; eauto|].
    apply createGame_effect in H as (_ & _ & _ & _ & _ & Hg & Hfr & _).
    intros gameId. destruct (decide (gameId = nextGameId s)) as [->|Hne].
    + rewrite Hg. constructor; cbn; intros X; congruence.
    + rewrite Hfr by assumption. apply Hc.
  - intros blk sender value gameId s s' H [Hs Hc].
    split; [eapply joinGame_state_inv; eauto|].
    pose proof (proj2 Hs gameId) as Hinv.
    apply joinGame_effect in H as (_ & _ & Hp2 & _ & _ & _ & (Hfr & _) & _ & Hg).
    pose proof (uncreated_game_deadline _ _ Hinv Hp2) as Hrd.
    intros gameId'. destruct (decide (gameId' = gameId)) as [->|Hne].
    + rewrite Hg. constructor; proj_simpl; intros X; [lia | congruence].
    + rewrite Hfr by assumption. apply Hc.
  - intros blk sender gameId commitHash s s' H [Hs Hc].
    split; [eapply commitChoice_state_inv; eauto|].
    apply commitChoice_effect in H
      as (_ & Hp2 & Hdl & _ & (Hfr & _) & _ & g1 & Hw & Hafter).
    intros gameId'. destruct (decide (gameId' = gameId)) as [->|Hne];
      [|rewrite Hfr by assumption; apply Hc].
    destruct (Hc gameId) as [C1 C2]. specialize (C1 Hp2).
    destruct Hw as [(_ & _ & ->) | (_ & _ & _ & ->)];
      destruct Hafter as [(_ & _ & _ & seed & ->) | (_ & ->)];
      constructor; proj_simpl; intros X; try (specialize (C2 X)); lia.
  - intros blk sender gameId choice nonce s s' H [Hs Hc].
    split; [eapply revealChoice_state_inv; eauto|].
    apply revealChoice_effect in H as (_ & _ & _ & (Hfr & _) & g1 & Hw & Hafter).
    intros gameId'. destruct (decide (gameId' = gameId)) as [->|Hne];
      [|rewrite Hfr by assumption; apply Hc].
    destruct (Hc gameId) as [C1 C2].
    destruct Hw as [(_ & _ & _ & ->) | (_ & _ & _ & _ & ->)];
      destruct Hafter as [(_ & _ & _ & _ & -> & _) | (_ & -> & _)];
      constructor; proj_simpl; assumption.
  - intros blk gameId s s' H [Hs Hc].
    split; [eapply handleExpiredGame_state_inv; eauto|].
    apply handleExpiredGame_effect in H as (_ & _ & _ & (Hfr & _) & Hg & _).
    intros gameId'. destruct (decide (gameId' = gameId)) as [->|Hne];
      [|rewrite Hfr by assumption; apply Hc].
    destruct (Hc gameId) as [C1 C2]. rewrite Hg. constructor; proj_simpl; assumption.
  - intros blk sender gameId s s' H [Hs Hc].
    split; [eapply cancelGame_state_inv; eauto|].
    apply cancelGame_effect in H as (_ & _ & _ & (Hfr & _) & Hg & _).
    intros gameId'. destruct (decide (gameId' = gameId)) as [->|Hne];
      [|rewrite Hfr by assumption; apply Hc].
    destruct (Hc gameId) as [C1 C2]. rewrite Hg. constructor; proj_simpl; assumption.
Qed.

End Clock.

Section Clock2.

Variable commit_hash : Choice -> uint256 -> address -> bytes32.
Variable seed_hash :
  uint256 -> uint256 -> address -> address -> bytes32 -> bytes32 -> uint256 -> uint256.

(** X19.  Deadlines follow the clock.  In a reachable world the commit
    deadline of a game with two players is at most five minutes ahead of the
    block; once the reveal phase is open, [revealDeadline] lies between
    [commitDeadline] and five minutes after it and is at most five minutes
    ahead of the block.  So a game whose reveal phase opened and which is
    not completed can be swept by [handleExpiredGame] as soon as the block
    is more than five minutes past [commitDeadline], that is at most ten
    minutes after the second player joined (room in the balances
    provided). *)
Theorem deadlines_in_order (w : World) (gameId : uint256) :
  reachable commit_hash seed_hash w ->
  (player2 (game (storage w) gameId) <> 0 ->
   commitDeadline (game (storage w) gameId) <= timestamp (block w) + COMMIT_DURATION) /\
  (revealDeadline (game (storage w) gameId) <> 0 ->
   commitDeadline (game (storage w) gameId) <= revealDeadline (game (storage w) gameId) /\
   revealDeadline (game (storage w) gameId) <=
     commitDeadline (game (storage w) gameId) + REVEAL_DURATION /\
   revealDeadline (game (storage w) gameId) <= timestamp (block w) + REVEAL_DURATION) /\
  (revealDeadline (game (storage w) gameId) <> 0 ->
   isCompleted (game (storage w) gameId) = false ->
   commitDeadline (game (storage w) gameId) + REVEAL_DURATION < timestamp (block w) ->
   headroom (storage w) (game (storage w) gameId) ->
   exists s', handleExpiredGame (block w) gameId (storage w) = Ok s').
Proof.
  intros Hreach. apply reachable_steps in Hreach as [blk0 Hsteps].
  apply steps_game_clock in Hsteps.
  - destruct Hsteps as [Hs Hc]. destruct (Hc gameId) as [C1 C2].
    split; [exact C1|]. split; [exact C2|].
    intros Hrd Hnc Hlate Hroom. specialize (C2 Hrd).
    apply handleExpiredGame_succeeds; try assumption; [apply Hs | lia | lia].
  - split; [apply state_inv_initial|].
    intros gameId'. change (game_clock (timestamp blk0) zero_game).
    constructor; cbn; intros X; congruence.
Qed.

End Clock2.

Lemma deadlines_in_order_witness :
  reachable pack_commit pack_seed world_silent /\
  revealDeadline (game (storage world_silent) 1) <> 0 /\
  commitDeadline (game (storage world_silent) 1) <=
    revealDeadline (game (storage world_silent) 1) /\
  revealDeadline (game (storage world_silent) 1) <=
    commitDeadline (game (storage world_silent) 1) + REVEAL_DURATION.
Proof.
  assert (Hr : reachable pack_commit pack_seed world_silent) by reach.
  assert (Hrd : revealDeadline (game (storage world_silent) 1) <> 0)
    by (vm_compute; discriminate).
  destruct (deadlines_in_order pack_commit pack_seed world_silent 1 Hr) as (_ & H & _).
  destruct (H Hrd) as (H1 & H2 & _).
  split; [exact Hr|]. split; [exact Hrd|]. split; [exact H1 | exact H2].
Defined.

(** * After a cancellation *)

Section Cancelled.

Variable commit_hash : Choice -> uint256 -> address -> bytes32.
Variable seed_hash :
  uint256 -> uint256 -> address -> address -> bytes32 -> bytes32 -> uint256 -> uint256.

(** X20.  [joinGame] does not look at [isCompleted].  After the creator of
    a game in a reachable world has cancelled it and been credited the
    stake, anybody else can still join the game with the matching value:
    the call succeeds, seats the caller as player 2 and sets a commit
    deadline, while the game remains completed with result [Expired] and
    the creator keeps the refund. *)
Theorem cancelled_game_stays_joinable (w : World) (creator joiner : address)
    (gameId : uint256) (blk : Block) (s1 : State) :
  reachable commit_hash seed_hash w ->
  cancelGame creator (block w) gameId (storage w) = Ok s1 ->
  creator <> 0 ->
  joiner <> creator ->
  timestamp blk + COMMIT_DURATION <= MAX_UINT256 ->
  exists s2,
    joinGame joiner (betAmount (game s1 gameId)) blk gameId s1 = Ok s2 /\
    player1 (game s2 gameId) = creator /\
    player2 (game s2 gameId) = joiner /\
    commitDeadline (game s2 gameId) = timestamp blk + COMMIT_DURATION /\
    isCompleted (game s2 gameId) = true /\
    result (game s2 gameId) = Expired /\
    balance s2 creator =
      balance (storage w) creator + betAmount (game (storage w) gameId).
Proof.
  intros Hreach H Hc Hj Hroom.
  pose proof (reachable_not_entered _ _ _ Hreach) as He.
  apply cancelGame_effect in H as (Hp1 & Hp2 & _ & (_ & _ & He1) & Hg & Hb & _).
  assert (Hok : exists s2, joinGame joiner (betAmount (game s1 gameId)) blk gameId s1 = Ok s2).
  { unfold joinGame, nonReentrant. rewrite He1, He.
    change (game (set_entered true s1) gameId) with (game s1 gameId).
    rewrite Hg. proj_simpl. rewrite Hp1, Hp2. repeat pass. eauto. }
  destruct Hok as [s2 Hs2]. exists s2. split; [exact Hs2|].
  apply joinGame_effect in Hs2 as (_ & _ & _ & _ & _ & _ & _ & Hb2 & Hg2).
  rewrite Hg2, Hb2, Hb, Hg. proj_simpl. unfold credited. rewrite Hp1.
  destruct (decide (creator = creator)); [|congruence].
  repeat split; reflexivity.
Qed.

End Cancelled.

Lemma cancelled_game_stays_joinable_witness :
  reachable pack_commit pack_seed world_created /\
  cancelGame alice (block world_created) 1 (storage world_created) =
    Ok (storage world_cancelled) /\
  alice <> 0 /\ bob <> alice /\
  timestamp (block world_cancelled) + COMMIT_DURATION <= MAX_UINT256 /\
  exists s2,
    joinGame bob stake (block world_cancelled) 1 (storage world_cancelled) = Ok s2 /\
    player2 (game s2 1) = bob /\ isCompleted (game s2 1) = true /\
    balance s2 alice = stake.
Proof.
  assert (Hr : reachable pack_commit pack_seed world_created) by reach.
  assert (Hc : cancelGame alice (block world_created) 1 (storage world_created) =
               Ok (storage world_cancelled)) by (vm_compute; reflexivity).
  assert (Ha : alice <> 0) by discriminate.
  assert (Hb : bob <> alice) by discriminate.
  assert (Hroom : timestamp (block world_cancelled) + COMMIT_DURATION <= MAX_UINT256)
    by (vm_compute; discriminate).
  destruct (cancelled_game_stays_joinable pack_commit pack_seed world_created alice bob 1
              (block world_cancelled) (storage world_cancelled) Hr Hc Ha Hb Hroom)
    as (s2 & Hs2 & _ & Hp2 & _ & Hcomp & _ & Hbal).
  split; [exact Hr|]. split; [exact Hc|]. split; [exact Ha|]. split; [exact Hb|].
  split; [exact Hroom|].
  exists s2.
  assert (Est : betAmount (game (storage world_cancelled) 1) = stake)
    by (vm_compute; reflexivity).
  rewrite Est in Hs2.
  split; [exact Hs2|]. split; [exact Hp2|]. split; [exact Hcomp|].
  rewrite Hbal. vm_compute. reflexivity.
Defined.

(** * The reveal phase works on fixed terms *)

Section Frozen.

Variable commit_hash : Choice -> uint256 -> address -> bytes32.
Variable seed_hash :
  uint256 -> uint256 -> address -> address -> bytes32 -> bytes32 -> uint256 -> uint256.

Lemma steps_reveal_terms w w' gameId :
  steps commit_hash seed_hash w w' ->
  player1 (game (storage w) gameId) <> 0 ->
  player1CommitHash (game (storage w) gameId) <> 0 ->
  player2CommitHash (game (storage w) gameId) <> 0 ->
  state_inv (timestamp (block w)) (storage w) ->
  state_inv (timestamp (block w')) (storage w') /\
  reveal_terms (game (storage w') gameId) = reveal_terms (game (storage w) gameId).
Proof.
  intros Hsteps Hp1 Hc1 Hc2 Hs0.
  set (t0 := reveal_terms (game (storage w) gameId)).
  assert (Hread : forall g, reveal_terms g = t0 ->
            player1 g <> 0 /\ player1CommitHash g <> 0 /\ player2CommitHash g <> 0).
  { intros g E. unfold t0, reveal_terms in E. injection E as -> _ -> -> _ _. auto. }
  apply (steps_keep commit_hash seed_hash
           (fun now s => state_inv now s /\ reveal_terms (game s gameId) = t0))
    with (w := w); [ | | | | | | | | exact Hsteps | split; [exact Hs0 | reflexivity] ].
  - intros now now' s Hle [Hs E]. split; [eapply state_inv_mono; eassumption | exact E].
  - intros now s s' Hg Hpg Hn [Hs E]. split.
    + eapply state_inv_storage; [| exact Hn | exact Hs].
      intros gameId'. unfold game. rewrite Hg. reflexivity.
    + unfold game in *. rewrite Hg. exact E.
  - intros blk sender value s s' H [Hs E].
    split; [eapply createGame_state_inv; eauto|].
    destruct (Hread _ E) as (X1 & _).
    apply createGame_effect in H as (_ & _ & _ & _ & _ & _ & Hfr & _).
    rewrite Hfr; [exact E|]. intros ->. apply X1, (proj2 (proj1 Hs)). lia.
  - intros blk sender value gameId' s s' H [Hs E].
    split; [eapply joinGame_state_inv; eauto|].
    destruct (Hread _ E) as (_ & X2 & _).
    apply joinGame_effect in H as (_ & _ & Hp2 & _ & _ & _ & (Hfr & _) & _ & _).
    destruct (decide (gameId = gameId')) as [<-|Hne]; [|rewrite Hfr by assumption; exact E].
    destruct (inv_unjoined _ _ (proj2 Hs gameId) Hp2). congruence.
  - intros blk sender gameId' commitHash s s' H [Hs E].
    split; [eapply commitChoice_state_inv; eauto|].
    destruct (Hread _ E) as (_ & X2 & X3).
    apply commitChoice_effect in H as (_ & _ & _ & _ & (Hfr & _) & _ & g1 & Hw & _).
    destruct (decide (gameId = gameId')) as [<-|Hne]; [|rewrite Hfr by assumption; exact E].
    destruct Hw as [(_ & ? & _) | (_ & _ & ? & _)]; congruence.
  - intros blk sender gameId' choice nonce s s' H [Hs E].
    split; [eapply revealChoice_state_inv; eauto|].
    apply revealChoice_effect in H as (_ & _ & _ & (Hfr & _) & g1 & Hw & Hafter).
    destruct (decide (gameId = gameId')) as [<-|Hne]; [|rewrite Hfr by assumption; exact E].
    rewrite <- E. unfold reveal_terms.
    destruct Hw as [(_ & _ & _ & ->) | (_ & _ & _ & _ & ->)];
      destruct Hafter as [(_ & _ & _ & _ & -> & _) | (_ & -> & _)]; reflexivity.
  - intros blk gameId' s s' H [Hs E].
    split; [eapply handleExpiredGame_state_inv; eauto|].
    apply handleExpiredGame_effect in H as (_ & _ & _ & (Hfr & _) & Hg & _).
    destruct (decide (gameId = gameId')) as [<-|Hne]; [|rewrite Hfr by assumption; exact E].
    rewrite <- E, Hg. reflexivity.
  - intros blk sender gameId' s s' H [Hs E].
    split; [eapply cancelGame_state_inv; eauto|].
    apply cancelGame_effect in H as (_ & _ & _ & (Hfr & _) & Hg & _).
    destruct (decide (gameId = gameId')) as [<-|Hne]; [|rewrite Hfr by assumption; exact E].
    rewrite <- E, Hg. reflexivity.
Qed.

(** X21.  Once both commitments of a game are in, the terms of its reveal
    phase are frozen: in every later world the two players, the two
    commitments, [revealDeadline] and the stored seed are what they were
    when the phase opened.  In particular the deadline is never extended
    and the seed is drawn once. *)
Theorem reveal_phase_terms_are_fixed (w w' : World) (gameId : uint256) :
  reachable commit_hash seed_hash w ->
  steps commit_hash seed_hash w w' ->
  revealDeadline (game (storage w) gameId) <> 0 ->
  player1 (game (storage w') gameId) = player1 (game (storage w) gameId) /\
  player2 (game (storage w') gameId) = player2 (game (storage w) gameId) /\
  player1CommitHash (game (storage w') gameId) =
    player1CommitHash (game (storage w) gameId) /\
  player2CommitHash (game (storage w') gameId) =
    player2CommitHash (game (storage w) gameId) /\
  revealDeadline (game (storage w') gameId) = revealDeadline (game (storage w) gameId) /\
  randomSeed (game (storage w') gameId) = randomSeed (game (storage w) gameId).
Proof.
  intros Hreach Hsteps Hrd.
  pose proof (reachable_state_inv _ _ _ Hreach) as Hs.
  pose proof (proj2 Hs gameId) as Hg.
  destruct (joined_distinct _ _ Hg Hrd) as (_ & _ & Hp1).
  destruct (proj1 (inv_reveal_phase _ _ Hg) Hrd) as [Hc1 Hc2].
  destruct (steps_reveal_terms w w' gameId Hsteps Hp1 Hc1 Hc2 Hs) as [_ E].
  unfold reveal_terms in E. injection E as -> -> -> -> -> ->.
  repeat split; reflexivity.
Qed.

End Frozen.

Lemma reveal_phase_terms_are_fixed_witness :
  reachable pack_commit pack_seed world_committed /\
  steps pack_commit pack_seed world_committed world_resolved_later /\
  revealDeadline (game (storage world_committed) 1) <> 0 /\
  revealDeadline (game (storage world_resolved_later) 1) =
    revealDeadline (game (storage world_committed) 1) /\
  randomSeed (game (storage world_resolved_later) 1) =
    randomSeed (game (storage world_committed) 1).
Proof.
  assert (Hr : reachable pack_commit pack_seed world_committed) by reach.
  assert (Hst : steps pack_commit pack_seed world_committed world_resolved_later)
    by (do 3 apply steps_act; apply steps_refl).
  assert (Hrd : revealDeadline (game (storage world_committed) 1) <> 0)
    by (vm_compute; discriminate).
  destruct (reveal_phase_terms_are_fixed pack_commit pack_seed world_committed
              world_resolved_later 1 Hr Hst Hrd) as (_ & _ & _ & _ & E1 & E2).
  split; [exact Hr|]. split; [exact Hst|]. split; [exact Hrd|].
  split; [exact E1 | exact E2].
Defined.

(** * The seed

    No function of the game reads [randomSeed]: running a call on two
    storages that differ only there gives outcomes that differ only there. *)

Lemma same_but_seed_refl s : same_but_seed s s.
Proof. repeat split. Qed.

Lemma seed_fields g g' :
  set_randomSeed 0 g = set_randomSeed 0 g' ->
  player1 g = player1 g' /\ player2 g = player2 g' /\
  player1CommitHash g = player1CommitHash g' /\
  player2CommitHash g = player2CommitHash g' /\
  player1Choice g = player1Choice g' /\ player2Choice g = player2Choice g' /\
  betAmount g = betAmount g' /\ commitDeadline g = commitDeadline g' /\
  revealDeadline g = revealDeadline g' /\ result g = result g' /\
  player1Revealed g = player1Revealed g' /\ player2Revealed g = player2Revealed g' /\
  isCompleted g = isCompleted g' /\ fundsDistributed g = fundsDistributed g'.
Proof. destruct g, g'. cbn. intros [= -> -> -> -> -> -> -> -> -> -> -> -> -> ->]. repeat split. Qed.

Ltac seedless_tac :=
  intros [] []; cbn; intros [= -> -> -> -> -> -> -> -> -> -> -> -> -> ->]; reflexivity.

Lemma seedless_player2 v : seedless (set_player2 v).
Proof. seedless_tac. Qed.
Lemma seedless_commitDeadline v : seedless (set_commitDeadline v).
Proof. seedless_tac. Qed.
Lemma seedless_player1CommitHash v : seedless (set_player1CommitHash v).
Proof. seedless_tac. Qed.
Lemma seedless_player2CommitHash v : seedless (set_player2CommitHash v).
Proof. seedless_tac. Qed.
Lemma seedless_revealDeadline v : seedless (set_revealDeadline v).
Proof. seedless_tac. Qed.
Lemma seedless_randomSeed v : seedless (set_randomSeed v).
Proof. seedless_tac. Qed.
Lemma seedless_player1Choice v : seedless (set_player1Choice v).
Proof. seedless_tac. Qed.
Lemma seedless_player2Choice v : seedless (set_player2Choice v).
Proof. seedless_tac. Qed.
Lemma seedless_player1Revealed v : seedless (set_player1Revealed v).
Proof. seedless_tac. Qed.
Lemma seedless_player2Revealed v : seedless (set_player2Revealed v).
Proof. seedless_tac. Qed.
Lemma seedless_result v : seedless (set_result v).
Proof. seedless_tac. Qed.
Lemma seedless_isCompleted v : seedless (set_isCompleted v).
Proof. seedless_tac. Qed.
Lemma seedless_fundsDistributed v : seedless (set_fundsDistributed v).
Proof. seedless_tac. Qed.

Lemma sim_update_game gameId f s t :
  seedless f -> same_but_seed s t ->
  same_but_seed (update_game gameId f s) (update_game gameId f t).
Proof.
  intros Hf (Hg & Hb & Hl & Hn & He). repeat split; try assumption.
  intros gameId'. rewrite !game_update_game.
  destruct (decide (gameId = gameId')); [apply Hf|]; apply Hg.
Qed.

Lemma sim_emit e e' s t : same_but_seed s t -> same_but_seed (emit e s) (emit e' t).
Proof. intros (Hg & Hb & Hl & Hn & He). repeat split; assumption. Qed.

Lemma sim_set_entered v s t :
  same_but_seed s t -> same_but_seed (set_entered v s) (set_entered v t).
Proof. intros (Hg & Hb & Hl & Hn & He). repeat split; assumption. Qed.

Lemma sim_set_nextGameId v s t :
  same_but_seed s t -> same_but_seed (set_nextGameId v s) (set_nextGameId v t).
Proof. intros (Hg & Hb & Hl & Hn & He). repeat split; assumption. Qed.

Lemma sim_push_playerGame a gameId s t :
  same_but_seed s t ->
  same_but_seed (push_playerGame a gameId s) (push_playerGame a gameId t).
Proof.
  intros (Hg & Hb & Hl & Hn & He). repeat split; try assumption.
  intros b. rewrite !getPlayerGames_push, !Hl. reflexivity.
Qed.

Lemma sim_new_game gameId g s t :
  same_but_seed s t ->
  same_but_seed (set_games (<[gameId := g]> (games s)) s)
                (set_games (<[gameId := g]> (games t)) t).
Proof.
  intros (Hg & Hb & Hl & Hn & He). repeat split; try assumption.
  intros gameId'. specialize (Hg gameId'). unfold game in *. cbn.
  rewrite !lookup_insert. destruct (decide (gameId = gameId')); [reflexivity | exact Hg].
Qed.

Lemma agree_credit a v s t :
  same_but_seed s t -> agree (credit a v s) (credit a v t).
Proof.
  intros (Hg & Hb & Hl & Hn & He). unfold credit. rewrite <- Hb.
  destruct (checked_add (balance s a) v) as [b|e]; cbn; [|reflexivity].
  repeat split; try assumption.
  intros a'. rewrite !balance_set_playerBalances_insert, Hb. reflexivity.
Qed.

Lemma agree_bind m m' k k' :
  agree m m' ->
  (forall s t, same_but_seed s t -> agree (k s) (k' t)) ->
  agree (bind m k) (bind m' k').
Proof.
  destruct m, m'; cbn; intros H Hk; try contradiction; [apply Hk; exact H | exact H].
Qed.

Lemma agree_require b e (k k' : unit -> Result State) :
  (b = true -> agree (k tt) (k' tt)) ->
  agree (bind (require b e) k) (bind (require b e) k').
Proof. destruct b; cbn; intros H; [apply H; reflexivity | reflexivity]. Qed.

Lemma agree_checked_add a b (k k' : N -> Result State) :
  (forall c, agree (k c) (k' c)) ->
  agree (bind (checked_add a b) k) (bind (checked_add a b) k').
Proof. intros H. destruct (checked_add a b); cbn; [apply H | reflexivity]. Qed.

Lemma agree_checked_mul a b (k k' : N -> Result State) :
  (forall c, agree (k c) (k' c)) ->
  agree (bind (checked_mul a b) k) (bind (checked_mul a b) k').
Proof. intros H. destruct (checked_mul a b); cbn; [apply H | reflexivity]. Qed.

Ltac fields gameId :=
  repeat match goal with
  | H : same_but_seed ?s ?t |- _ =>
      lazymatch goal with
      | _ : player1 (game s gameId) = player1 (game t gameId) |- _ => fail
      | _ => idtac
      end;
      let F := fresh "F" in
      pose proof (seed_fields _ _ (proj1 H gameId)) as F;
      destruct F as (?F & ?F & ?F & ?F & ?F & ?F & ?F & ?F & ?F & ?F & ?F & ?F & ?F & ?F)
  end;
  repeat match goal with
  | F : ?p (game ?s gameId) = ?p (game ?t gameId) |- _ =>
      progress (rewrite <- ?F)
  end.

Ltac norm := repeat progress (autorewrite with storage; proj_simpl).

Ltac sim_solve :=
  repeat first
    [ assumption
    | apply sim_emit
    | apply sim_set_entered
    | apply sim_set_nextGameId
    | apply sim_push_playerGame
    | apply sim_new_game
    | apply sim_update_game;
      [ first [ apply seedless_player2 | apply seedless_commitDeadline
              | apply seedless_player1CommitHash | apply seedless_player2CommitHash
              | apply seedless_revealDeadline | apply seedless_randomSeed
              | apply seedless_player1Choice | apply seedless_player2Choice
              | apply seedless_player1Revealed | apply seedless_player2Revealed
              | apply seedless_result | apply seedless_isCompleted
              | apply seedless_fundsDistributed ] | ] ].

Section Seed.

Variable commit_hash : Choice -> uint256 -> address -> bytes32.
Variable seed_hash :
  uint256 -> uint256 -> address -> address -> bytes32 -> bytes32 -> uint256 -> uint256.

Lemma agree_cancelGame sender blk gameId s t :
  same_but_seed s t ->
  agree (cancelGame sender blk gameId s) (cancelGame sender blk gameId t).
Proof.
  intros Hsim. unfold cancelGame. fields gameId.
  apply agree_require; intros _. apply agree_require; intros _.
  apply agree_checked_add; intros c. apply agree_require; intros _.
  apply agree_bind; [apply agree_credit; exact Hsim|].
  intros s0 t0 Hsim0. cbn [agree]. sim_solve.
Qed.

Lemma agree_nonReentrant body body' s t :
  same_but_seed s t ->
  (forall s0 t0, same_but_seed s0 t0 -> agree (body s0) (body' t0)) ->
  agree (nonReentrant body s) (nonReentrant body' t).
Proof.
  intros Hsim Hbody. unfold nonReentrant.
  rewrite <- (proj2 (proj2 (proj2 (proj2 Hsim)))).
  destruct (entered s); [reflexivity|].
  apply agree_bind; [apply Hbody; sim_solve|].
  intros s0 t0 Hsim0. cbn [agree]. sim_solve.
Qed.

Lemma agree_createGame sender value s t :
  same_but_seed s t ->
  agree (createGame sender value s) (createGame sender value t).
Proof.
  intros Hsim. unfold createGame. apply agree_nonReentrant; [exact Hsim|].
  intros s0 t0 Hsim0.
  apply agree_require; intros _. apply agree_require; intros _.
  rewrite <- (proj1 (proj2 (proj2 (proj2 Hsim0)))).
  apply agree_checked_add; intros c. cbn [agree]. sim_solve.
Qed.

Lemma agree_joinGame sender value blk gameId s t :
  same_but_seed s t ->
  agree (joinGame sender value blk gameId s) (joinGame sender value blk gameId t).
Proof.
  intros Hsim. unfold joinGame. apply agree_nonReentrant; [exact Hsim|].
  intros s0 t0 Hsim0. fields gameId.
  apply agree_require; intros _. apply agree_require; intros _.
  apply agree_require; intros _. apply agree_require; intros _.
  apply agree_checked_add; intros c. cbn [agree]. sim_solve.
Qed.

Lemma agree_generateRandomSeed blk gameId s t :
  same_but_seed s t ->
  same_but_seed (_generateRandomSeed seed_hash blk gameId s)
                (_generateRandomSeed seed_hash blk gameId t).
Proof.
  intros Hsim. unfold _generateRandomSeed. cbv zeta. fields gameId. sim_solve.
Qed.

Lemma agree_commitChoice sender blk gameId commitHash s t :
  same_but_seed s t ->
  agree (commitChoice seed_hash sender blk gameId commitHash s)
        (commitChoice seed_hash sender blk gameId commitHash t).
Proof.
  intros Hsim. unfold commitChoice. fields gameId.
  apply agree_require; intros _. apply agree_require; intros _.
  apply agree_require; intros _.
  apply agree_bind.
  - destruct (sender =? player1 (game s gameId)).
    + apply agree_require; intros _. cbn [agree]. sim_solve.
    + destruct (sender =? player2 (game s gameId)); [|reflexivity].
      apply agree_require; intros _. cbn [agree]. sim_solve.
  - intros s0 t0 Hsim0. norm. fields gameId.
    destruct (negb (player1CommitHash (game s0 gameId) =? 0) &&
              negb (player2CommitHash (game s0 gameId) =? 0)).
    + apply agree_checked_add; intros c. cbn [agree].
      apply agree_generateRandomSeed. sim_solve.
    + cbn [agree]. sim_solve.
Qed.

Lemma agree_distributeFunds gameId s t :
  same_but_seed s t ->
  agree (_distributeFunds gameId s) (_distributeFunds gameId t).
Proof.
  intros Hsim. unfold _distributeFunds. fields gameId.
  apply agree_require; intros _. apply agree_checked_mul; intros pot.
  apply agree_bind.
  - destruct (result (game s gameId)); try (cbn [agree]; exact Hsim);
      try (apply agree_credit; exact Hsim).
    apply agree_bind; [apply agree_credit; exact Hsim|].
    intros s0 t0 Hsim0. fields gameId. apply agree_credit. exact Hsim0.
  - intros s0 t0 Hsim0. cbn [agree]. sim_solve.
Qed.

Lemma agree_determineWinner gameId s t :
  same_but_seed s t ->
  agree (_determineWinner gameId s) (_determineWinner gameId t).
Proof.
  intros Hsim. unfold _determineWinner. fields gameId.
  apply agree_bind.
  - apply agree_distributeFunds.
    repeat match goal with |- context [if ?b then _ else _] => destruct b end;
      sim_solve.
  - intros s0 t0 Hsim0. cbn [agree]. sim_solve.
Qed.

Lemma agree_revealChoice sender blk gameId choice nonce s t :
  same_but_seed s t ->
  agree (revealChoice commit_hash sender blk gameId choice nonce s)
        (revealChoice commit_hash sender blk gameId choice nonce t).
Proof.
  intros Hsim. unfold revealChoice. fields gameId.
  apply agree_require; intros _. apply agree_require; intros _.
  apply agree_require; intros _.
  apply agree_bind.
  - destruct (sender =? player1 (game s gameId)).
    + apply agree_require; intros _. apply agree_require; intros _.
      cbn [agree]. sim_solve.
    + destruct (sender =? player2 (game s gameId)); [|reflexivity].
      apply agree_require; intros _. apply agree_require; intros _.
      cbn [agree]. sim_solve.
  - intros s0 t0 Hsim0. norm. fields gameId.
    destruct (player1Revealed (game s0 gameId) && player2Revealed (game s0 gameId)).
    + apply agree_determineWinner. sim_solve.
    + cbn [agree]. sim_solve.
Qed.

Lemma agree_handleExpiredGame blk gameId s t :
  same_but_seed s t ->
  agree (handleExpiredGame blk gameId s) (handleExpiredGame blk gameId t).
Proof.
  intros Hsim. unfold handleExpiredGame. fields gameId.
  apply agree_require; intros _. apply agree_require; intros _.
  apply agree_bind.
  - destruct (player1Revealed (game s gameId) && negb (player2Revealed (game s gameId)));
      [| destruct (negb (player1Revealed (game s gameId)) &&
                   player2Revealed (game s gameId))];
      norm; fields gameId.
    + apply agree_checked_mul; intros pot. apply agree_credit. sim_solve.
    + apply agree_checked_mul; intros pot. apply agree_credit. sim_solve.
    + apply agree_bind; [apply agree_credit; sim_solve|].
      intros s0 t0 Hsim0. norm. fields gameId. apply agree_credit. exact Hsim0.
  - intros s0 t0 Hsim0. cbn [agree]. sim_solve.
Qed.

End Seed.

Lemma same_but_seed_overwrite gameId v s :
  same_but_seed s (update_game gameId (set_randomSeed v) s).
Proof.
  repeat split. intros gameId'. rewrite game_update_game.
  destruct (decide (gameId = gameId')) as [<-|]; [|reflexivity].
  destruct (game s gameId). reflexivity.
Qed.

Section Seed2.

Variable commit_hash : Choice -> uint256 -> address -> bytes32.
Variable seed_hash :
  uint256 -> uint256 -> address -> address -> bytes32 -> bytes32 -> uint256 -> uint256.

(** X22.  The stored seed is never read by the contract.  Take two
    storages that differ at most in the [randomSeed] fields of their games,
    for instance one obtained from the other by overwriting the seed of a
    game with any value.  Then every function of the game ([createGame],
    [joinGame], [commitChoice], [revealChoice], [handleExpiredGame],
    [cancelGame]) called with the same arguments in the same block either
    reverts with the same error on both, or succeeds on both and leaves
    storages that again differ at most in seeds: the same players,
    commitments, choices, results, flags, balances and lists of games.
    ([withdrawBalance] hands control to foreign code, which may read the
    seed through [getGame].) *)
Theorem seed_is_never_read (c : Call) (sender : address) (blk : Block) (s t : State) :
  is_withdraw c = false ->
  same_but_seed s t ->
  agree (exec commit_hash seed_hash c sender blk s)
        (exec commit_hash seed_hash c sender blk t) /\
  (forall gameId v,
     agree (exec commit_hash seed_hash c sender blk s)
           (exec commit_hash seed_hash c sender blk
              (update_game gameId (set_randomSeed v) s))).
Proof.
  intros Hw Hsim.
  assert (Hall : forall t', same_but_seed s t' ->
            agree (exec commit_hash seed_hash c sender blk s)
                  (exec commit_hash seed_hash c sender blk t')).
  { intros t' Hsim'. destruct c; try discriminate Hw; cbn [exec].
    - apply agree_createGame; assumption.
    - apply agree_joinGame; assumption.
    - apply agree_commitChoice; assumption.
    - apply agree_revealChoice; assumption.
    - apply agree_handleExpiredGame; assumption.
    - apply agree_cancelGame; assumption. }
  split; [apply Hall; exact Hsim|].
  intros gameId v. apply Hall. apply same_but_seed_overwrite.
Qed.

End Seed2.

Lemma seed_is_never_read_witness :
  is_withdraw (RevealChoice 1 Scissors 9) = false /\
  same_but_seed (storage world_alice_revealed) (storage world_alice_revealed) /\
  agree (exec pack_commit pack_seed (RevealChoice 1 Scissors 9) bob
           (block world_alice_revealed) (storage world_alice_revealed))
        (exec pack_commit pack_seed (RevealChoice 1 Scissors 9) bob
           (block world_alice_revealed)
           (update_game 1 (set_randomSeed 42) (storage world_alice_revealed))).
Proof.
  assert (Hw : is_withdraw (RevealChoice 1 Scissors 9) = false) by reflexivity.
  assert (Hsim : same_but_seed (storage world_alice_revealed)
                   (storage world_alice_revealed)) by apply same_but_seed_refl.
  split; [exact Hw|]. split; [exact Hsim|].
  apply (proj2 (seed_is_never_read pack_commit pack_seed (RevealChoice 1 Scissors 9) bob
                  (block world_alice_revealed) (storage world_alice_revealed)
                  (storage world_alice_revealed) Hw Hsim) 1 42).
Defined.

(** * Joining *)

(** X23.  With the guard clear and room for the commit deadline,
    [joinGame] succeeds exactly on a game that has a creator and no second
    player, for a caller other than the creator who sends exactly the
    stake; on such an open game the creator is turned away with "Cannot
    play against yourself" and anybody else sending another value with
    "Must match the bet amount". *)
Theorem joinGame_succeeds_iff (sender : address) (value : uint256) (blk : Block)
    (gameId : uint256) (s : State) :
  entered s = false ->
  timestamp blk + COMMIT_DURATION <= MAX_UINT256 ->
  ((exists s', joinGame sender value blk gameId s = Ok s') <->
   (player1 (game s gameId) <> 0 /\ player2 (game s gameId) = 0 /\
    sender <> player1 (game s gameId) /\ value = betAmount (game s gameId))) /\
  (player1 (game s gameId) <> 0 -> player2 (game s gameId) = 0 ->
   sender = player1 (game s gameId) ->
   joinGame sender value blk gameId s = Revert CannotPlayAgainstYourself) /\
  (player1 (game s gameId) <> 0 -> player2 (game s gameId) = 0 ->
   sender <> player1 (game s gameId) -> value <> betAmount (game s gameId) ->
   joinGame sender value blk gameId s = Revert MustMatchTheBetAmount).
Proof.
  intros He Hroom. split; [split|split].
  - intros [s' H].
    apply joinGame_effect in H as (_ & Hp1 & Hp2 & Hs & Hv & _). auto.
  - intros (Hp1 & Hp2 & Hs & Hv). unfold joinGame, nonReentrant. rewrite He.
    change (game (set_entered true s) gameId) with (game s gameId).
    repeat pass. eauto.
  - intros Hp1 Hp2 Hs. unfold joinGame, nonReentrant. rewrite He.
    change (game (set_entered true s) gameId) with (game s gameId).
    pass. pass. rewrite Hs, N.eqb_refl. reflexivity.
  - intros Hp1 Hp2 Hs Hv. unfold joinGame, nonReentrant. rewrite He.
    change (game (set_entered true s) gameId) with (game s gameId).
    pass. pass. pass.
    assert (E : (value =? betAmount (game s gameId)) = false) by (apply N.eqb_neq; exact Hv).
    rewrite E. reflexivity.
Qed.

Lemma joinGame_succeeds_iff_witness :
  entered (storage world_created) = false /\
  timestamp (block world_created) + COMMIT_DURATION <= MAX_UINT256 /\
  (exists s', joinGame bob stake (block world_created) 1 (storage world_created) = Ok s') /\
  joinGame alice stake (block world_created) 1 (storage world_created) =
    Revert CannotPlayAgainstYourself /\
  joinGame bob (stake + 1) (block world_created) 1 (storage world_created) =
    Revert MustMatchTheBetAmount.
Proof.
  assert (He : entered (storage world_created) = false) by (vm_compute; reflexivity).
  assert (Hroom : timestamp (block world_created) + COMMIT_DURATION <= MAX_UINT256)
    by (vm_compute; discriminate).
  split; [exact He|]. split; [exact Hroom|]. split; [|split].
  - apply (proj2 (proj1 (joinGame_succeeds_iff bob stake (block world_created) 1
                           (storage world_created) He Hroom))).
    vm_compute. repeat split; try discriminate; reflexivity.
  - apply (proj1 (proj2 (joinGame_succeeds_iff alice stake (block world_created) 1
                           (storage world_created) He Hroom))).
    + vm_compute; discriminate.
    + vm_compute; reflexivity.
    + vm_compute; reflexivity.
  - apply (proj2 (proj2 (joinGame_succeeds_iff bob (stake + 1) (block world_created) 1
                           (storage world_created) He Hroom))).
    + vm_compute; discriminate.
    + vm_compute; reflexivity.
    + vm_compute; discriminate.
    + vm_compute; discriminate.
Defined.

(** * The log *)

Lemma events_credit a amount s s' : credit a amount s = Ok s' -> events s' = events s.
Proof. intros H. apply credit_ok in H as [_ ->]. reflexivity. Qed.

Lemma _distributeFunds_events gameId s s' :
  _distributeFunds gameId s = Ok s' -> events s' = events s.
Proof.
  intros H. unfold _distributeFunds in H.
  ok_inv; subst; credit_inv; reflexivity.
Qed.

Lemma _determineWinner_events gameId s s' :
  _determineWinner gameId s = Ok s' ->
  events s' =
  GameCompleted gameId (result (game s' gameId))
    (named_winner (result (game s' gameId)) (game s' gameId)) :: events s.
Proof.
  intros H. unfold _determineWinner in H.
  repeat match type of H with
         | context [if ?b then _ else _] => destruct b
         end;
    ok_inv; subst;
    match goal with E : _distributeFunds _ _ = Ok _ |- _ =>
      apply _distributeFunds_events in E end;
    cbn [events emit]; autorewrite with storage;
    match goal with E : events _ = _ |- _ => rewrite E end;
    unfold named_winner; reflexivity.
Qed.

Section Log.

Variable commit_hash : Choice -> uint256 -> address -> bytes32.

(** X24.  The [GameCompleted] event names a winner only when the game ends
    by the second reveal.  A successful [revealChoice] after which both
    players have revealed logs [ChoiceRevealed] and then [GameCompleted]
    with the stored result and, as winner, player 1 or player 2 according to
    that result (the zero address on a draw).  A successful
    [handleExpiredGame] logs [GameCompleted] with the result of the sweep
    and the zero address as winner, also when the result is a win by
    forfeit for the one player who revealed. *)
Theorem completion_event_winner (blk : Block) (gameId : uint256) (s : State) :
  (forall sender choice nonce s',
     revealChoice commit_hash sender blk gameId choice nonce s = Ok s' ->
     player1Revealed (game s' gameId) = true ->
     player2Revealed (game s' gameId) = true ->
     events s' =
     GameCompleted gameId (result (game s' gameId))
       (named_winner (result (game s' gameId)) (game s' gameId))
     :: ChoiceRevealed gameId sender choice :: events s) /\
  (forall s',
     handleExpiredGame blk gameId s = Ok s' ->
     result (game s' gameId) = swept (game s gameId) /\
     events s' = GameCompleted gameId (swept (game s gameId)) 0 :: events s).
Proof.
  split.
  - intros sender choice nonce s' H Hr1 Hr2.
    unfold revealChoice in H.
    ok_inv; subst;
      try match goal with
      | E : _determineWinner _ _ = Ok _ |- _ =>
          apply _determineWinner_events in E; rewrite E; reflexivity
      end;
      autorewrite with storage in *; proj_simpl;
      match goal with
      | Hif : _ && _ = false |- _ => rewrite ?Hr1, ?Hr2 in Hif; discriminate Hif
      end.
  - intros s' H.
    pose proof H as Heff.
    apply handleExpiredGame_effect in Heff as (_ & _ & _ & _ & Hg & _).
    split; [rewrite Hg; reflexivity|].
    unfold handleExpiredGame in H. unfold swept.
    ok_inv; subst; credit_inv; autorewrite with storage in *;
      repeat match goal with Hc : (_ && _) = _ |- _ => rewrite Hc end;
      cbn [events emit]; autorewrite with storage; proj_simpl; reflexivity.
Qed.

End Log.

Lemma completion_event_winner_witness :
  (exists s',
     revealChoice pack_commit bob (block world_alice_revealed) 1 Scissors 9
       (storage world_alice_revealed) = Ok s' /\
     hd_error (events s') = Some (GameCompleted 1 Player1Wins alice)) /\
  (exists s',
     handleExpiredGame (block world_forfeit) 1 (storage world_forfeit) = Ok s' /\
     hd_error (events s') = Some (GameCompleted 1 Player1Wins 0)).
Proof.
  destruct (completion_event_winner pack_commit (block world_alice_revealed) 1
              (storage world_alice_revealed)) as [Hreveal _].
  destruct (completion_event_winner pack_commit (block world_forfeit) 1
              (storage world_forfeit)) as [_ Hsweep].
  split.
  - exists (storage world_resolved).
    assert (E : revealChoice pack_commit bob (block world_alice_revealed) 1 Scissors 9
                  (storage world_alice_revealed) = Ok (storage world_resolved))
      by (vm_compute; reflexivity).
    split; [exact E|].
    rewrite (Hreveal bob Scissors 9 (storage world_resolved) E);
      vm_compute; reflexivity.
  - pose (s' := after (handleExpiredGame (block world_forfeit) 1 (storage world_forfeit))
                      (storage world_forfeit)).
    assert (E : handleExpiredGame (block world_forfeit) 1 (storage world_forfeit) = Ok s')
      by (vm_compute; reflexivity).
    exists s'. split; [exact E|].
    destruct (Hsweep s' E) as [_ Hev]. rewrite Hev. vm_compute. reflexivity.
Defined.
